(** * RAMCloud segment manager (SegmentManager.cc): a shallow embedding

    The segment manager owns the life cycle of the segments of one master's
    log.  This development embeds the C++ of [SegmentManager.cc] as a
    state-and-failure monad over a record holding the members of the class,
    and proves the properties the design document states about it.

    Conventions of the embedding:
    - a [LogSegment*] or [LogSegment&] is the index of the [segments] entry
      holding the object (every segment lives in [segments[slot]]);
    - [uint32_t] and [uint64_t] values are [Z] with the wrap-around written
      out ([wrap32], [wrap64]); slots are [nat] (no arithmetic is done on
      them);
    - [assert] is active: a failing assertion ends the run with
      [Err AssertionFailed];
    - a failure carries no manager; where a property depends on what a
      throwing call leaves behind, that manager is defined on its own
      ([allocHead_unwound]);
    - the intrusive per-state lists are lists of slots, in list order. *)

From Stdlib Require Import ZArith QArith.QArith_base QArith.Qround.
From stdpp Require Import gmap list fin_maps functions.

#[local] Open Scope Z_scope.

(** ** Machine integers *)

Definition wrap32 (z : Z) : Z := z mod 2 ^ 32.
Definition wrap64 (z : Z) : Z := z mod 2 ^ 64.
(** [int] in two's complement. *)
Definition wrapInt (z : Z) : Z := (z + 2 ^ 31) mod 2 ^ 32 - 2 ^ 31.

Definition uint32 (z : Z) : Prop := 0 ≤ z < 2 ^ 32.
Definition uint64 (z : Z) : Prop := 0 ≤ z < 2 ^ 64.

(** ** Data model *)

(** [SegmentManager::State] and [SegmentManager::AllocationType]; the
    enumerations are declared in SegmentManager.h, their members are the
    ones SegmentManager.cc names. *)
Inductive State : Set :=
| HEAD
| CLEANING_INTO
| CLEANABLE_PENDING_DIGEST
| NEWLY_CLEANABLE
| CLEANABLE
| FREEABLE_PENDING_DIGEST_AND_REFERENCES
| FREEABLE_PENDING_REFERENCES.

#[global] Instance State_eq_dec : EqDecision State.
Proof. solve_decision. Defined.

Inductive AllocationType : Set :=
| ALLOC_HEAD
| ALLOC_EMERGENCY_HEAD
| ALLOC_SURVIVOR.

#[global] Instance AllocationType_eq_dec : EqDecision AllocationType.
Proof. solve_decision. Defined.

(** The two log entries the segment manager appends. *)
Inductive LogEntry : Type :=
| LOG_ENTRY_TYPE_SEGHEADER (logId segmentId segmentSize headSegmentIdDuringCleaning : Z)
| LOG_ENTRY_TYPE_LOGDIGEST (segmentIds : list Z).

(** Modelled from the spec: class LogSegment (LogSegment.h is not part of
    this unit).  The fields are the ones SegmentManager.cc reads and writes:
    [id], [slot], [isEmergencyHead], [cleanedEpoch], [replicatedSegment],
    the seglet count behind [getSegletsAllocated()], the entries appended so
    far and whether [disableAppends()] was called. *)
Record LogSegment : Type := mkLogSegment {
  id : Z;
  slot : nat;
  isEmergencyHead : bool;
  cleanedEpoch : Z;
  segletsAllocated : Z;
  entries : list LogEntry;
  appendsDisabled : bool;
  replicatedSegment : option Z
}.

(** Modelled from the spec: the seglet allocator, seen through
    [getFreeSegmentCount()], [getSegmentSize()] and [getSegletSize()]. *)
Record Allocator : Type := mkAllocator {
  freeSegmentCount : Z;
  segmentSize : Z;
  segletSize : Z
}.

(** Modelled from the spec: the RPC-epoch oracle [ServerRpcPool<>], a
    process-wide epoch counter and the earliest epoch an outstanding RPC
    belongs to. *)
Record ServerRpcPool : Type := mkServerRpcPool {
  currentEpoch : Z;
  earliestOutstandingEpoch : Z
}.

(** Calls made on the replica manager and on the replicated segments it
    hands out, in program order.  A [ReplicatedSegment*] is identified by
    the id of the segment it mirrors. *)
Inductive ReplicaOp : Type :=
| AllocateHead (segmentId : Z) (prevReplicatedSegment : option Z)
| AllocateNonHead (segmentId : Z)
| Close (replicatedSegment : Z)
| Sync (replicatedSegment : Z) (appendedLength : nat).

Record SegmentManager : Type := mkSegmentManager {
  logId : Z;
  allocator : Allocator;
  rpcPool : ServerRpcPool;
  replicaManager : list ReplicaOp;
  maxSegments : Z;
  numEmergencyHeads : Z;
  numEmergencyHeadsAlloced : Z;
  numSurvivorSegments : Z;
  numSurvivorSegmentsAlloced : Z;
  segments : gmap nat LogSegment;
  states : gmap nat State;
  freeSlots : list nat;
  nextSegmentId : Z;
  idToSlotMap : gmap Z nat;
  allSegments : list nat;
  segmentsByState : State → list nat;
  logIteratorCount : Z
}.

(** *** Field updates *)

Definition set_allocator (f : Allocator → Allocator) (m : SegmentManager) :=
  mkSegmentManager (logId m) (f (allocator m)) (rpcPool m) (replicaManager m)
    (maxSegments m) (numEmergencyHeads m) (numEmergencyHeadsAlloced m)
    (numSurvivorSegments m) (numSurvivorSegmentsAlloced m) (segments m)
    (states m) (freeSlots m) (nextSegmentId m) (idToSlotMap m)
    (allSegments m) (segmentsByState m) (logIteratorCount m).

Definition set_rpcPool (f : ServerRpcPool → ServerRpcPool) (m : SegmentManager) :=
  mkSegmentManager (logId m) (allocator m) (f (rpcPool m)) (replicaManager m)
    (maxSegments m) (numEmergencyHeads m) (numEmergencyHeadsAlloced m)
    (numSurvivorSegments m) (numSurvivorSegmentsAlloced m) (segments m)
    (states m) (freeSlots m) (nextSegmentId m) (idToSlotMap m)
    (allSegments m) (segmentsByState m) (logIteratorCount m).

Definition set_replicaManager (f : list ReplicaOp → list ReplicaOp) (m : SegmentManager) :=
  mkSegmentManager (logId m) (allocator m) (rpcPool m) (f (replicaManager m))
    (maxSegments m) (numEmergencyHeads m) (numEmergencyHeadsAlloced m)
    (numSurvivorSegments m) (numSurvivorSegmentsAlloced m) (segments m)
    (states m) (freeSlots m) (nextSegmentId m) (idToSlotMap m)
    (allSegments m) (segmentsByState m) (logIteratorCount m).

Definition set_numEmergencyHeadsAlloced (f : Z → Z) (m : SegmentManager) :=
  mkSegmentManager (logId m) (allocator m) (rpcPool m) (replicaManager m)
    (maxSegments m) (numEmergencyHeads m) (f (numEmergencyHeadsAlloced m))
    (numSurvivorSegments m) (numSurvivorSegmentsAlloced m) (segments m)
    (states m) (freeSlots m) (nextSegmentId m) (idToSlotMap m)
    (allSegments m) (segmentsByState m) (logIteratorCount m).

Definition set_numSurvivorSegments (f : Z → Z) (m : SegmentManager) :=
  mkSegmentManager (logId m) (allocator m) (rpcPool m) (replicaManager m)
    (maxSegments m) (numEmergencyHeads m) (numEmergencyHeadsAlloced m)
    (f (numSurvivorSegments m)) (numSurvivorSegmentsAlloced m) (segments m)
    (states m) (freeSlots m) (nextSegmentId m) (idToSlotMap m)
    (allSegments m) (segmentsByState m) (logIteratorCount m).

Definition set_numSurvivorSegmentsAlloced (f : Z → Z) (m : SegmentManager) :=
  mkSegmentManager (logId m) (allocator m) (rpcPool m) (replicaManager m)
    (maxSegments m) (numEmergencyHeads m) (numEmergencyHeadsAlloced m)
    (numSurvivorSegments m) (f (numSurvivorSegmentsAlloced m)) (segments m)
    (states m) (freeSlots m) (nextSegmentId m) (idToSlotMap m)
    (allSegments m) (segmentsByState m) (logIteratorCount m).

Definition set_segments (f : gmap nat LogSegment → gmap nat LogSegment) (m : SegmentManager) :=
  mkSegmentManager (logId m) (allocator m) (rpcPool m) (replicaManager m)
    (maxSegments m) (numEmergencyHeads m) (numEmergencyHeadsAlloced m)
    (numSurvivorSegments m) (numSurvivorSegmentsAlloced m) (f (segments m))
    (states m) (freeSlots m) (nextSegmentId m) (idToSlotMap m)
    (allSegments m) (segmentsByState m) (logIteratorCount m).

Definition set_states (f : gmap nat State → gmap nat State) (m : SegmentManager) :=
  mkSegmentManager (logId m) (allocator m) (rpcPool m) (replicaManager m)
    (maxSegments m) (numEmergencyHeads m) (numEmergencyHeadsAlloced m)
    (numSurvivorSegments m) (numSurvivorSegmentsAlloced m) (segments m)
    (f (states m)) (freeSlots m) (nextSegmentId m) (idToSlotMap m)
    (allSegments m) (segmentsByState m) (logIteratorCount m).

Definition set_freeSlots (f : list nat → list nat) (m : SegmentManager) :=
  mkSegmentManager (logId m) (allocator m) (rpcPool m) (replicaManager m)
    (maxSegments m) (numEmergencyHeads m) (numEmergencyHeadsAlloced m)
    (numSurvivorSegments m) (numSurvivorSegmentsAlloced m) (segments m)
    (states m) (f (freeSlots m)) (nextSegmentId m) (idToSlotMap m)
    (allSegments m) (segmentsByState m) (logIteratorCount m).

Definition set_nextSegmentId (f : Z → Z) (m : SegmentManager) :=
  mkSegmentManager (logId m) (allocator m) (rpcPool m) (replicaManager m)
    (maxSegments m) (numEmergencyHeads m) (numEmergencyHeadsAlloced m)
    (numSurvivorSegments m) (numSurvivorSegmentsAlloced m) (segments m)
    (states m) (freeSlots m) (f (nextSegmentId m)) (idToSlotMap m)
    (allSegments m) (segmentsByState m) (logIteratorCount m).

Definition set_idToSlotMap (f : gmap Z nat → gmap Z nat) (m : SegmentManager) :=
  mkSegmentManager (logId m) (allocator m) (rpcPool m) (replicaManager m)
    (maxSegments m) (numEmergencyHeads m) (numEmergencyHeadsAlloced m)
    (numSurvivorSegments m) (numSurvivorSegmentsAlloced m) (segments m)
    (states m) (freeSlots m) (nextSegmentId m) (f (idToSlotMap m))
    (allSegments m) (segmentsByState m) (logIteratorCount m).

Definition set_allSegments (f : list nat → list nat) (m : SegmentManager) :=
  mkSegmentManager (logId m) (allocator m) (rpcPool m) (replicaManager m)
    (maxSegments m) (numEmergencyHeads m) (numEmergencyHeadsAlloced m)
    (numSurvivorSegments m) (numSurvivorSegmentsAlloced m) (segments m)
    (states m) (freeSlots m) (nextSegmentId m) (idToSlotMap m)
    (f (allSegments m)) (segmentsByState m) (logIteratorCount m).

Definition set_segmentsByState (f : (State → list nat) → State → list nat) (m : SegmentManager) :=
  mkSegmentManager (logId m) (allocator m) (rpcPool m) (replicaManager m)
    (maxSegments m) (numEmergencyHeads m) (numEmergencyHeadsAlloced m)
    (numSurvivorSegments m) (numSurvivorSegmentsAlloced m) (segments m)
    (states m) (freeSlots m) (nextSegmentId m) (idToSlotMap m)
    (allSegments m) (f (segmentsByState m)) (logIteratorCount m).

Definition set_logIteratorCount (f : Z → Z) (m : SegmentManager) :=
  mkSegmentManager (logId m) (allocator m) (rpcPool m) (replicaManager m)
    (maxSegments m) (numEmergencyHeads m) (numEmergencyHeadsAlloced m)
    (numSurvivorSegments m) (numSurvivorSegmentsAlloced m) (segments m)
    (states m) (freeSlots m) (nextSegmentId m) (idToSlotMap m)
    (allSegments m) (segmentsByState m) (f (logIteratorCount m)).

Definition set_cleanedEpoch (e : Z) (s : LogSegment) : LogSegment :=
  mkLogSegment (id s) (slot s) (isEmergencyHead s) e (segletsAllocated s)
    (entries s) (appendsDisabled s) (replicatedSegment s).

Definition set_entries (f : list LogEntry → list LogEntry) (s : LogSegment) : LogSegment :=
  mkLogSegment (id s) (slot s) (isEmergencyHead s) (cleanedEpoch s)
    (segletsAllocated s) (f (entries s)) (appendsDisabled s) (replicatedSegment s).

Definition set_appendsDisabled (b : bool) (s : LogSegment) : LogSegment :=
  mkLogSegment (id s) (slot s) (isEmergencyHead s) (cleanedEpoch s)
    (segletsAllocated s) (entries s) b (replicatedSegment s).

Definition set_replicatedSegment (r : option Z) (s : LogSegment) : LogSegment :=
  mkLogSegment (id s) (slot s) (isEmergencyHead s) (cleanedEpoch s)
    (segletsAllocated s) (entries s) (appendsDisabled s) r.

(** ** The monad of member functions

    A member function takes the manager and either returns a value with the
    manager it leaves behind, or ends the run. *)

Inductive Failure : Set :=
| AssertionFailed          (* a failing [assert] *)
| FatalError               (* [throw FatalError(...)] *)
| SegmentManagerException  (* [throw SegmentManagerException(...)] *)
| InvalidPointer           (* use of an empty Tub, of NULL or of a stale pointer *)
| Diverged.                (* a [while] loop that makes no progress *)

Inductive Result (A : Type) : Type :=
| Ok (a : A) (m : SegmentManager)
| Err (f : Failure).
Arguments Ok {A} a m.
Arguments Err {A} f.

Definition M (A : Type) : Type := SegmentManager → Result A.

#[global] Instance M_ret : MRet M := λ A a m, Ok a m.
#[global] Instance M_bind : MBind M := λ A B k c m,
  match c m with
  | Ok a m' => k a m'
  | Err f => Err f
  end.

Definition gets {A} (f : SegmentManager → A) : M A := λ m, Ok (f m) m.
Definition modify (f : SegmentManager → SegmentManager) : M unit := λ m, Ok tt (f m).
Definition fail {A} (f : Failure) : M A := λ _, Err f.
Definition assert (b : bool) : M unit := if b then mret tt else fail AssertionFailed.

(** [foreach (x, l) body] *)
Fixpoint foreach {A} (l : list A) (body : A → M unit) : M unit :=
  match l with
  | [] => mret tt
  | x :: l' => body x;; foreach l' body
  end.

(** [foreach] with a local variable threaded through the body. *)
Fixpoint foreachAcc {A B} (l : list A) (body : A → B → M B) (acc : B) : M B :=
  match l with
  | [] => mret acc
  | x :: l' => acc' ← body x acc; foreachAcc l' body acc'
  end.

(** [while (!segmentsByState[st].empty()) { s = front(); body }], with the
    number of iterations bounded by [fuel]. *)
Fixpoint whileFront {B} (fuel : nat) (st : State) (body : nat → B → M B) (acc : B) : M B :=
  λ m, match segmentsByState m st with
       | [] => Ok acc m
       | p :: _ =>
           match fuel with
           | O => Err Diverged
           | S fuel' => (acc' ← body p acc; whileFront fuel' st body acc') m
           end
       end.

(** [*p] for a segment pointer. *)
Definition deref (p : nat) : M LogSegment := λ m,
  match segments m !! p with
  | Some s => Ok s m
  | None => Err InvalidPointer
  end.

(** [*states[slot]] *)
Definition stateOf (sl : nat) : M State := λ m,
  match states m !! sl with
  | Some x => Ok x m
  | None => Err InvalidPointer
  end.

(** Element removal from an intrusive list ([erase(iterator_to(s))]). *)
Definition erase (p : nat) (l : list nat) : list nat := filter (λ q, q ≠ p) l.

(** ** Construction *)

(** [SegmentManager::SegmentManager].  The product of the free segment
    count and the expansion factor is taken exactly, on rationals, where the
    source multiplies in [double]: the two agree where the exact product is
    itself a [double], an integer below 2^53 for instance, and a manager the
    source builds is the one built here for some factor. *)
Definition SegmentManager_new (logId : Z) (allocator : Allocator)
    (rpcPool : ServerRpcPool) (diskExpansionFactor : Q) : Failure + SegmentManager :=
  let maxSegments := Qfloor (inject_Z (freeSegmentCount allocator) * diskExpansionFactor)%Q in
  let numEmergencyHeads := 2 in
  if Qle_bool 1 diskExpansionFactor then
    if freeSegmentCount allocator <? numEmergencyHeads then inl SegmentManagerException
    else if maxSegments <? freeSegmentCount allocator then inl AssertionFailed
    else inr (mkSegmentManager logId allocator rpcPool [] maxSegments
                numEmergencyHeads 0 0 0 ∅ ∅ (seq 0 (Z.to_nat maxSegments)) 0 ∅ []
                (λ _, []) 0)
  else inl SegmentManagerException.

(** ** Private member functions *)

Section SegmentManager.

(** Whether [Segment::append] finds room for an entry in a segment that
    still accepts appends (Segment.cc is not part of this unit). *)
Variable appendFits : LogSegment → LogEntry → bool.

(** [Segment::INVALID_SEGMENT_ID], declared in Segment.h. *)
Variable INVALID_SEGMENT_ID : Z.

(** [s->append(type, ...)]: refused once appends are disabled or when the
    entry does not fit. *)
Definition append (p : nat) (e : LogEntry) : M bool :=
  s ← deref p;
  if appendsDisabled s || negb (appendFits s e) then mret false
  else
    modify (set_segments (λ segs, <[p := set_entries (λ es, es ++ [e]) s]> segs));;
    mret true.

(** [SegmentManager::addToLists] *)
Definition addToLists (p : nat) : M unit :=
  s ← deref p;
  x ← stateOf (slot s);
  modify (set_allSegments (λ l, l ++ [p]));;
  modify (set_segmentsByState (λ f, <[x := f x ++ [p]]> f)).

(** [SegmentManager::removeFromLists] *)
Definition removeFromLists (p : nat) : M unit :=
  s ← deref p;
  x ← stateOf (slot s);
  modify (set_segmentsByState (λ f, <[x := erase p (f x)]> f));;
  modify (set_allSegments (erase p)).

(** [SegmentManager::changeState] *)
Definition changeState (p : nat) (newState : State) : M unit :=
  removeFromLists p;;
  s ← deref p;
  _ ← stateOf (slot s);
  modify (set_states (λ st, <[slot s := newState]> st));;
  addToLists p.

(** [SegmentManager::getHeadSegment] *)
Definition getHeadSegment : M (option nat) :=
  l ← gets (λ m, segmentsByState m HEAD);
  match l with
  | [] => mret None
  | p :: l' =>
      assert (bool_decide (length l = 1%nat));;
      mret (Some p)
  end.

(** [SegmentManager::mayAlloc] *)
Definition mayAlloc (type : AllocationType) : M bool :=
  m ← gets (λ m, m);
  assert (numEmergencyHeadsAlloced m <=? numEmergencyHeads m);;
  assert (numSurvivorSegmentsAlloced m <=? numSurvivorSegments m);;
  let emergencyHeadsReserved :=
    wrap32 (numEmergencyHeads m - numEmergencyHeadsAlloced m) in
  let survivorSegmentsReserved :=
    wrap32 (numSurvivorSegments m - numSurvivorSegmentsAlloced m) in
  let totalReserved := wrap64 (emergencyHeadsReserved + survivorSegmentsReserved) in
  assert (totalReserved <=? freeSegmentCount (allocator m));;
  match type with
  | ALLOC_EMERGENCY_HEAD =>
      assert (0 <? emergencyHeadsReserved);;
      assert (bool_decide (0 < length (freeSlots m))%nat);;
      assert (0 <? freeSegmentCount (allocator m));;
      mret true
  | ALLOC_SURVIVOR =>
      if survivorSegmentsReserved =? 0 then mret false
      else
        assert (bool_decide (0 < length (freeSlots m))%nat);;
        assert (0 <? freeSegmentCount (allocator m));;
        mret true
  | ALLOC_HEAD =>
      if freeSegmentCount (allocator m) <=? totalReserved then mret false
      else
        assert (bool_decide (0 < length (freeSlots m))%nat);;
        mret true
  end.

(** Modelled from the spec: destroying a segment hands its memory back to
    the allocator, constructing one takes a segment's worth of seglets
    (LogSegment's constructor and destructor are not part of this unit). *)
Definition releaseSegment (a : Allocator) : Allocator :=
  mkAllocator (wrap32 (freeSegmentCount a + 1)) (segmentSize a) (segletSize a).

Definition takeSegment (a : Allocator) : Allocator :=
  mkAllocator (wrap32 (freeSegmentCount a - 1)) (segmentSize a) (segletSize a).

(** Modelled from the spec: the object built by
    [segments[slot].construct(allocator, id, slot, isEmergencyHead)]. *)
Definition construct (a : Allocator) (i : Z) (sl : nat) (emergency : bool) : LogSegment :=
  mkLogSegment i sl emergency 0 (segmentSize a / segletSize a) [] false None.

(** [SegmentManager::free] *)
Definition free (p : nat) : M unit :=
  s ← deref p;
  let sl := slot s in
  s' ← deref sl;
  let i := id s' in
  let emergency := isEmergencyHead s in
  modify (set_freeSlots (λ l, l ++ [sl]));;
  modify (set_idToSlotMap (delete i));;
  removeFromLists p;;
  modify (set_states (delete sl));;
  modify (set_segments (delete sl));;
  modify (set_allocator releaseSegment);;
  n ← gets numSurvivorSegmentsAlloced;
  if emergency then
    modify (set_numEmergencyHeadsAlloced (λ k, wrap32 (k - 1)))
  else if 0 <? n then
    modify (set_numSurvivorSegmentsAlloced (λ k, wrap32 (k - 1)))
  else mret tt.

(** [SegmentManager::freeUnreferencedSegments].  The iterator is advanced
    before the current element is freed, so the loop visits the elements
    the list had on entry. *)
Definition freeUnreferencedSegments : M unit :=
  freeablePending ← gets (λ m, segmentsByState m FREEABLE_PENDING_REFERENCES);
  match freeablePending with
  | [] => mret tt
  | _ =>
      earliestEpoch ← gets (λ m, earliestOutstandingEpoch (rpcPool m));
      foreach freeablePending (λ p,
        s ← deref p;
        if cleanedEpoch s <? earliestEpoch then free p else mret tt)
  end.

(** The part of [alloc] that follows admission: the new segment takes the
    next id and the slot at the back of [freeSlots]. *)
Definition newSegment (type : AllocationType) : M (option nat) :=
  i ← gets nextSegmentId;
  modify (set_nextSegmentId (λ n, wrap64 (n + 1)));;
  slots ← gets freeSlots;
  match list.last slots with
  | None => fail InvalidPointer
  | Some sl =>
      modify (set_freeSlots (λ l, take (length l - 1)%nat l));;
      occupied ← gets (λ m, segments m !! sl);
      assert (bool_decide (occupied = None));;
      let state := if decide (type = ALLOC_SURVIVOR) then CLEANING_INTO else HEAD in
      a ← gets allocator;
      modify (set_segments
                (λ segs, <[sl := construct a i sl
                                   (bool_decide (type = ALLOC_EMERGENCY_HEAD))]> segs));;
      modify (set_allocator takeSegment);;
      modify (set_states (λ st, <[sl := state]> st));;
      modify (set_idToSlotMap (λ ix, <[i := sl]> ix));;
      addToLists sl;;
      match type with
      | ALLOC_SURVIVOR =>
          modify (set_numSurvivorSegmentsAlloced (λ k, wrap32 (k + 1)))
      | ALLOC_EMERGENCY_HEAD =>
          modify (set_numEmergencyHeadsAlloced (λ k, wrap32 (k + 1)))
      | ALLOC_HEAD => mret tt
      end;;
      mret (Some sl)
  end.

(** [SegmentManager::alloc] *)
Definition alloc (type : AllocationType) : M (option nat) :=
  freeUnreferencedSegments;;
  ok ← mayAlloc type;
  if negb ok then mret None else newSegment type.

(** [SegmentManager::writeHeader] *)
Definition writeHeader (p : nat) (headSegmentIdDuringCleaning : Z) : M unit :=
  s ← deref p;
  m ← gets (λ m, m);
  let header := LOG_ENTRY_TYPE_SEGHEADER (logId m) (id s)
                  (segmentSize (allocator m)) headSegmentIdDuringCleaning in
  success ← append p header;
  if negb success then fail FatalError else mret tt.

(** [foreach (LogSegment& s, l) digest.addSegmentId(s.id)]; a [LogDigest]
    is the list of ids added to it, in order of addition. *)
Definition addSegmentIds (l : list nat) (digest : list Z) : M (list Z) :=
  foreachAcc l (λ p d, s ← deref p; mret (d ++ [id s])) digest.

(** The drains [while (!list.empty()) changeState(list.front(), to)]. *)
Definition drain (from to : State) : M unit :=
  n ← gets (λ m, length (segmentsByState m from));
  whileFront n from (λ p _, changeState p to) tt.

(** [SegmentManager::writeDigest] *)
Definition writeDigest (newHead : nat) (prevHead : option nat) : M unit :=
  count ← gets logIteratorCount;
  (if count =? 0 then drain CLEANABLE_PENDING_DIGEST NEWLY_CLEANABLE else mret tt);;
  cleanable ← gets (λ m, segmentsByState m CLEANABLE);
  digest ← addSegmentIds cleanable [];
  newlyCleanable ← gets (λ m, segmentsByState m NEWLY_CLEANABLE);
  digest ← addSegmentIds newlyCleanable digest;
  digest ← match prevHead with
           | Some q => s ← deref q; mret (digest ++ [id s])
           | None => mret digest
           end;
  nh ← deref newHead;
  let digest := digest ++ [id nh] in
  digest ← (if count =? 0 then
              drain FREEABLE_PENDING_DIGEST_AND_REFERENCES FREEABLE_PENDING_REFERENCES;;
              mret digest
            else
              l ← gets (λ m, segmentsByState m FREEABLE_PENDING_DIGEST_AND_REFERENCES);
              addSegmentIds l digest);
  success ← append newHead (LOG_ENTRY_TYPE_LOGDIGEST digest);
  if negb success then fail FatalError else mret tt.

(** ** Public member functions *)

(** [allocHead]: the new head gets its replicated segment, chained to the
    one of the previous head; [replicaManager.allocateHead] returns once the
    initial data is on the backups. *)
Definition openReplica (prevHead : option nat) (newHead : nat) : M unit :=
  prevReplicatedSegment ← match prevHead with
                          | Some q => s ← deref q; mret (replicatedSegment s)
                          | None => mret None
                          end;
  nh ← deref newHead;
  modify (set_replicaManager (λ t, t ++ [AllocateHead (id nh) prevReplicatedSegment]));;
  modify (set_segments (λ segs, <[newHead := set_replicatedSegment (Some (id nh)) nh]> segs)).

(** [allocHead]: the previous head is closed and synced, then freed if it
    is an emergency head and made NEWLY_CLEANABLE otherwise. *)
Definition retireHead (prevHead : option nat) : M unit :=
  match prevHead with
  | Some q =>
      s ← deref q;
      match replicatedSegment s with
      | None => fail InvalidPointer
      | Some r =>
          modify (set_replicaManager (λ t, t ++ [Close r]));;
          modify (set_replicaManager (λ t, t ++ [Sync r (length (entries s))]));;
          if isEmergencyHead s then free q else changeState q NEWLY_CLEANABLE
      end
  | None => mret tt
  end.

(** The part of [allocHead] that follows the choice of the new head. *)
Definition installHead (prevHead : option nat) (newHead : nat) : M (option nat) :=
  writeHeader newHead INVALID_SEGMENT_ID;;
  prevIsEmergency ← match prevHead with
                    | Some q => s ← deref q; mret (isEmergencyHead s)
                    | None => mret false
                    end;
  (match prevHead with
   | Some q => if negb prevIsEmergency then writeDigest newHead (Some q)
               else writeDigest newHead None
   | None => writeDigest newHead None
   end);;
  nh ← deref newHead;
  (if isEmergencyHead nh then
     modify (set_segments (λ segs, <[newHead := set_appendsDisabled true nh]> segs))
   else mret tt);;
  openReplica prevHead newHead;;
  retireHead prevHead;;
  mret (Some newHead).

(** [SegmentManager::allocHead] *)
Definition allocHead (mustNotFail : bool) : M (option nat) :=
  prevHead ← getHeadSegment;
  newHead ← alloc ALLOC_HEAD;
  match newHead with
  | Some p => installHead prevHead p
  | None =>
      n ← gets (λ m, length (segmentsByState m FREEABLE_PENDING_DIGEST_AND_REFERENCES));
      if mustNotFail || bool_decide (0 < n)%nat then
        newHead ← alloc ALLOC_EMERGENCY_HEAD;
        match newHead with
        | Some p => installHead prevHead p
        | None => fail InvalidPointer
        end
      else mret None
  end.

(** [SegmentManager::allocSurvivor] *)
Definition allocSurvivor (headSegmentIdDuringCleaning : Z) : M (option nat) :=
  r ← alloc ALLOC_SURVIVOR;
  match r with
  | None => mret None
  | Some p =>
      writeHeader p headSegmentIdDuringCleaning;;
      s ← deref p;
      modify (set_replicaManager (λ t, t ++ [AllocateNonHead (id s)]));;
      modify (set_segments (λ segs, <[p := set_replicatedSegment (Some (id s)) s]> segs));;
      mret (Some p)
  end.

(** Modelled from the spec: [ServerRpcPool<>::incrementCurrentEpoch()]
    bumps the process-wide epoch and returns the value after the bump. *)
Definition incrementCurrentEpoch : M Z :=
  modify (set_rpcPool (λ r, mkServerRpcPool (wrap64 (currentEpoch r + 1))
                                            (earliestOutstandingEpoch r)));;
  gets (λ m, currentEpoch (rpcPool m)).

(** [SegmentManager::cleaningComplete] *)
Definition cleaningComplete (clean : list nat) : M unit :=
  n ← gets (λ m, length (segmentsByState m CLEANING_INTO));
  segletsUsed ← whileFront n CLEANING_INTO
                  (λ p used,
                     s ← deref p;
                     changeState p CLEANABLE_PENDING_DIGEST;;
                     mret (wrap32 (used + segletsAllocated s))) 0;
  e ← incrementCurrentEpoch;
  let epoch := wrap64 (e - 1) in
  segletsFreed ← foreachAcc clean
                   (λ p freed,
                      s ← deref p;
                      modify (set_segments (λ segs, <[p := set_cleanedEpoch epoch s]> segs));;
                      changeState p FREEABLE_PENDING_DIGEST_AND_REFERENCES;;
                      mret (wrap32 (freed + segletsAllocated s))) 0;
  assert (segletsUsed <=? segletsFreed).

(** [SegmentManager::cleanableSegments] *)
Definition cleanableSegments (out : list nat) : M (list nat) :=
  n ← gets (λ m, length (segmentsByState m NEWLY_CLEANABLE));
  whileFront n NEWLY_CLEANABLE
    (λ p out, changeState p CLEANABLE;; mret (out ++ [p])) out.

(** [SegmentManager::logIteratorCreated], on the [int logIteratorCount]. *)
Definition logIteratorCreated : M unit :=
  modify (set_logIteratorCount (λ c, wrapInt (c + 1))).

(** [SegmentManager::logIteratorDestroyed] *)
Definition logIteratorDestroyed : M unit :=
  modify (set_logIteratorCount (λ c, wrapInt (c - 1))).

(** [SegmentManager::getActiveSegments] *)
Definition getActiveSegments (minSegmentId : Z) (outList : list nat) : M (list nat) :=
  count ← gets logIteratorCount;
  if count =? 0 then fail SegmentManagerException
  else
    let collect (st : State) (out : list nat) : M (list nat) :=
      l ← gets (λ m, segmentsByState m st);
      foreachAcc l (λ p out, s ← deref p;
                             mret (if minSegmentId <=? id s then out ++ [p] else out)) out in
    out ← collect NEWLY_CLEANABLE outList;
    out ← collect CLEANABLE out;
    out ← collect FREEABLE_PENDING_DIGEST_AND_REFERENCES out;
    h ← getHeadSegment;
    match h with
    | None => mret out
    | Some p =>
        s ← deref p;
        mret (if minSegmentId <=? id s then out ++ [p] else out)
    end.

(** [SegmentManager::increaseSurvivorReserve] *)
Definition increaseSurvivorReserve (numSegments : Z) : M bool :=
  m ← gets (λ m, m);
  if numSegments <? numSurvivorSegments m then mret false
  else if wrap32 (freeSegmentCount (allocator m) - numEmergencyHeads m) <? numSegments
  then mret false
  else
    modify (set_numSurvivorSegments (λ _, numSegments));;
    mret true.

End SegmentManager.

(** ** Well-formed managers

    The intrusive list a segment is linked on is the one [states] names,
    every occupied slot is linked exactly once, and the [slot] field of a
    segment is the index it is stored at. *)

Record WF (m : SegmentManager) : Prop := mkWF {
  wf_lists : ∀ x p, p ∈ segmentsByState m x ↔ states m !! p = Some x;
  wf_nodup : ∀ x, NoDup (segmentsByState m x);
  wf_occupied : ∀ p, is_Some (segments m !! p) ↔ is_Some (states m !! p);
  wf_slot : ∀ p s, segments m !! p = Some s → slot s = p;
  wf_all : ∀ p, p ∈ allSegments m ↔ is_Some (segments m !! p);
  wf_all_nodup : NoDup (allSegments m)
}.

(** Live segments carry distinct ids, all below the next id to be issued. *)
Record UniqueIds (m : SegmentManager) : Prop := mkUniqueIds {
  ids_next : uint64 (nextSegmentId m);
  ids_below : ∀ p s, segments m !! p = Some s → 0 ≤ id s < nextSegmentId m;
  ids_inj : ∀ p q s t, segments m !! p = Some s → segments m !! q = Some t →
                       id s = id t → p = q
}.

(** The members that [changeState] never touches. *)
Definition others (m : SegmentManager) :=
  (logId m, allocator m, rpcPool m, replicaManager m, maxSegments m,
   numEmergencyHeads m, numEmergencyHeadsAlloced m, numSurvivorSegments m,
   numSurvivorSegmentsAlloced m, freeSlots m, nextSegmentId m, idToSlotMap m,
   logIteratorCount m).

(** The members that no private member function touches. *)
Definition fixed (m : SegmentManager) :=
  (logId m, rpcPool m, replicaManager m, maxSegments m, numEmergencyHeads m,
   numSurvivorSegments m, logIteratorCount m).

(** [m'] is [m] after segment [p] moved to the back of the list of [y]. *)
Record Relinked (p : nat) (y : State) (m m' : SegmentManager) : Prop := mkRelinked {
  rl_others : others m' = others m;
  rl_segments : segments m' = segments m;
  rl_states : states m' = <[p := y]> (states m);
  rl_all : allSegments m' = erase p (allSegments m) ++ [p];
  rl_lists : ∀ z, segmentsByState m' z =
                  erase p (segmentsByState m z) ++ (if decide (z = y) then [p] else [])
}.

(** [m'] is [m] after the segment [s] stored at [p] was freed. *)
Record Freed (p : nat) (s : LogSegment) (m m' : SegmentManager) : Prop := mkFreed {
  fr_fixed : fixed m' = fixed m;
  fr_next : nextSegmentId m' = nextSegmentId m;
  fr_segments : segments m' = delete p (segments m);
  fr_states : states m' = delete p (states m);
  fr_all : allSegments m' = erase p (allSegments m);
  fr_lists : ∀ z, segmentsByState m' z = erase p (segmentsByState m z);
  fr_freeSlots : freeSlots m' = freeSlots m ++ [p];
  fr_index : idToSlotMap m' = delete (id s) (idToSlotMap m);
  fr_allocator : allocator m' = releaseSegment (allocator m);
  fr_emergency :
    numEmergencyHeadsAlloced m' =
      if isEmergencyHead s then wrap32 (numEmergencyHeadsAlloced m - 1)
      else numEmergencyHeadsAlloced m;
  fr_survivor :
    numSurvivorSegmentsAlloced m' =
      if isEmergencyHead s then numSurvivorSegmentsAlloced m
      else if 0 <? numSurvivorSegmentsAlloced m
           then wrap32 (numSurvivorSegmentsAlloced m - 1)
           else numSurvivorSegmentsAlloced m
}.

(** Whether the segment a pointer designates was cleaned before epoch [e]. *)
Definition cleanedBefore (e : Z) (segs : gmap nat LogSegment) (p : nat) : bool :=
  match segs !! p with
  | Some s => cleanedEpoch s <? e
  | None => false
  end.

(** The segments the scan frees, in the order it frees them. *)
Definition reclaimed (m : SegmentManager) : list nat :=
  filter (λ p, cleanedBefore (earliestOutstandingEpoch (rpcPool m)) (segments m) p)
    (segmentsByState m FREEABLE_PENDING_REFERENCES).

(** [m'] is [m] after the segments of [l] were freed one after the other. *)
Fixpoint FreedAll (l : list nat) (m m' : SegmentManager) : Prop :=
  match l with
  | [] => m' = m
  | p :: l' => ∃ s m1, segments m !! p = Some s ∧ Freed p s m m1 ∧ FreedAll l' m1 m'
  end.

(** The id-to-slot index after the ids of the segments of [l] were erased. *)
Definition erasedIds (segs : gmap nat LogSegment) (l : list nat) (ix : gmap Z nat) : gmap Z nat :=
  foldl (λ ix p, match segs !! p with Some s => delete (id s) ix | None => ix end) ix l.

(** [m'] is [m] after the segments of [l] moved, one after the other, to
    the back of the list of [y]. *)
Fixpoint RelinkedAll (l : list nat) (y : State) (m m' : SegmentManager) : Prop :=
  match l with
  | [] => m' = m
  | p :: l' => ∃ m1, Relinked p y m m1 ∧ RelinkedAll l' y m1 m'
  end.

(** The value a loop leaves in its local variable: [g] folded over the
    segments visited. *)
Definition accumulate {B} (g : nat → LogSegment → B → B)
    (segs : gmap nat LogSegment) (l : list nat) (acc : B) : B :=
  foldl (λ a p, match segs !! p with Some s => g p s a | None => a end) acc l.

(** What a drain of the list of [from] into the list of [to] leaves. *)
Record Drained (from to : State) (m m' : SegmentManager) : Prop := mkDrained {
  dr_WF : WF m';
  dr_others : others m' = others m;
  dr_segments : segments m' = segments m;
  dr_states : ∀ q, states m' !! q =
                   if decide (q ∈ segmentsByState m from) then Some to else states m !! q;
  dr_lists : ∀ z, segmentsByState m' z =
                  if decide (z = from) then []
                  else if decide (z = to)
                       then segmentsByState m to ++ segmentsByState m from
                       else segmentsByState m z;
  dr_all : ∀ q, q ∈ allSegments m' ↔ q ∈ allSegments m
}.

(** The state a segment is born in. *)
Definition birthState (type : AllocationType) : State :=
  if decide (type = ALLOC_SURVIVOR) then CLEANING_INTO else HEAD.

(** [m'] is [m] after a segment of the given type was constructed in slot
    [p]. *)
Record Allocated (type : AllocationType) (p : nat) (m m' : SegmentManager) : Prop :=
  mkAllocated {
  al_fixed : fixed m' = fixed m;
  al_fresh : segments m !! p = None;
  al_back : list.last (freeSlots m) = Some p;
  al_next : nextSegmentId m' = wrap64 (nextSegmentId m + 1);
  al_segments :
    segments m' = <[p := construct (allocator m) (nextSegmentId m) p
                           (bool_decide (type = ALLOC_EMERGENCY_HEAD))]> (segments m);
  al_states : states m' = <[p := birthState type]> (states m);
  al_all : allSegments m' = allSegments m ++ [p];
  al_lists : ∀ z, segmentsByState m' z =
                  segmentsByState m z ++ (if decide (z = birthState type) then [p] else []);
  al_freeSlots : freeSlots m' = take (length (freeSlots m) - 1) (freeSlots m);
  al_index : idToSlotMap m' = <[nextSegmentId m := p]> (idToSlotMap m);
  al_allocator : allocator m' = takeSegment (allocator m);
  al_emergency :
    numEmergencyHeadsAlloced m' =
      if decide (type = ALLOC_EMERGENCY_HEAD) then wrap32 (numEmergencyHeadsAlloced m + 1)
      else numEmergencyHeadsAlloced m;
  al_survivor :
    numSurvivorSegmentsAlloced m' =
      if decide (type = ALLOC_SURVIVOR) then wrap32 (numSurvivorSegmentsAlloced m + 1)
      else numSurvivorSegmentsAlloced m
}.

(** The counters and the free segment count are values of their C++ type. *)
Record Ranges (m : SegmentManager) : Prop := mkRanges {
  rg_emergency : uint32 (numEmergencyHeads m);
  rg_emergencyAlloced : uint32 (numEmergencyHeadsAlloced m);
  rg_survivor : uint32 (numSurvivorSegments m);
  rg_survivorAlloced : uint32 (numSurvivorSegmentsAlloced m);
  rg_free : uint32 (freeSegmentCount (allocator m))
}.

(** The admission rule in the words of the design document: each reserve
    counts its cap minus its outstanding draws. *)
Definition emergencyReserved (m : SegmentManager) : Z :=
  numEmergencyHeads m - numEmergencyHeadsAlloced m.

Definition survivorReserved (m : SegmentManager) : Z :=
  numSurvivorSegments m - numSurvivorSegmentsAlloced m.

Definition permitted (m : SegmentManager) (type : AllocationType) : bool :=
  match type with
  | ALLOC_EMERGENCY_HEAD => true
  | ALLOC_SURVIVOR => numSurvivorSegmentsAlloced m <? numSurvivorSegments m
  | ALLOC_HEAD =>
      emergencyReserved m + survivorReserved m <? freeSegmentCount (allocator m)
  end.

(** The invariants [mayAlloc] asserts on entry. *)
Definition reservesHold (m : SegmentManager) : Prop :=
  numEmergencyHeadsAlloced m ≤ numEmergencyHeads m ∧
  numSurvivorSegmentsAlloced m ≤ numSurvivorSegments m ∧
  emergencyReserved m + survivorReserved m ≤ freeSegmentCount (allocator m).

(** ** Managers used in the examples *)

(** An [appendFits] that always finds room, and the all-ones id. *)
Definition roomy : LogSegment → LogEntry → bool := λ _ _, true.
Definition allOnes : Z := 2 ^ 64 - 1.

(** The manager built over an allocator of [n] free 8 MB segments of 64 KB
    seglets, with expansion factor 1 and the epoch oracle at [e]. *)
Definition fresh (n e : Z) : SegmentManager :=
  mkSegmentManager 1 (mkAllocator n 8388608 65536) (mkServerRpcPool e e) [] n
    2 0 0 0 ∅ ∅ (seq 0 (Z.to_nat n)) 0 ∅ [] (λ _, []) 0.

(** The manager a run leaves, or the manager it started from when the run
    ends in a failure. *)
Definition after {A} (c : M A) (m : SegmentManager) : SegmentManager :=
  match c m with
  | Ok _ m' => m'
  | Err _ => m
  end.

(** Two free segments, then [allocHead(true)]: the head is an emergency
    head and one segment is left in the allocator. *)
Definition lowMemory : SegmentManager :=
  after (allocHead roomy allOnes true) (fresh 2 0).

(** ** Appends and the digest *)

(** Whether [Segment::append] turns the entry down. *)
Definition refused (appendFits : LogSegment → LogEntry → bool)
    (s : LogSegment) (e : LogEntry) : bool :=
  appendsDisabled s || negb (appendFits s e).

(** The manager after entry [e] went into the segment [s] stored at [p]. *)
Definition appended (p : nat) (s : LogSegment) (e : LogEntry) (m : SegmentManager) :=
  set_segments (λ segs, <[p := set_entries (λ es, es ++ [e]) s]> segs) m.

(** The ids of the segments a list of pointers designates. *)
Definition idsOf (segs : gmap nat LogSegment) (l : list nat) : list Z :=
  omap (λ p, id <$> segs !! p) l.

(** The digest the inclusion rule prescribes for manager [m], new head [p]
    and the previous head [prev] handed to [writeDigest]. *)
Definition digestOf (m : SegmentManager) (p : nat) (prev : option nat) : list Z :=
  idsOf (segments m) (segmentsByState m CLEANABLE)
  ++ idsOf (segments m)
       (segmentsByState m NEWLY_CLEANABLE
        ++ (if logIteratorCount m =? 0
            then segmentsByState m CLEANABLE_PENDING_DIGEST else []))
  ++ idsOf (segments m) (option_list prev)
  ++ idsOf (segments m) [p]
  ++ (if logIteratorCount m =? 0 then []
      else idsOf (segments m) (segmentsByState m FREEABLE_PENDING_DIGEST_AND_REFERENCES)).

(** The state transitions of a digest write: none while a log iterator
    exists, otherwise the two drains. *)
Definition DigestMoves (m m' : SegmentManager) : Prop :=
  if logIteratorCount m =? 0 then
    ∃ m1, Drained CLEANABLE_PENDING_DIGEST NEWLY_CLEANABLE m m1 ∧
          Drained FREEABLE_PENDING_DIGEST_AND_REFERENCES FREEABLE_PENDING_REFERENCES m1 m'
  else m' = m.

(** ** Head installation *)

(** The header [writeHeader] builds for segment [s]. *)
Definition headerOf (m : SegmentManager) (s : LogSegment) (h : Z) : LogEntry :=
  LOG_ENTRY_TYPE_SEGHEADER (logId m) (id s) (segmentSize (allocator m)) h.

(** The previous head as [allocHead] hands it to [writeDigest]: dropped
    when it is an emergency head. *)
Definition prevInDigest (segs : gmap nat LogSegment) (prev : option nat) : option nat :=
  match prev with
  | Some q =>
      match segs !! q with
      | Some s => if isEmergencyHead s then None else Some q
      | None => None
      end
  | None => None
  end.

(** The digest [allocHead] writes into the new head [p]. *)
Definition headDigest (m : SegmentManager) (p : nat) (prev : option nat) : list Z :=
  digestOf m p (prevInDigest (segments m) prev).

(** The new head [s] once [allocHead] is through with it. *)
Definition installedSegment (s : LogSegment) (header digest : LogEntry) : LogSegment :=
  mkLogSegment (id s) (slot s) (isEmergencyHead s) (cleanedEpoch s) (segletsAllocated s)
    (entries s ++ [header; digest]) (appendsDisabled s || isEmergencyHead s)
    (Some (id s)).

(** The replicated segment of the previous head, when there is one. *)
Definition prevReplica (segs : gmap nat LogSegment) (prev : option nat) : option Z :=
  match prev with
  | Some q => match segs !! q with Some s => replicatedSegment s | None => None end
  | None => None
  end.

(** The calls [allocHead] makes on the replication layer. *)
Definition headReplication (segs : gmap nat LogSegment) (newId : Z) (prev : option nat)
  : list ReplicaOp :=
  AllocateHead newId (prevReplica segs prev)
  :: match prev with
     | Some q =>
         match segs !! q with
         | Some s =>
             match replicatedSegment s with
             | Some r => [Close r; Sync r (length (entries s))]
             | None => []
             end
         | None => []
         end
     | None => []
     end.

(** Every member but [segments] and [replicaManager]. *)
Definition besidesSegments (m : SegmentManager) :=
  (logId m, allocator m, rpcPool m, maxSegments m, numEmergencyHeads m,
   numEmergencyHeadsAlloced m, numSurvivorSegments m, numSurvivorSegmentsAlloced m,
   states m, freeSlots m, nextSegmentId m, idToSlotMap m, allSegments m,
   segmentsByState m, logIteratorCount m).

(** [m'] is [m] with the segment at [p] replaced by [s] and the calls
    [ops] made on the replication layer. *)
Record Staged (p : nat) (s : LogSegment) (ops : list ReplicaOp)
    (m m' : SegmentManager) : Prop := mkStaged {
  sg_rest : besidesSegments m' = besidesSegments m;
  sg_segments : segments m' = <[p := s]> (segments m);
  sg_replica : replicaManager m' = replicaManager m ++ ops
}.

(** What becomes of the previous head: freed when it is an emergency head,
    moved to NEWLY_CLEANABLE otherwise. *)
Definition Retired (prev : option nat) (m m' : SegmentManager) : Prop :=
  match prev with
  | None => m' = m
  | Some q =>
      ∃ s, segments m !! q = Some s ∧
           if isEmergencyHead s then Freed q s m m'
           else Relinked q NEWLY_CLEANABLE m m'
  end.

(** The per-state lists a successful [allocHead] leaves, new head in slot
    [p]: the previous head joins NEWLY_CLEANABLE unless it is an emergency
    head, and the digest-time transitions happen when no log iterator
    exists. *)
Definition listsAfterAllocHead (m : SegmentManager) (p : nat) (z : State) : list nat :=
  let quiet := logIteratorCount m =? 0 in
  match z with
  | HEAD => [p]
  | CLEANING_INTO => segmentsByState m CLEANING_INTO
  | CLEANABLE_PENDING_DIGEST =>
      if quiet then [] else segmentsByState m CLEANABLE_PENDING_DIGEST
  | NEWLY_CLEANABLE =>
      segmentsByState m NEWLY_CLEANABLE
      ++ (if quiet then segmentsByState m CLEANABLE_PENDING_DIGEST else [])
      ++ option_list (prevInDigest (segments m) (head (segmentsByState m HEAD)))
  | CLEANABLE => segmentsByState m CLEANABLE
  | FREEABLE_PENDING_DIGEST_AND_REFERENCES =>
      if quiet then [] else segmentsByState m FREEABLE_PENDING_DIGEST_AND_REFERENCES
  | FREEABLE_PENDING_REFERENCES =>
      filter (λ q, q ∉ reclaimed m) (segmentsByState m FREEABLE_PENDING_REFERENCES)
      ++ (if quiet then segmentsByState m FREEABLE_PENDING_DIGEST_AND_REFERENCES else [])
  end.

(** The digest a successful [allocHead] writes, in terms of the manager it
    was called on: CLEANABLE, NEWLY_CLEANABLE (with the segments the digest
    write moves there), the previous head unless it is an emergency head,
    the new head, and with a log iterator the segments pending a digest. *)
Definition expectedDigest (m : SegmentManager) : list Z :=
  idsOf (segments m) (segmentsByState m CLEANABLE)
  ++ idsOf (segments m)
       (segmentsByState m NEWLY_CLEANABLE
        ++ (if logIteratorCount m =? 0
            then segmentsByState m CLEANABLE_PENDING_DIGEST else []))
  ++ idsOf (segments m)
       (option_list (prevInDigest (segments m) (head (segmentsByState m HEAD))))
  ++ [nextSegmentId m]
  ++ (if logIteratorCount m =? 0 then []
      else idsOf (segments m) (segmentsByState m FREEABLE_PENDING_DIGEST_AND_REFERENCES)).

(** The per-state lists after the reclamation scan and the digest-time
    transitions of a head allocation. *)
Definition listsAfterDigest (m : SegmentManager) (z : State) : list nat :=
  let quiet := logIteratorCount m =? 0 in
  match z with
  | CLEANABLE_PENDING_DIGEST =>
      if quiet then [] else segmentsByState m CLEANABLE_PENDING_DIGEST
  | NEWLY_CLEANABLE =>
      segmentsByState m NEWLY_CLEANABLE
      ++ (if quiet then segmentsByState m CLEANABLE_PENDING_DIGEST else [])
  | FREEABLE_PENDING_DIGEST_AND_REFERENCES =>
      if quiet then [] else segmentsByState m FREEABLE_PENDING_DIGEST_AND_REFERENCES
  | FREEABLE_PENDING_REFERENCES =>
      filter (λ q, q ∉ reclaimed m) (segmentsByState m FREEABLE_PENDING_REFERENCES)
      ++ (if quiet then segmentsByState m FREEABLE_PENDING_DIGEST_AND_REFERENCES else [])
  | _ => segmentsByState m z
  end.

(** ** Cleaning *)

(** The seglet totals [cleaningComplete] keeps in its [uint32_t] locals. *)
Definition addSeglets (p : nat) (s : LogSegment) (total : Z) : Z :=
  wrap32 (total + segletsAllocated s).

Definition seglets32 (segs : gmap nat LogSegment) (l : list nat) : Z :=
  accumulate addSeglets segs l 0.

(** The seglets of the segments of [l], as a mathematical sum. *)
Definition segletsTotal (segs : gmap nat LogSegment) (l : list nat) : Z :=
  foldr (λ p total, match segs !! p with
                    | Some s => segletsAllocated s + total
                    | None => total
                    end) 0 l.

(** [m'] is [m] after the segments of [clean] were stamped with [epoch] and
    moved, one after the other, to FREEABLE_PENDING_DIGEST_AND_REFERENCES. *)
Fixpoint CleanedAll (epoch : Z) (clean : list nat) (m m' : SegmentManager) : Prop :=
  match clean with
  | [] => m' = m
  | p :: l =>
      ∃ s m1, segments m !! p = Some s ∧
              Relinked p FREEABLE_PENDING_DIGEST_AND_REFERENCES
                (set_segments (λ segs, <[p := set_cleanedEpoch epoch s]> segs) m) m1 ∧
              CleanedAll epoch l m1 m'
  end.

(** The oracle after [incrementCurrentEpoch()]. *)
Definition bumpEpoch (r : ServerRpcPool) : ServerRpcPool :=
  mkServerRpcPool (wrap64 (currentEpoch r + 1)) (earliestOutstandingEpoch r).

(** ** Observable states *)

(** One step of the system the manager lives in: a public member function
    that returns, an RPC thread moving the epoch oracle, or the log or the
    cleaner appending to a segment. *)
Inductive step (appendFits : LogSegment → LogEntry → bool) (INVALID_SEGMENT_ID : Z)
  : SegmentManager → SegmentManager → Prop :=
| step_allocHead mustNotFail r m m' :
    allocHead appendFits INVALID_SEGMENT_ID mustNotFail m = Ok r m' →
    step appendFits INVALID_SEGMENT_ID m m'
| step_allocSurvivor h r m m' :
    allocSurvivor appendFits h m = Ok r m' →
    step appendFits INVALID_SEGMENT_ID m m'
| step_cleaningComplete clean m m' :
    cleaningComplete clean m = Ok tt m' →
    step appendFits INVALID_SEGMENT_ID m m'
| step_cleanableSegments out out' m m' :
    cleanableSegments out m = Ok out' m' →
    step appendFits INVALID_SEGMENT_ID m m'
| step_logIteratorCreated m m' :
    logIteratorCreated m = Ok tt m' →
    step appendFits INVALID_SEGMENT_ID m m'
| step_logIteratorDestroyed m m' :
    logIteratorDestroyed m = Ok tt m' →
    step appendFits INVALID_SEGMENT_ID m m'
| step_getActiveSegments minSegmentId out out' m m' :
    getActiveSegments minSegmentId out m = Ok out' m' →
    step appendFits INVALID_SEGMENT_ID m m'
| step_increaseSurvivorReserve n r m m' :
    increaseSurvivorReserve n m = Ok r m' →
    step appendFits INVALID_SEGMENT_ID m m'
| step_oracle pool m :
    step appendFits INVALID_SEGMENT_ID m (set_rpcPool (λ _, pool) m)
| step_append p s e m :
    segments m !! p = Some s →
    step appendFits INVALID_SEGMENT_ID m (appended p s e m).

(** The states the manager can be observed in: those a run of steps leads
    to from a freshly constructed manager.  Every call of such a run has
    returned; what a call that throws leaves behind is not among them (see
    [allocHead_unwound]). *)
Definition observable (appendFits : LogSegment → LogEntry → bool) (INVALID_SEGMENT_ID : Z)
    (m : SegmentManager) : Prop :=
  ∃ logId allocator rpcPool diskExpansionFactor m0,
    SegmentManager_new logId allocator rpcPool diskExpansionFactor = inr m0 ∧
    rtc (step appendFits INVALID_SEGMENT_ID) m0 m.

(** Whether a run returns. *)
Definition returns {A} (c : M A) (m : SegmentManager) : bool :=
  match c m with
  | Ok _ _ => true
  | Err _ => false
  end.

(** A cleaning pass on eight segments of which five are reserved for the
    cleaner: a head H0, an emergency head E1 that replaces it, a survivor S,
    H0 cleaned into S, and a second emergency head E2 whose digest takes H0
    out of the log. *)
Definition reserved : SegmentManager := after (increaseSurvivorReserve 5) (fresh 8 0).
Definition withHead : SegmentManager := after (allocHead roomy allOnes false) reserved.
Definition withEmergencyHead : SegmentManager :=
  after (allocHead roomy allOnes true) withHead.
Definition cleanerInformed : SegmentManager :=
  after (cleanableSegments []) withEmergencyHead.
Definition withSurvivor : SegmentManager :=
  after (allocSurvivor roomy 1) cleanerInformed.
Definition cleaned : SegmentManager := after (cleaningComplete [7%nat]) withSurvivor.
Definition digested : SegmentManager := after (allocHead roomy allOnes false) cleaned.
(** The RPCs of epoch 0 are over: the earliest outstanding epoch moves to 5. *)
Definition epochPassed : SegmentManager :=
  set_rpcPool (λ _, mkServerRpcPool 1 5) digested.
(** The same, with a log iterator created before the epoch moved. *)
Definition iterating : SegmentManager :=
  set_rpcPool (λ _, mkServerRpcPool 1 5) (after logIteratorCreated digested).

(** [cleaned] with a log iterator created before the next head. *)
Definition gated : SegmentManager := after logIteratorCreated cleaned.

(** A run of steps each of which starts while a log iterator exists. *)
Inductive iteration (appendFits : LogSegment → LogEntry → bool) (INVALID_SEGMENT_ID : Z)
  : SegmentManager → SegmentManager → Prop :=
| iteration_refl m : iteration appendFits INVALID_SEGMENT_ID m m
| iteration_step m m1 m' :
    0 < logIteratorCount m →
    step appendFits INVALID_SEGMENT_ID m m1 →
    iteration appendFits INVALID_SEGMENT_ID m1 m' →
    iteration appendFits INVALID_SEGMENT_ID m m'.

(** A decidable check of [UniqueIds]. *)
Definition uniqueIdsb (m : SegmentManager) : bool :=
  bool_decide (uint64 (nextSegmentId m))
  && forallb (λ ps, (0 <=? id ps.2) && (id ps.2 <? nextSegmentId m))
       (map_to_list (segments m))
  && bool_decide (NoDup ((λ ps, id ps.2) <$> map_to_list (segments m))).

(** A decidable check of [Ranges]. *)
Definition rangesb (m : SegmentManager) : bool :=
  let ok z := (0 <=? z) && (z <? 2 ^ 32) in
  ok (numEmergencyHeads m) && ok (numEmergencyHeadsAlloced m)
  && ok (numSurvivorSegments m) && ok (numSurvivorSegmentsAlloced m)
  && ok (freeSegmentCount (allocator m)).

(** ** Accessors and the destructor *)

(** [SegmentManager::operator[]], on a [uint32_t] slot. *)
Definition operator_subscript (slot : Z) : M LogSegment :=
  m ← gets (λ m, m);
  if maxSegments m <=? slot then fail SegmentManagerException
  else match segments m !! Z.to_nat slot with
       | Some s => mret s
       | None => fail SegmentManagerException
       end.

(** [SegmentManager::doesIdExist]: [contains(idToSlotMap, id)]. *)
Definition doesIdExist (i : Z) : M bool :=
  gets (λ m, bool_decide (is_Some (idToSlotMap m !! i))).

(** Modelled from the spec: [downCast<uint32_t>] (Common.h is not part of
    this unit), the narrowing conversion that asserts that the value is
    unchanged by it. *)
Definition downCast32 (z : Z) : M Z :=
  assert (bool_decide (wrap32 z = z));; mret (wrap32 z).

(** [SegmentManager::getAllocatedSegmentCount] *)
Definition getAllocatedSegmentCount : M Z :=
  n ← gets (λ m, Z.of_nat (length (allSegments m)));
  downCast32 n.

(** [SegmentManager::getFreeSegmentCount] *)
Definition getFreeSegmentCount : M Z :=
  gets (λ m, freeSegmentCount (allocator m)).

(** [SegmentManager::getFreeSurvivorCount]; the difference is taken on
    [uint32_t]. *)
Definition getFreeSurvivorCount : M Z :=
  n ← gets (λ m, wrap32 (numSurvivorSegments m - numSurvivorSegmentsAlloced m));
  downCast32 n.

(** [SegmentManager::getMaximumSegmentCount] *)
Definition getMaximumSegmentCount : M Z := gets maxSegments.

(** [SegmentManager::getSegletSize] *)
Definition getSegletSize : M Z := gets (λ m, segletSize (allocator m)).

(** [SegmentManager::getSegmentSize] *)
Definition getSegmentSize : M Z := gets (λ m, segmentSize (allocator m)).

(** [SegmentManager::~SegmentManager]: every occupied slot is unlinked
    and its segment destroyed, then the two arrays are deleted. *)
Definition SegmentManager_delete : M unit :=
  n ← gets maxSegments;
  foreach (seq 0 (Z.to_nat n)) (λ i,
    occupied ← gets (λ m, segments m !! i);
    match occupied with
    | Some _ =>
        removeFromLists i;;
        modify (set_segments (delete i));;
        modify (set_allocator releaseSegment)
    | None => mret tt
    end);;
  modify (set_segments (λ _, ∅));;
  modify (set_states (λ _, ∅)).

(** ** The slot and id tables

    What [freeSlots], [idToSlotMap] and [nextSegmentId] say about the
    [segments] array: a free slot is empty, every slot below [maxSegments]
    is free or occupied and no other is, the index maps the ids of the live
    segments to their slots, and ids are below the next one to be issued. *)
Record Tables (m : SegmentManager) : Prop := mkTables {
  tb_next : uint64 (nextSegmentId m);
  tb_below : ∀ p s, segments m !! p = Some s → 0 ≤ id s < nextSegmentId m;
  tb_index : ∀ i p, idToSlotMap m !! i = Some p ↔
                    ∃ s, segments m !! p = Some s ∧ id s = i;
  tb_free : ∀ p, p ∈ freeSlots m → segments m !! p = None;
  tb_free_nodup : NoDup (freeSlots m);
  tb_slots : ∀ p, (p < Z.to_nat (maxSegments m))%nat ↔
                  p ∈ freeSlots m ∨ is_Some (segments m !! p)
}.

(** A step taken while [nextSegmentId] is not about to wrap around. *)
Definition issuing (appendFits : LogSegment → LogEntry → bool) (INVALID_SEGMENT_ID : Z)
    (m m' : SegmentManager) : Prop :=
  nextSegmentId m < 2 ^ 64 - 1 ∧ step appendFits INVALID_SEGMENT_ID m m'.

(** Whether the segment a pointer designates has an id of at least
    [minSegmentId]. *)
Definition atLeast (minSegmentId : Z) (segs : gmap nat LogSegment) (p : nat) : bool :=
  match segs !! p with
  | Some s => minSegmentId <=? id s
  | None => false
  end.

(** ** A head allocation that throws

    Nothing in [allocHead] catches.  When [writeHeader] throws [FatalError]
    the exception leaves [allocHead], the lock guard is released, and the
    members are as [alloc] left them: the refused append has changed
    nothing.  The manager the throw leaves, for a call that gets that
    far. *)
Definition allocHead_unwound (appendFits : LogSegment → LogEntry → bool)
    (INVALID_SEGMENT_ID : Z) (mustNotFail : bool) (m : SegmentManager)
    : option SegmentManager :=
  match (prevHead ← getHeadSegment;
         newHead ← alloc ALLOC_HEAD;
         match newHead with
         | Some p => mret (Some p)
         | None =>
             n ← gets (λ m, length (segmentsByState m FREEABLE_PENDING_DIGEST_AND_REFERENCES));
             if mustNotFail || bool_decide (0 < n)%nat then alloc ALLOC_EMERGENCY_HEAD
             else mret None
         end) m with
  | Ok (Some p) ma =>
      match writeHeader appendFits p INVALID_SEGMENT_ID ma with
      | Err FatalError => Some ma
      | _ => None
      end
  | _ => None
  end.

(** Segments with room for the entries of the segment of id 0 only, and the
    first head of a manager over eight such segments. *)
Definition firstOnly : LogSegment → LogEntry → bool := λ s _, id s =? 0.
Definition firstHead : SegmentManager :=
  after (allocHead firstOnly allOnes false) (fresh 8 0).

(** Segments with room for a segment header and for nothing else. *)
Definition headersOnly : LogSegment → LogEntry → bool := λ _ e,
  match e with
  | LOG_ENTRY_TYPE_SEGHEADER _ _ _ _ => true
  | LOG_ENTRY_TYPE_LOGDIGEST _ => false
  end.

(** * Proofs *)

(** ** Lists *)

Lemma erase_elem p q l : q ∈ erase p l ↔ q ≠ p ∧ q ∈ l.
Proof. unfold erase. apply (list_elem_of_filter (λ q, q ≠ p)). Qed.

Lemma erase_notin p l : p ∉ l → erase p l = l.
Proof.
  unfold erase. induction l as [|a l IH]; intros Hn; [done|].
  rewrite filter_cons. apply not_elem_of_cons in Hn as [Hne Hn].
  rewrite decide_True by congruence. f_equal. auto.
Qed.

Lemma erase_NoDup p l : NoDup l → NoDup (erase p l).
Proof. apply list.NoDup_filter. Qed.

Lemma erase_head p l : p ∉ l → erase p (p :: l) = l.
Proof.
  intros Hn. unfold erase. rewrite filter_cons, decide_False by tauto.
  by apply erase_notin.
Qed.

Lemma erase_snoc_NoDup p l : NoDup l → NoDup (erase p l ++ [p]).
Proof.
  intros Hl. apply list.NoDup_app. split; [by apply erase_NoDup|]. split.
  - intros q Hq Hq'. apply erase_elem in Hq as [Hne _].
    apply list_elem_of_singleton in Hq'. done.
  - apply NoDup_singleton.
Qed.

Lemma filter_iff_in {A} (P Q : A → Prop)
    `{!∀ x, Decision (P x), !∀ x, Decision (Q x)} (l : list A) :
  (∀ x, x ∈ l → P x ↔ Q x) → filter P l = filter Q l.
Proof.
  induction l as [|a l IH]; intros HPQ; [done|].
  rewrite !filter_cons, IH by (intros x Hx; apply HPQ; by right).
  apply decide_ext, HPQ. by left.
Qed.

Lemma fn_insert_at {A} (f : State → A) x v z :
  (<[x := v]> f) z = if decide (x = z) then v else f z.
Proof. reflexivity. Qed.

(** ** Running the monad *)

Lemma bind_run {A B} (c : M A) (k : A → M B) m :
  (c ≫= k) m = match c m with Ok a m' => k a m' | Err f => Err f end.
Proof. reflexivity. Qed.

Lemma bind_Ok {A B} (c : M A) (k : A → M B) m a m1 :
  c m = Ok a m1 → (c ≫= k) m = k a m1.
Proof. intros H. rewrite bind_run, H. reflexivity. Qed.

Lemma bind_inv {A B} (c : M A) (k : A → M B) m b m' :
  (c ≫= k) m = Ok b m' → ∃ a m1, c m = Ok a m1 ∧ k a m1 = Ok b m'.
Proof. rewrite bind_run. destruct (c m) as [a m1|]; [eauto|discriminate]. Qed.

Lemma ret_inv {A} (a b : A) m m' : (mret a : M A) m = Ok b m' → b = a ∧ m' = m.
Proof. intros H. by inversion H. Qed.

Lemma deref_Ok m p s : segments m !! p = Some s → deref p m = Ok s m.
Proof. intros H. unfold deref. by rewrite H. Qed.

Lemma deref_inv m p s m' : deref p m = Ok s m' → m' = m ∧ segments m !! p = Some s.
Proof. unfold deref. destruct (segments m !! p); naive_solver. Qed.

Lemma stateOf_Ok m p x : states m !! p = Some x → stateOf p m = Ok x m.
Proof. intros H. unfold stateOf. by rewrite H. Qed.

Lemma assert_inv b m u m' : assert b m = Ok u m' → b = true ∧ m' = m.
Proof. unfold assert. destruct b; intros H; [by inversion H|discriminate]. Qed.

Lemma assert_Ok b m : b = true → assert b m = Ok tt m.
Proof. by intros ->. Qed.

(** Unfolds the monadic plumbing of the goal. *)
Ltac mrun :=
  unfold deref, stateOf, modify, gets, fail, mbind, M_bind, mret, M_ret; cbn.

(** ** changeState and free on well-formed managers *)

Lemma WF_state m p s : WF m → segments m !! p = Some s → ∃ x, states m !! p = Some x.
Proof. intros W Hs. apply (wf_occupied m W p). eauto. Qed.

Lemma WF_not_listed m p x z :
  WF m → states m !! p = Some x → z ≠ x → p ∉ segmentsByState m z.
Proof. intros W Hx Hz Hin. apply (wf_lists m W) in Hin. congruence. Qed.

Lemma lists_erase_one m p x z :
  WF m → states m !! p = Some x →
  (<[x := erase p (segmentsByState m x)]> (segmentsByState m)) z
  = erase p (segmentsByState m z).
Proof.
  intros W Hx. rewrite fn_insert_at. case_decide; subst; [done|].
  symmetry. apply erase_notin. eapply WF_not_listed; eauto.
Qed.

Lemma removeFromLists_Ok m p s x :
  segments m !! p = Some s → slot s = p → states m !! p = Some x →
  removeFromLists p m =
    Ok tt (set_allSegments (erase p)
             (set_segmentsByState (λ f, <[x := erase p (f x)]> f) m)).
Proof.
  intros Hs Hsl Hx. unfold removeFromLists. mrun. rewrite Hs. cbn.
  rewrite Hsl, Hx. reflexivity.
Qed.

Lemma addToLists_Ok m p s x :
  segments m !! p = Some s → slot s = p → states m !! p = Some x →
  addToLists p m =
    Ok tt (set_segmentsByState (λ f, <[x := f x ++ [p]]> f)
             (set_allSegments (λ l, l ++ [p]) m)).
Proof.
  intros Hs Hsl Hx. unfold addToLists. mrun. rewrite Hs. cbn.
  rewrite Hsl, Hx. reflexivity.
Qed.

Lemma changeState_spec m p s y :
  WF m → segments m !! p = Some s →
  ∃ m', changeState p y m = Ok tt m' ∧ Relinked p y m m'.
Proof.
  intros W Hs.
  assert (slot s = p) as Hsl by (eapply wf_slot; eauto).
  destruct (WF_state m p s W Hs) as [x Hx].
  eexists. split.
  - unfold changeState.
    erewrite bind_Ok by (eapply removeFromLists_Ok; eauto).
    erewrite bind_Ok by (apply deref_Ok; cbn; eauto).
    erewrite bind_Ok by (apply stateOf_Ok; cbn; rewrite Hsl; eauto).
    erewrite bind_Ok by reflexivity.
    eapply addToLists_Ok; cbn; eauto.
    rewrite Hsl. apply lookup_insert_eq.
  - split; cbn; try reflexivity; [by rewrite Hsl|].
    intros z. rewrite fn_insert_at, !(lists_erase_one m _ x) by done.
    repeat case_decide; subst; try congruence; by rewrite ?app_nil_r.
Qed.

Lemma Relinked_WF m m' p s y :
  WF m → segments m !! p = Some s → Relinked p y m m' → WF m'.
Proof.
  intros W Hs R. destruct (WF_state m p s W Hs) as [x Hx].
  split.
  - intros z q. rewrite (rl_lists _ _ _ _ R), (rl_states _ _ _ _ R).
    rewrite elem_of_app, erase_elem, (wf_lists m W).
    destruct (decide (q = p)) as [->|Hne].
    + rewrite lookup_insert_eq. case_decide; subst.
      * rewrite list_elem_of_singleton. naive_solver.
      * split; [intros [[? _]|He]; [done|by apply elem_of_nil in He]|naive_solver].
    + rewrite lookup_insert_ne by done. split; [intros [[_ ?]|He]; [done|]|naive_solver].
      case_decide; [apply list_elem_of_singleton in He; done|by apply elem_of_nil in He].
  - intros z. rewrite (rl_lists _ _ _ _ R). case_decide.
    + apply erase_snoc_NoDup, (wf_nodup m W).
    + rewrite app_nil_r. apply erase_NoDup, (wf_nodup m W).
  - intros q. rewrite (rl_segments _ _ _ _ R), (rl_states _ _ _ _ R), (wf_occupied m W).
    destruct (decide (q = p)) as [->|Hne].
    + rewrite lookup_insert_eq, Hx. split; eauto.
    + by rewrite lookup_insert_ne.
  - intros q t. rewrite (rl_segments _ _ _ _ R). apply (wf_slot m W).
  - intros q. rewrite (rl_all _ _ _ _ R), (rl_segments _ _ _ _ R).
    rewrite elem_of_app, erase_elem, list_elem_of_singleton, (wf_all m W).
    destruct (decide (q = p)) as [->|Hne]; naive_solver.
  - rewrite (rl_all _ _ _ _ R). apply erase_snoc_NoDup, (wf_all_nodup m W).
Qed.

Lemma free_spec m p s :
  WF m → segments m !! p = Some s →
  ∃ m', free p m = Ok tt m' ∧ Freed p s m m'.
Proof.
  intros W Hs.
  assert (slot s = p) as Hsl by (eapply wf_slot; eauto).
  destruct (WF_state m p s W Hs) as [x Hx].
  unfold free.
  erewrite bind_Ok by (apply deref_Ok; eauto). rewrite Hsl.
  erewrite bind_Ok by (apply deref_Ok; eauto).
  erewrite bind_Ok by reflexivity.
  erewrite bind_Ok by reflexivity.
  erewrite bind_Ok by (eapply removeFromLists_Ok; cbn; eauto).
  erewrite bind_Ok by reflexivity.
  erewrite bind_Ok by reflexivity.
  erewrite bind_Ok by reflexivity.
  erewrite bind_Ok by reflexivity. cbn.
  pose proof (λ z, lists_erase_one m p x z W Hx) as Hz.
  destruct (isEmergencyHead s) eqn:He.
  - eexists. split; [reflexivity|]. split; cbn; rewrite ?He; try reflexivity. done.
  - destruct (0 <? numSurvivorSegmentsAlloced m) eqn:Hn.
    + eexists. split; [reflexivity|]. split; cbn; rewrite ?He, ?Hn; try reflexivity. done.
    + eexists. split; [reflexivity|]. split; cbn; rewrite ?He, ?Hn; try reflexivity. done.
Qed.

Lemma Freed_WF m m' p s : WF m → Freed p s m m' → WF m'.
Proof.
  intros W F. split.
  - intros z q. rewrite (fr_lists _ _ _ _ F), (fr_states _ _ _ _ F).
    rewrite erase_elem, (wf_lists m W).
    destruct (decide (q = p)) as [->|Hne].
    + rewrite lookup_delete_eq. naive_solver.
    + rewrite lookup_delete_ne by done. naive_solver.
  - intros z. rewrite (fr_lists _ _ _ _ F). apply erase_NoDup, (wf_nodup m W).
  - intros q. rewrite (fr_segments _ _ _ _ F), (fr_states _ _ _ _ F).
    destruct (decide (q = p)) as [->|Hne].
    + rewrite !lookup_delete_eq. split; intros [? ?]; done.
    + rewrite !lookup_delete_ne by done. apply (wf_occupied m W).
  - intros q t. rewrite (fr_segments _ _ _ _ F). intros Hq.
    apply lookup_delete_Some in Hq as [_ Hq]. by apply (wf_slot m W).
  - intros q. rewrite (fr_all _ _ _ _ F), (fr_segments _ _ _ _ F).
    rewrite erase_elem, (wf_all m W).
    destruct (decide (q = p)) as [->|Hne].
    + rewrite lookup_delete_eq. split; [naive_solver|intros [? ?]; done].
    + rewrite lookup_delete_ne by done. naive_solver.
  - rewrite (fr_all _ _ _ _ F). apply erase_NoDup, (wf_all_nodup m W).
Qed.

(** ** The reclamation scan *)

Lemma FreedAll_WF l : ∀ m m', WF m → FreedAll l m m' → WF m'.
Proof.
  induction l as [|p l IH]; cbn; intros m m' W F; [by subst|].
  destruct F as (s & m1 & Hs & F1 & F). eapply IH; [|done]. by eapply Freed_WF.
Qed.

Lemma FreedAll_fixed l :
  ∀ m m', FreedAll l m m' → fixed m' = fixed m ∧ nextSegmentId m' = nextSegmentId m.
Proof.
  induction l as [|p l IH]; cbn; intros m m' F; [by subst|].
  destruct F as (s & m1 & Hs & F1 & F). destruct (IH _ _ F) as [-> ->].
  split; [apply (fr_fixed _ _ _ _ F1)|apply (fr_next _ _ _ _ F1)].
Qed.

Lemma FreedAll_segments l :
  ∀ m m' q, FreedAll l m m' →
    segments m' !! q = if decide (q ∈ l) then None else segments m !! q.
Proof.
  induction l as [|p l IH]; cbn; intros m m' q F.
  - subst. rewrite decide_False; [done|apply not_elem_of_nil].
  - destruct F as (s & m1 & Hs & F1 & F). rewrite (IH _ _ _ F), (fr_segments _ _ _ _ F1).
    destruct (decide (q ∈ l)) as [Hq|Hq].
    + rewrite decide_True; [done|by right].
    + destruct (decide (q = p)) as [->|Hne].
      * rewrite lookup_delete_eq, decide_True; [done|by left].
      * rewrite lookup_delete_ne by done. rewrite decide_False; [done|].
        rewrite elem_of_cons. naive_solver.
Qed.

Lemma FreedAll_states l :
  ∀ m m' q, FreedAll l m m' →
    states m' !! q = if decide (q ∈ l) then None else states m !! q.
Proof.
  induction l as [|p l IH]; cbn; intros m m' q F.
  - subst. rewrite decide_False; [done|apply not_elem_of_nil].
  - destruct F as (s & m1 & Hs & F1 & F). rewrite (IH _ _ _ F), (fr_states _ _ _ _ F1).
    destruct (decide (q ∈ l)) as [Hq|Hq].
    + rewrite decide_True; [done|by right].
    + destruct (decide (q = p)) as [->|Hne].
      * rewrite lookup_delete_eq, decide_True; [done|by left].
      * rewrite lookup_delete_ne by done. rewrite decide_False; [done|].
        rewrite elem_of_cons. naive_solver.
Qed.

Lemma filter_erase (l k : list nat) p :
  filter (λ q, q ∉ k) (erase p l) = filter (λ q, q ∉ p :: k) l.
Proof.
  unfold erase. rewrite list_filter_filter. apply list_filter_iff.
  intros q. rewrite not_elem_of_cons. tauto.
Qed.

Lemma filter_notin_nil (l : list nat) : filter (λ q, q ∉ []) l = l.
Proof.
  induction l as [|a l IH]; [done|]. rewrite filter_cons, decide_True, IH; [done|].
  apply not_elem_of_nil.
Qed.

Lemma FreedAll_lists l :
  ∀ m m', FreedAll l m m' →
    (∀ z, segmentsByState m' z = filter (λ q, q ∉ l) (segmentsByState m z)) ∧
    allSegments m' = filter (λ q, q ∉ l) (allSegments m) ∧
    freeSlots m' = freeSlots m ++ l.
Proof.
  induction l as [|p l IH]; cbn; intros m m' F.
  - subst. rewrite app_nil_r, filter_notin_nil. split; [|done].
    intros z. by rewrite filter_notin_nil.
  - destruct F as (s & m1 & Hs & F1 & F). destruct (IH _ _ F) as (Hl & Ha & Hf).
    split; [|split].
    + intros z. by rewrite Hl, (fr_lists _ _ _ _ F1), filter_erase.
    + by rewrite Ha, (fr_all _ _ _ _ F1), filter_erase.
    + by rewrite Hf, (fr_freeSlots _ _ _ _ F1), <- app_assoc.
Qed.

Lemma erasedIds_ext segs segs' l :
  (∀ p, p ∈ l → segs' !! p = segs !! p) →
  ∀ ix, erasedIds segs' l ix = erasedIds segs l ix.
Proof.
  unfold erasedIds. induction l as [|p l IH]; intros H ix; [done|]. cbn.
  rewrite H by (by left). apply IH. intros q Hq. apply H. by right.
Qed.

Lemma FreedAll_index l :
  ∀ m m', NoDup l → FreedAll l m m' →
    idToSlotMap m' = erasedIds (segments m) l (idToSlotMap m).
Proof.
  induction l as [|p l IH]; cbn; intros m m' N F; [by subst|].
  destruct F as (s & m1 & Hs & F1 & F). apply list.NoDup_cons in N as [Hp N].
  rewrite (IH _ _ N F), (fr_index _ _ _ _ F1).
  transitivity (erasedIds (segments m) l (delete (id s) (idToSlotMap m))).
  - apply erasedIds_ext. intros q Hq.
    rewrite (fr_segments _ _ _ _ F1), lookup_delete_ne; [done|]. intros ->. done.
  - unfold erasedIds. cbn. by rewrite Hs.
Qed.

Lemma foreach_free m e :
  ∀ l, WF m → NoDup l → (∀ p, p ∈ l → is_Some (segments m !! p)) →
    ∃ m', foreach l (λ p, s ← deref p;
                          if cleanedEpoch s <? e then free p else mret tt) m = Ok tt m'
          ∧ FreedAll (filter (λ p, cleanedBefore e (segments m) p) l) m m'.
Proof.
  intros l. revert m. induction l as [|p l IH]; intros m W N Hocc.
  - eexists. split; [reflexivity|done].
  - cbn [foreach]. apply list.NoDup_cons in N as [Hp N].
    destruct (Hocc p) as [s Hs]; [by left|].
    rewrite bind_run. erewrite (bind_Ok (deref p)) by (apply deref_Ok; eauto).
    rewrite filter_cons.
    assert (cleanedBefore e (segments m) p = (cleanedEpoch s <? e)) as Hcb
      by (unfold cleanedBefore; by rewrite Hs).
    destruct (cleanedEpoch s <? e) eqn:Hc.
    + destruct (free_spec m p s W Hs) as (m1 & -> & F1).
      assert (∀ q, q ∈ l → segments m1 !! q = segments m !! q) as Hsame.
      { intros q Hq. rewrite (fr_segments _ _ _ _ F1), lookup_delete_ne; [done|].
        intros ->. done. }
      destruct (IH m1) as (m' & Hrun & F); [by eapply Freed_WF|done| |].
      { intros q Hq. rewrite Hsame by done. apply Hocc. by right. }
      exists m'. split; [done|]. rewrite decide_True by (by rewrite Hcb).
      exists s, m1. split_and!; [done..|].
      erewrite filter_iff_in; [done|]. intros q Hq. cbn.
      unfold cleanedBefore. by rewrite Hsame.
    + cbn. destruct (IH m) as (m' & Hrun & F); [done..| |].
      { intros q Hq. apply Hocc. by right. }
      exists m'. split; [done|]. rewrite decide_False; [done|]. rewrite Hcb. intros [].
Qed.

Lemma freeUnreferencedSegments_spec m :
  WF m → ∃ m', freeUnreferencedSegments m = Ok tt m' ∧ FreedAll (reclaimed m) m m'.
Proof.
  intros W. unfold freeUnreferencedSegments, reclaimed.
  erewrite bind_Ok by reflexivity.
  destruct (segmentsByState m FREEABLE_PENDING_REFERENCES) as [|p l] eqn:Hl.
  - eexists. split; [reflexivity|done].
  - erewrite bind_Ok by reflexivity.
    apply foreach_free; [done|rewrite <- Hl; apply (wf_nodup m W)|].
    intros q Hq. rewrite <- Hl in Hq. apply (wf_lists m W) in Hq.
    apply (wf_occupied m W). eauto.
Qed.

(** ** The drain loops *)

Lemma RelinkedAll_same l y :
  ∀ m m', RelinkedAll l y m m' → others m' = others m ∧ segments m' = segments m.
Proof.
  induction l as [|p l IH]; cbn; intros m m' R; [by subst|].
  destruct R as (m1 & R1 & R). destruct (IH _ _ R) as [-> ->].
  split; [apply (rl_others _ _ _ _ R1)|apply (rl_segments _ _ _ _ R1)].
Qed.

Lemma RelinkedAll_WF l y :
  ∀ m m', WF m → (∀ p, p ∈ l → is_Some (segments m !! p)) →
          RelinkedAll l y m m' → WF m'.
Proof.
  induction l as [|p l IH]; cbn; intros m m' W Hocc R; [by subst|].
  destruct R as (m1 & R1 & R). destruct (Hocc p) as [s Hs]; [by left|].
  eapply IH; [by eapply Relinked_WF| |done].
  intros q Hq. rewrite (rl_segments _ _ _ _ R1). apply Hocc. by right.
Qed.

Lemma RelinkedAll_states l y :
  ∀ m m' q, RelinkedAll l y m m' →
    states m' !! q = if decide (q ∈ l) then Some y else states m !! q.
Proof.
  induction l as [|p l IH]; cbn; intros m m' q R.
  - subst. rewrite decide_False; [done|apply not_elem_of_nil].
  - destruct R as (m1 & R1 & R). rewrite (IH _ _ _ R), (rl_states _ _ _ _ R1).
    destruct (decide (q ∈ l)) as [Hq|Hq].
    + rewrite decide_True; [done|by right].
    + destruct (decide (q = p)) as [->|Hne].
      * rewrite lookup_insert_eq, decide_True; [done|by left].
      * rewrite lookup_insert_ne by done. rewrite decide_False; [done|].
        rewrite elem_of_cons. tauto.
Qed.

Lemma filter_notin_single (k : list nat) p :
  p ∉ k → filter (λ q, q ∉ k) [p] = [p].
Proof. intros Hp. by rewrite filter_cons, decide_True. Qed.

Lemma RelinkedAll_lists l y :
  ∀ m m', NoDup l → RelinkedAll l y m m' →
    (∀ z, segmentsByState m' z =
          filter (λ q, q ∉ l) (segmentsByState m z) ++ (if decide (z = y) then l else [])) ∧
    allSegments m' = filter (λ q, q ∉ l) (allSegments m) ++ l.
Proof.
  induction l as [|p l IH]; cbn; intros m m' N R.
  - subst. rewrite app_nil_r, filter_notin_nil. split; [|done].
    intros z. rewrite filter_notin_nil. case_decide; by rewrite app_nil_r.
  - destruct R as (m1 & R1 & R). apply list.NoDup_cons in N as [Hp N].
    destruct (IH _ _ N R) as (Hl & Ha). split.
    + intros z. rewrite Hl, (rl_lists _ _ _ _ R1), list.filter_app, filter_erase.
      case_decide.
      * by rewrite filter_notin_single, <- app_assoc.
      * by rewrite filter_nil, !app_nil_r.
    + by rewrite Ha, (rl_all _ _ _ _ R1), list.filter_app, filter_erase,
        filter_notin_single, <- app_assoc.
Qed.

Section Loops.
Context {B : Type}.
Variable from to : State.
Variable body : nat → B → M B.
Variable g : nat → LogSegment → B → B.
Hypothesis from_to : from ≠ to.
Hypothesis body_spec :
  ∀ m p s acc, WF m → segments m !! p = Some s →
    ∃ m', body p acc m = Ok (g p s acc) m' ∧ Relinked p to m m'.

Lemma whileFront_spec :
  ∀ l m acc, WF m → segmentsByState m from = l →
    ∃ m', whileFront (length l) from body acc m
          = Ok (accumulate g (segments m) l acc) m'
          ∧ RelinkedAll l to m m'.
Proof.
  induction l as [|p l IH]; intros m acc W Hl; cbn [length whileFront]; rewrite Hl.
  - eexists. split; [reflexivity|done].
  - assert (p ∈ segmentsByState m from) as Hp by (rewrite Hl; by left).
    pose proof (wf_nodup m W from) as N. rewrite Hl in N.
    apply list.NoDup_cons in N as [Hpl N].
    apply (wf_lists m W) in Hp.
    destruct (proj2 (wf_occupied m W p)) as [s Hs]; [eauto|].
    destruct (body_spec m p s acc W Hs) as (m1 & Hb & R1).
    rewrite bind_run, Hb.
    destruct (IH m1 (g p s acc)) as (m' & Hrun & R).
    { by eapply Relinked_WF. }
    { rewrite (rl_lists _ _ _ _ R1), Hl, decide_False, app_nil_r by done.
      by apply erase_head. }
    exists m'. split.
    + rewrite Hrun, (rl_segments _ _ _ _ R1). unfold accumulate. cbn. by rewrite Hs.
    + cbn. eauto.
Qed.
End Loops.

Lemma filter_notin_sub (l k : list nat) :
  (∀ q, q ∈ k → q ∈ l) → filter (λ q, q ∉ l) k = [].
Proof.
  intros Hsub. induction k as [|a k IH]; [done|].
  rewrite filter_cons, decide_False by (intros Hn; apply Hn, Hsub; by left).
  apply IH. intros q Hq. apply Hsub. by right.
Qed.

Lemma filter_notin_sub_gen {A} (P : A → Prop) `{!∀ x, Decision (P x)} (k : list A) :
  (∀ q, q ∈ k → ¬ P q) → filter P k = [].
Proof.
  intros Hn. induction k as [|a k IH]; [done|].
  rewrite filter_cons, decide_False by (apply Hn; by left).
  apply IH. intros q Hq. apply Hn. by right.
Qed.

Lemma filter_notin_self (l : list nat) : filter (λ q, q ∉ l) l = [].
Proof. by apply filter_notin_sub. Qed.

Lemma filter_notin_disjoint (l k : list nat) :
  (∀ q, q ∈ k → q ∉ l) → filter (λ q, q ∉ l) k = k.
Proof.
  intros H. induction k as [|a k IH]; [done|].
  rewrite filter_cons, decide_True by (apply H; by left).
  f_equal. apply IH. intros q Hq. apply H. by right.
Qed.

Lemma RelinkedAll_Drained from to m m' :
  WF m → from ≠ to → RelinkedAll (segmentsByState m from) to m m' → Drained from to m m'.
Proof.
  intros W Hne R.
  pose proof (wf_nodup m W from) as N.
  destruct (RelinkedAll_same _ _ _ _ R) as [Ho Hs].
  destruct (RelinkedAll_lists _ _ _ _ N R) as [Hl Ha].
  assert (∀ p, p ∈ segmentsByState m from → is_Some (segments m !! p)) as Hocc.
  { intros p Hp. apply (wf_lists m W) in Hp. apply (wf_occupied m W). eauto. }
  split; [by eapply RelinkedAll_WF|done|done|..].
  - intros q. by apply RelinkedAll_states.
  - intros z. rewrite Hl. destruct (decide (z = from)) as [->|Hz1].
    + by rewrite filter_notin_self, decide_False.
    + rewrite filter_notin_disjoint; [case_decide; [by subst|by rewrite app_nil_r]|].
      intros q Hq Hq'. apply (wf_lists m W) in Hq, Hq'. congruence.
  - intros q. rewrite Ha, elem_of_app, (list_elem_of_filter (λ q, q ∉ _)).
    split; [intros [[_ ?]|Hq]; [done|]|].
    + apply (wf_all m W). by apply Hocc.
    + intros Hq. destruct (decide (q ∈ segmentsByState m from)); tauto.
Qed.

Lemma Drained_from from to m m' :
  Drained from to m m' → segmentsByState m' from = [].
Proof. intros D. by rewrite (dr_lists _ _ _ _ D), decide_True. Qed.

Lemma Drained_to from to m m' :
  Drained from to m m' → from ≠ to →
  segmentsByState m' to = segmentsByState m to ++ segmentsByState m from.
Proof. intros D Hne. by rewrite (dr_lists _ _ _ _ D), decide_False, decide_True. Qed.

Lemma Drained_other from to m m' z :
  Drained from to m m' → z ≠ from → z ≠ to →
  segmentsByState m' z = segmentsByState m z.
Proof. intros D H1 H2. by rewrite (dr_lists _ _ _ _ D), !decide_False. Qed.

Lemma drain_spec from to m :
  WF m → from ≠ to → ∃ m', drain from to m = Ok tt m' ∧ Drained from to m m'.
Proof.
  intros W Hne. unfold drain. erewrite bind_Ok by reflexivity.
  destruct (whileFront_spec from to (λ p _, changeState p to) (λ _ _ _, tt) Hne)
    with (l := segmentsByState m from) (m := m) (acc := tt) as (m' & Hrun & R); [|done..|].
  { intros m0 p s [] W0 Hs. by apply changeState_spec with (s := s). }
  exists m'. split; [|by apply RelinkedAll_Drained].
  rewrite Hrun. f_equal. by destruct (accumulate _ _ _ _).
Qed.

(** ** Admission and allocation *)

Lemma wrap32_small z : uint32 z → wrap32 z = z.
Proof. intros H. apply Z.mod_small. exact H. Qed.

Lemma wrap64_small z : uint64 z → wrap64 z = z.
Proof. intros H. apply Z.mod_small. exact H. Qed.

Lemma mayAlloc_reserved m :
  Ranges m → numEmergencyHeadsAlloced m ≤ numEmergencyHeads m →
  numSurvivorSegmentsAlloced m ≤ numSurvivorSegments m →
  wrap32 (numEmergencyHeads m - numEmergencyHeadsAlloced m) = emergencyReserved m ∧
  wrap32 (numSurvivorSegments m - numSurvivorSegmentsAlloced m) = survivorReserved m ∧
  wrap64 (emergencyReserved m + survivorReserved m)
  = emergencyReserved m + survivorReserved m.
Proof.
  intros [H1 H2 H3 H4 H5] He Hs. unfold emergencyReserved, survivorReserved, uint32 in *.
  split_and!; [apply wrap32_small|apply wrap32_small|apply wrap64_small];
    unfold uint32, uint64; lia.
Qed.

(** On entry [mayAlloc] either trips over one of its three assertions or
    goes on to the decision for the allocation type. *)
Lemma mayAlloc_inv type m b m' :
  Ranges m → mayAlloc type m = Ok b m' →
  m' = m ∧ reservesHold m ∧ b = permitted m type.
Proof.
  intros R. unfold mayAlloc. rewrite bind_run. cbn [gets].
  intros H. apply bind_inv in H as ([] & m1 & H1 & H).
  apply assert_inv in H1 as [He ->].
  apply bind_inv in H as ([] & m1 & H1 & H).
  apply assert_inv in H1 as [Hs ->].
  apply Z.leb_le in He, Hs. cbv zeta in H.
  destruct (mayAlloc_reserved m R He Hs) as (E1 & E2 & E3).
  rewrite E1, E2, E3 in H. clear E1 E2 E3.
  apply bind_inv in H as ([] & m1 & H1 & H).
  apply assert_inv in H1 as [Ht ->]. apply Z.leb_le in Ht.
  assert (reservesHold m) as RH by done.
  destruct type.
  - destruct (freeSegmentCount (allocator m) <=? emergencyReserved m + survivorReserved m)
      eqn:Hc.
    + inversion H; subst. split_and!; [done..|]. cbn. symmetry. apply Z.ltb_ge.
      by apply Z.leb_le.
    + apply bind_inv in H as ([] & m1 & H1 & H). apply assert_inv in H1 as [_ ->].
      inversion H; subst. split_and!; [done..|]. cbn. symmetry. apply Z.ltb_lt.
      by apply Z.leb_gt.
  - apply bind_inv in H as ([] & m1 & H1 & H). apply assert_inv in H1 as [_ ->].
    apply bind_inv in H as ([] & m1 & H1 & H). apply assert_inv in H1 as [_ ->].
    apply bind_inv in H as ([] & m1 & H1 & H). apply assert_inv in H1 as [_ ->].
    by inversion H; subst.
  - destruct (survivorReserved m =? 0) eqn:Hc.
    + inversion H; subst. split_and!; [done..|]. cbn. symmetry. apply Z.ltb_ge.
      apply Z.eqb_eq in Hc. unfold survivorReserved in Hc. lia.
    + apply bind_inv in H as ([] & m1 & H1 & H). apply assert_inv in H1 as [_ ->].
      apply bind_inv in H as ([] & m1 & H1 & H). apply assert_inv in H1 as [_ ->].
      inversion H; subst. split_and!; [done..|]. cbn. symmetry. apply Z.ltb_lt.
      apply Z.eqb_neq in Hc. unfold survivorReserved in Hc. lia.
Qed.

Lemma mayAlloc_Ok type m :
  Ranges m → reservesHold m → freeSlots m ≠ [] →
  0 < freeSegmentCount (allocator m) →
  (type = ALLOC_EMERGENCY_HEAD → numEmergencyHeadsAlloced m < numEmergencyHeads m) →
  mayAlloc type m = Ok (permitted m type) m.
Proof.
  intros R (He & Hs & Ht) Hf H0 Hem. unfold mayAlloc. rewrite bind_run. cbn [gets].
  erewrite bind_Ok by (apply assert_Ok; by apply Z.leb_le).
  erewrite bind_Ok by (apply assert_Ok; by apply Z.leb_le).
  cbv zeta. destruct (mayAlloc_reserved m R He Hs) as (-> & -> & ->).
  erewrite bind_Ok by (apply assert_Ok; by apply Z.leb_le).
  assert (bool_decide (0 < length (freeSlots m))%nat = true) as Hfs.
  { apply bool_decide_eq_true. destruct (freeSlots m); [done|cbn; lia]. }
  destruct type; cbn [permitted].
  - destruct (freeSegmentCount (allocator m) <=? emergencyReserved m + survivorReserved m)
      eqn:Hc.
    + cbn. f_equal. symmetry. apply Z.ltb_ge. by apply Z.leb_le.
    + erewrite bind_Ok by (by apply assert_Ok). cbn. f_equal. symmetry.
      apply Z.ltb_lt. by apply Z.leb_gt.
  - erewrite bind_Ok by (apply assert_Ok, Z.ltb_lt; unfold emergencyReserved;
                         specialize (Hem eq_refl); lia).
    erewrite bind_Ok by (by apply assert_Ok).
    erewrite bind_Ok by (apply assert_Ok; by apply Z.ltb_lt). reflexivity.
  - destruct (survivorReserved m =? 0) eqn:Hc.
    + cbn. f_equal. symmetry. apply Z.ltb_ge.
      apply Z.eqb_eq in Hc. unfold survivorReserved in Hc. lia.
    + erewrite bind_Ok by (by apply assert_Ok).
      erewrite bind_Ok by (apply assert_Ok; by apply Z.ltb_lt). cbn. f_equal.
      symmetry. apply Z.ltb_lt. apply Z.eqb_neq in Hc. unfold survivorReserved in Hc.
      unfold survivorReserved in Hs. lia.
Qed.

Lemma newSegment_inv type m r m' :
  newSegment type m = Ok r m' →
  ∃ p, r = Some p ∧ list.last (freeSlots m) = Some p ∧ segments m !! p = None.
Proof.
  unfold newSegment. rewrite bind_run. cbn [gets].
  rewrite bind_run. cbn [modify]. rewrite bind_run. cbn [gets freeSlots set_nextSegmentId].
  destruct (list.last (freeSlots m)) as [p|] eqn:Hl; [|discriminate].
  rewrite bind_run. cbn [modify]. rewrite bind_run. cbn [gets]. cbn [segments set_freeSlots].
  intros H. apply bind_inv in H as ([] & m1 & H1 & H).
  apply assert_inv in H1 as [Hn ->]. apply bool_decide_eq_true in Hn. cbn in Hn.
  exists p. split; [|done].
  repeat (apply bind_inv in H as (? & ? & _ & H)).
  unfold mret, M_ret in H. by inversion H.
Qed.

Lemma newSegment_spec type m p :
  list.last (freeSlots m) = Some p → segments m !! p = None →
  ∃ m', newSegment type m = Ok (Some p) m' ∧ Allocated type p m m'.
Proof.
  intros Hl Hp. unfold newSegment.
  rewrite bind_run. cbn [gets].
  rewrite bind_run. cbn [modify]. rewrite bind_run. cbn [gets freeSlots set_nextSegmentId].
  rewrite Hl.
  rewrite bind_run. cbn [modify]. rewrite bind_run. cbn [gets]. cbn [segments set_freeSlots].
  erewrite bind_Ok by (apply assert_Ok, bool_decide_eq_true; exact Hp).
  rewrite bind_run. cbn [gets].
  do 4 (rewrite bind_run; cbn [modify]).
  erewrite bind_Ok; last first.
  { eapply addToLists_Ok; cbn; [apply lookup_insert_eq|reflexivity|apply lookup_insert_eq]. }
  destruct type; (eexists; split; [reflexivity|]); (split; try reflexivity; try done; []);
    cbn; intros z0; rewrite fn_insert_at; unfold birthState;
    destruct z0; cbv [decide decide_rel State_eq_dec AllocationType_eq_dec State_rec State_rect
                      AllocationType_rec AllocationType_rect];
    by rewrite ?app_nil_r.
Qed.

Lemma Allocated_WF type p m m' : WF m → Allocated type p m m' → WF m'.
Proof.
  intros W A. pose proof (al_fresh _ _ _ _ A) as Hp.
  assert (states m !! p = None) as Hst.
  { apply eq_None_not_Some. rewrite <- (wf_occupied m W). rewrite Hp. by intros [? ?]. }
  assert (∀ z, p ∉ segmentsByState m z) as Hnl.
  { intros z Hin. apply (wf_lists m W) in Hin. congruence. }
  split.
  - intros z q. rewrite (al_lists _ _ _ _ A), (al_states _ _ _ _ A).
    rewrite elem_of_app, (wf_lists m W).
    destruct (decide (q = p)) as [->|Hne].
    + rewrite lookup_insert_eq, Hst. case_decide; subst.
      * rewrite list_elem_of_singleton. split; [done|]. by right.
      * split; [intros [?|He]; [done|by apply elem_of_nil in He]|].
        intros [=]. congruence.
    + rewrite lookup_insert_ne by done. split; [intros [?|He]; [done|]|by left].
      case_decide; [apply list_elem_of_singleton in He; done|by apply elem_of_nil in He].
  - intros z. rewrite (al_lists _ _ _ _ A). case_decide.
    + apply list.NoDup_app. split; [apply (wf_nodup m W)|]. split; [|apply NoDup_singleton].
      intros q Hq Hq'. apply list_elem_of_singleton in Hq'. subst. by eapply Hnl.
    + rewrite app_nil_r. apply (wf_nodup m W).
  - intros q. rewrite (al_segments _ _ _ _ A), (al_states _ _ _ _ A).
    destruct (decide (q = p)) as [->|Hne].
    + rewrite !lookup_insert_eq. split; eauto.
    + rewrite !lookup_insert_ne by done. apply (wf_occupied m W).
  - intros q t. rewrite (al_segments _ _ _ _ A).
    destruct (decide (q = p)) as [->|Hne].
    + rewrite lookup_insert_eq. by intros [= <-].
    + rewrite lookup_insert_ne by done. apply (wf_slot m W).
  - intros q. rewrite (al_all _ _ _ _ A), (al_segments _ _ _ _ A).
    rewrite elem_of_app, list_elem_of_singleton, (wf_all m W).
    destruct (decide (q = p)) as [->|Hne].
    + rewrite lookup_insert_eq. split; eauto.
    + rewrite lookup_insert_ne by done. tauto.
  - rewrite (al_all _ _ _ _ A). apply list.NoDup_app.
    split; [apply (wf_all_nodup m W)|]. split; [|apply NoDup_singleton].
    intros q Hq Hq'. apply list_elem_of_singleton in Hq'. subst.
    apply (wf_all m W) in Hq. rewrite Hp in Hq. by destruct Hq.
Qed.

Lemma alloc_spec type m :
  WF m →
  ∃ m1, freeUnreferencedSegments m = Ok tt m1 ∧ FreedAll (reclaimed m) m m1 ∧ WF m1 ∧
        alloc type m
        = (ok ← mayAlloc type; if negb ok then mret None else newSegment type) m1.
Proof.
  intros W. destruct (freeUnreferencedSegments_spec m W) as (m1 & Hrun & F).
  exists m1. split_and!; [done|done|by eapply FreedAll_WF|].
  unfold alloc. by erewrite bind_Ok by exact Hrun.
Qed.

(** ** Appends, the header and the digest *)

Lemma WF_set_segment m p s s' :
  WF m → segments m !! p = Some s → slot s' = slot s →
  WF (set_segments (λ segs, <[p := s']> segs) m).
Proof.
  intros W Hs Hsl. split; cbn; try apply W.
  - intros q. rewrite <- (wf_occupied m W q).
    destruct (decide (q = p)) as [->|Hne].
    + rewrite lookup_insert_eq, Hs. split; eauto.
    + by rewrite lookup_insert_ne.
  - intros q t. destruct (decide (q = p)) as [->|Hne].
    + rewrite lookup_insert_eq. intros [= <-]. rewrite Hsl. by apply (wf_slot m W).
    + rewrite lookup_insert_ne by done. apply (wf_slot m W).
  - intros q. rewrite (wf_all m W q).
    destruct (decide (q = p)) as [->|Hne].
    + rewrite lookup_insert_eq, Hs. split; eauto.
    + by rewrite lookup_insert_ne.
Qed.

Lemma WF_replica m f : WF m → WF (set_replicaManager f m).
Proof. intros W. split; cbn; apply W. Qed.

Lemma idsOf_app segs l k : idsOf segs (l ++ k) = idsOf segs l ++ idsOf segs k.
Proof. apply omap_app. Qed.

Lemma addSegmentIds_Ok m :
  ∀ l d, (∀ p, p ∈ l → is_Some (segments m !! p)) →
         addSegmentIds l d m = Ok (d ++ idsOf (segments m) l) m.
Proof.
  unfold addSegmentIds. induction l as [|p l IH]; intros d Hocc; cbn.
  - by rewrite app_nil_r.
  - destruct (Hocc p) as [s Hs]; [by left|].
    rewrite bind_run. erewrite (bind_Ok (deref p)) by (by apply deref_Ok).
    cbn. rewrite IH by (intros q Hq; apply Hocc; by right).
    by rewrite Hs, <- app_assoc.
Qed.

Section Appends.
Variable appendFits : LogSegment → LogEntry → bool.
Variable INVALID_SEGMENT_ID : Z.

Lemma append_run m p s e :
  segments m !! p = Some s →
  append appendFits p e m =
    if refused appendFits s e then Ok false m else Ok true (appended p s e m).
Proof.
  intros Hs. unfold append, refused.
  erewrite bind_Ok by (by apply deref_Ok).
  by destruct (appendsDisabled s || negb (appendFits s e)).
Qed.

Lemma writeHeader_run m p s h :
  segments m !! p = Some s →
  writeHeader appendFits p h m =
    let header := LOG_ENTRY_TYPE_SEGHEADER (logId m) (id s) (segmentSize (allocator m)) h in
    if refused appendFits s header then Err FatalError
    else Ok tt (appended p s header m).
Proof.
  intros Hs. unfold writeHeader.
  erewrite bind_Ok by (by apply deref_Ok).
  rewrite bind_run. cbn [gets].
  rewrite bind_run, (append_run m p s) by done. cbv zeta.
  by destruct (refused _ _ _).
Qed.

Lemma writeDigest_run m p s prev :
  WF m → segments m !! p = Some s →
  (∀ q, prev = Some q → is_Some (segments m !! q)) →
  ∃ m1, DigestMoves m m1 ∧
    writeDigest appendFits p prev m =
      if refused appendFits s (LOG_ENTRY_TYPE_LOGDIGEST (digestOf m p prev))
      then Err FatalError
      else Ok tt (appended p s (LOG_ENTRY_TYPE_LOGDIGEST (digestOf m p prev)) m1).
Proof.
  intros W Hs Hprev.
  assert (∀ x q, q ∈ segmentsByState m x → is_Some (segments m !! q)) as Hocc.
  { intros x q Hq. apply (wf_lists m W) in Hq. apply (wf_occupied m W). eauto. }
  assert (idsOf (segments m) [p] = [id s]) as Hnh.
  { unfold idsOf. cbn. by rewrite Hs. }
  unfold writeDigest, DigestMoves, digestOf.
  rewrite bind_run. cbn [gets].
  destruct (logIteratorCount m =? 0) eqn:Hc.
  - destruct (drain_spec CLEANABLE_PENDING_DIGEST NEWLY_CLEANABLE m W)
      as (m1 & Hrun1 & D1); [done|].
    destruct (drain_spec FREEABLE_PENDING_DIGEST_AND_REFERENCES
                FREEABLE_PENDING_REFERENCES m1 (dr_WF _ _ _ _ D1))
      as (m2 & Hrun2 & D2); [done|].
    exists m2. split; [eauto|].
    erewrite bind_Ok by exact Hrun1.
    rewrite bind_run. cbn [gets].
    rewrite (Drained_other _ _ _ _ CLEANABLE D1) by done.
    rewrite bind_run, addSegmentIds_Ok; last first.
    { intros q Hq. rewrite (dr_segments _ _ _ _ D1). eapply Hocc; eauto. }
    rewrite bind_run. cbn [gets].
    rewrite (Drained_to _ _ _ _ D1) by done.
    rewrite bind_run, addSegmentIds_Ok; last first.
    { intros q. rewrite (dr_segments _ _ _ _ D1), elem_of_app.
      intros [?|?]; eapply Hocc; eauto. }
    rewrite !(dr_segments _ _ _ _ D1).
    assert (∀ d, (match prev with
                  | Some q => s0 ← deref q; mret (d ++ [id s0])
                  | None => mret d
                  end) m1 = Ok (d ++ idsOf (segments m) (option_list prev)) m1) as Hp.
    { intros d. destruct prev as [q|]; cbn.
      - destruct (Hprev q eq_refl) as [t Ht].
        erewrite bind_Ok by (apply deref_Ok; rewrite (dr_segments _ _ _ _ D1); done).
        unfold idsOf. cbn. by rewrite Ht.
      - by rewrite app_nil_r. }
    rewrite bind_run, Hp.
    erewrite bind_Ok by (apply deref_Ok; rewrite (dr_segments _ _ _ _ D1); done).
    rewrite bind_run. erewrite (bind_Ok (drain _ _)) by exact Hrun2.
    cbn [mret M_ret].
    rewrite bind_run, (append_run m2 p s); last first.
    { by rewrite (dr_segments _ _ _ _ D2), (dr_segments _ _ _ _ D1). }
    cbn [app]. rewrite ?app_nil_r, <- ?app_assoc, Hnh.
    by destruct (refused _ _ _).
  - exists m. split; [done|].
    rewrite bind_run. cbn [mret M_ret].
    rewrite bind_run. cbn [gets].
    rewrite bind_run, addSegmentIds_Ok by apply Hocc.
    rewrite bind_run. cbn [gets].
    rewrite bind_run, addSegmentIds_Ok by apply Hocc.
    assert (∀ d, (match prev with
                  | Some q => s0 ← deref q; mret (d ++ [id s0])
                  | None => mret d
                  end) m = Ok (d ++ idsOf (segments m) (option_list prev)) m) as Hp.
    { intros d. destruct prev as [q|]; cbn.
      - destruct (Hprev q eq_refl) as [t Ht].
        erewrite bind_Ok by (by apply deref_Ok).
        unfold idsOf. cbn. by rewrite Ht.
      - by rewrite app_nil_r. }
    rewrite bind_run, Hp.
    erewrite bind_Ok by (by apply deref_Ok).
    rewrite bind_run. rewrite bind_run. cbn [gets].
    rewrite addSegmentIds_Ok by apply Hocc.
    rewrite bind_run, (append_run m p s) by done.
    cbn [app]. rewrite ?app_nil_r, <- ?app_assoc, Hnh.
    by destruct (refused _ _ _).
Qed.

End Appends.

(** ** Installing a head *)

Lemma idsOf_ext segs segs' l :
  (∀ q, id <$> segs' !! q = id <$> segs !! q) → idsOf segs' l = idsOf segs l.
Proof.
  intros H. unfold idsOf. induction l as [|a l IH]; [done|]. cbn. by rewrite H, IH.
Qed.

Lemma lookup_set_segment_id (segs : gmap nat LogSegment) p s s' q :
  segs !! p = Some s → id s' = id s →
  id <$> (<[p := s']> segs) !! q = id <$> segs !! q.
Proof.
  intros Hs Hid. destruct (decide (q = p)) as [->|Hne].
  - rewrite lookup_insert_eq, Hs. cbn. by rewrite Hid.
  - by rewrite lookup_insert_ne.
Qed.

Lemma digestOf_appended m p s e q prev :
  segments m !! p = Some s →
  digestOf (appended p s e m) q prev = digestOf m q prev.
Proof.
  intros Hs.
  assert (∀ l, idsOf (segments (appended p s e m)) l = idsOf (segments m) l) as H.
  { intros l. apply idsOf_ext. intros q'. cbn. by eapply lookup_set_segment_id. }
  unfold digestOf. by rewrite !H.
Qed.

Lemma installedSegment_eq s h d :
  let s' := if isEmergencyHead s
            then set_appendsDisabled true
                   (set_entries (λ es, es ++ [d]) (set_entries (λ es, es ++ [h]) s))
            else set_entries (λ es, es ++ [d]) (set_entries (λ es, es ++ [h]) s) in
  set_replicatedSegment (Some (id s')) s' = installedSegment s h d.
Proof.
  destruct s as [i sl em ce sa es ad rs]. unfold installedSegment. cbn.
  destruct em; unfold set_replicatedSegment, set_appendsDisabled, set_entries; cbn;
    rewrite <- ?app_assoc, ?orb_true_r, ?orb_false_r; reflexivity.
Qed.

Section Install.
Variable appendFits : LogSegment → LogEntry → bool.
Variable INVALID_SEGMENT_ID : Z.

Lemma openReplica_run m p x prev :
  segments m !! p = Some x →
  (∀ q, prev = Some q → is_Some (segments m !! q)) →
  openReplica prev p m =
    Ok tt (set_segments (λ segs, <[p := set_replicatedSegment (Some (id x)) x]> segs)
             (set_replicaManager
                (λ t, t ++ [AllocateHead (id x) (prevReplica (segments m) prev)]) m)).
Proof.
  intros Hx Hprev. unfold openReplica.
  assert ((match prev with
           | Some q => s ← deref q; mret (replicatedSegment s)
           | None => mret None
           end) m = Ok (prevReplica (segments m) prev) m) as Hp.
  { destruct prev as [q|]; [|done]. destruct (Hprev q eq_refl) as [t Ht].
    erewrite bind_Ok by (by apply deref_Ok). cbn. by rewrite Ht. }
  rewrite bind_run, Hp.
  erewrite bind_Ok by (by apply deref_Ok). reflexivity.
Qed.

Lemma retireHead_run m q t :
  segments m !! q = Some t →
  retireHead (Some q) m =
    match replicatedSegment t with
    | Some r =>
        (if isEmergencyHead t then free q else changeState q NEWLY_CLEANABLE)
          (set_replicaManager (λ l, (l ++ [Close r]) ++ [Sync r (length (entries t))]) m)
    | None => Err InvalidPointer
    end.
Proof.
  intros Ht. unfold retireHead. erewrite bind_Ok by (by apply deref_Ok).
  by destruct (replicatedSegment t).
Qed.

Lemma installHead_run m p nh prev :
  WF m → segments m !! p = Some nh →
  (∀ q, prev = Some q → q ≠ p ∧ is_Some (segments m !! q)) →
  let header := headerOf m nh INVALID_SEGMENT_ID in
  let digest := LOG_ENTRY_TYPE_LOGDIGEST (headDigest m p prev) in
  ∃ m2 m3 m',
    DigestMoves (appended p nh header m) m2 ∧
    Staged p (installedSegment nh header digest)
      (headReplication (segments m) (id nh) prev) m2 m3 ∧
    Retired prev m3 m' ∧
    installHead appendFits INVALID_SEGMENT_ID prev p m =
      if refused appendFits nh header then Err FatalError
      else if refused appendFits (set_entries (λ es, es ++ [header]) nh) digest
           then Err FatalError
           else match prev with
                | Some q => if prevReplica (segments m) prev is Some _
                            then Ok (Some p) m' else Err InvalidPointer
                | None => Ok (Some p) m'
                end.
Proof.
  intros W Hnh Hprev header digest. unfold headerOf in header.
  set (nh1 := set_entries (λ es, es ++ [header]) nh).
  set (m1 := appended p nh header m).
  assert (WF m1) as W1 by (by eapply WF_set_segment).
  assert (segments m1 !! p = Some nh1) as Hnh1 by apply lookup_insert_eq.
  assert (∀ q, prevInDigest (segments m) prev = Some q → is_Some (segments m1 !! q)) as Hpd.
  { intros q Hq. unfold prevInDigest in Hq. destruct prev as [q'|]; [|done].
    destruct (Hprev q' eq_refl) as [Hne [t Ht]]. rewrite Ht in Hq.
    destruct (isEmergencyHead t); [done|]. injection Hq as <-.
    cbn. rewrite lookup_insert_ne by done. eauto. }
  destruct (writeDigest_run appendFits m1 p nh1 (prevInDigest (segments m) prev) W1 Hnh1 Hpd)
    as (m2 & DM & Hwd).
  rewrite (digestOf_appended m p nh header) in Hwd by done.
  fold (headDigest m p prev) in Hwd. fold digest in Hwd.
  assert (segments m2 = segments m1 ∧ WF m2) as [Hseg2 W2].
  { unfold DigestMoves in DM. destruct (logIteratorCount m1 =? 0).
    - destruct DM as (m' & D1 & D2). split; [|apply (dr_WF _ _ _ _ D2)].
      by rewrite (dr_segments _ _ _ _ D2), (dr_segments _ _ _ _ D1).
    - by subst. }
  (* the new head after the digest and, for an emergency head, disableAppends *)
  set (nh2 := set_entries (λ es, es ++ [digest]) nh1).
  set (m2a := appended p nh1 digest m2).
  set (nh3 := if isEmergencyHead nh then set_appendsDisabled true nh2 else nh2).
  set (m2b := if isEmergencyHead nh
              then set_segments (λ segs, <[p := set_appendsDisabled true nh2]> segs) m2a
              else m2a).
  assert (segments m2b !! p = Some nh3) as Hnh3.
  { unfold m2b, nh3. destruct (isEmergencyHead nh); apply lookup_insert_eq. }
  assert (∀ q, q ≠ p → segments m2b !! q = segments m !! q) as Hother.
  { intros q Hne. unfold m2b. destruct (isEmergencyHead nh); cbn;
      rewrite ?lookup_insert_ne by done; rewrite Hseg2; cbn; by rewrite lookup_insert_ne. }
  assert (prevReplica (segments m2b) prev = prevReplica (segments m) prev) as Hpr.
  { destruct prev as [q|]; [|done]. cbn. destruct (Hprev q eq_refl) as [Hne _].
    by rewrite Hother. }
  assert (deref p m2a = Ok nh2 m2a) as Hnh2 by (apply deref_Ok, lookup_insert_eq).
  assert ((if isEmergencyHead nh2 then
             modify (set_segments (λ segs, <[p := set_appendsDisabled true nh2]> segs))
           else mret tt) m2a = Ok tt m2b) as Hdis.
  { unfold m2b. cbn [isEmergencyHead nh2 nh1 set_entries].
    by destruct (isEmergencyHead nh). }
  set (m2c := set_segments (λ segs, <[p := set_replicatedSegment (Some (id nh3)) nh3]> segs)
                (set_replicaManager
                   (λ t, t ++ [AllocateHead (id nh3) (prevReplica (segments m) prev)]) m2b)).
  assert (openReplica prev p m2b = Ok tt m2c) as Hopen.
  { rewrite (openReplica_run m2b p nh3 prev Hnh3), Hpr; [done|].
    intros q ->. destruct (Hprev q eq_refl) as [Hne Hq]. by rewrite Hother. }
  assert (id nh3 = id nh) as Hid3 by (unfold nh3; by destruct (isEmergencyHead nh)).
  assert (set_replicatedSegment (Some (id nh3)) nh3 = installedSegment nh header digest)
    as HnhF.
  { unfold nh3, nh2, nh1. apply installedSegment_eq. }
  assert (segments m2c = <[p := installedSegment nh header digest]> (segments m2)) as Hseg2c.
  { unfold m2c, m2b. rewrite HnhF.
    destruct (isEmergencyHead nh); cbn; by rewrite !insert_insert_eq. }
  assert (WF m2a) as W2a.
  { eapply WF_set_segment; [done|by rewrite Hseg2|done]. }
  assert (WF m2c) as W2c.
  { eapply WF_set_segment; [apply WF_replica| |].
    - unfold m2b. destruct (isEmergencyHead nh); [|done].
      eapply WF_set_segment; [done|apply lookup_insert_eq|done].
    - exact Hnh3.
    - done. }
  assert (besidesSegments m2c = besidesSegments m2) as Hrest2c.
  { unfold m2c, m2b. by destruct (isEmergencyHead nh). }
  assert (replicaManager m2c
          = replicaManager m2 ++ [AllocateHead (id nh) (prevReplica (segments m) prev)])
    as Hrep2c.
  { unfold m2c, m2b. rewrite Hid3. by destruct (isEmergencyHead nh). }
  unfold installHead.
  rewrite bind_run, (writeHeader_run appendFits m p nh) by done. cbv zeta.
  fold header. fold m1.
  destruct (refused appendFits nh header) eqn:Hr1.
  { (* the header is turned down: any staging will do *)
    destruct prev as [q|].
    - destruct (Hprev q eq_refl) as [Hne [t Ht]].
      assert (segments m2c !! q = Some t) as Ht3.
      { rewrite Hseg2c, lookup_insert_ne by done. rewrite Hseg2. cbn.
        by rewrite lookup_insert_ne. }
      set (m3 := set_replicaManager
                   (λ l, l ++ match replicatedSegment t with
                              | Some r => [Close r; Sync r (length (entries t))]
                              | None => []
                              end) m2c).
      assert (WF m3) as W3 by (by apply WF_replica).
      assert (∃ m', Retired (Some q) m3 m') as [m' Hret].
      { cbn. destruct (isEmergencyHead t) eqn:He.
        - destruct (free_spec m3 q t W3 Ht3) as (m' & _ & F). exists m', t. by rewrite He.
        - destruct (changeState_spec m3 q t NEWLY_CLEANABLE W3 Ht3) as (m' & _ & R).
          exists m', t. by rewrite He. }
      exists m2, m3, m'. split_and!; [done| |done..].
      split; [done|done|]. unfold m3. cbn [replicaManager set_replicaManager]. rewrite Hrep2c.
      unfold headReplication, prevReplica. rewrite Ht, <- app_assoc. done.
    - exists m2, m2c, m2c. split_and!; [done| |done..].
      split; [done|done|]. by rewrite Hrep2c. }
  destruct prev as [q|].
  - destruct (Hprev q eq_refl) as [Hne [t Ht]].
    assert (segments m1 !! q = Some t) as Ht1.
    { cbn. by rewrite lookup_insert_ne. }
    assert (segments m2c !! q = Some t) as Ht3.
    { rewrite Hseg2c, lookup_insert_ne by done. rewrite Hseg2. cbn.
      by rewrite lookup_insert_ne. }
    set (m3 := set_replicaManager
                 (λ l, l ++ match replicatedSegment t with
                            | Some r => [Close r; Sync r (length (entries t))]
                            | None => []
                            end) m2c).
    assert (WF m3) as W3 by (by apply WF_replica).
    assert (∃ m', Retired (Some q) m3 m' ∧
                  (if isEmergencyHead t then free q else changeState q NEWLY_CLEANABLE) m3
                  = Ok tt m') as (m' & Hret & Hrun).
    { cbn. destruct (isEmergencyHead t) eqn:He.
      - destruct (free_spec m3 q t W3 Ht3) as (m' & Hrun & F). exists m'. split; [|done].
        exists t. by rewrite He.
      - destruct (changeState_spec m3 q t NEWLY_CLEANABLE W3 Ht3) as (m' & Hrun & R).
        exists m'. split; [|done]. exists t. by rewrite He. }
    exists m2, m3, m'. split_and!; [done| |done|].
    { split; [done|done|]. unfold m3. cbn [replicaManager set_replicaManager]. rewrite Hrep2c.
      unfold headReplication, prevReplica. rewrite Ht, <- app_assoc. done. }
    rewrite bind_run. erewrite (bind_Ok (deref q)) by (by apply deref_Ok).
    cbn [mret M_ret].
    assert (prevInDigest (segments m) (Some q)
            = if negb (isEmergencyHead t) then Some q else None) as Hpq.
    { cbn. rewrite Ht. by destruct (isEmergencyHead t). }
    rewrite Hpq in Hwd.
    rewrite bind_run.
    assert ((if negb (isEmergencyHead t)
             then writeDigest appendFits p (Some q)
             else writeDigest appendFits p None) m1
            = writeDigest appendFits p (if negb (isEmergencyHead t) then Some q else None) m1)
      as -> by (by destruct (isEmergencyHead t)).
    rewrite Hwd. fold nh1.
    destruct (refused appendFits nh1 digest); [done|]. fold m2a.
    erewrite bind_Ok by exact Hnh2. rewrite bind_run, Hdis.
    erewrite bind_Ok by exact Hopen.
    rewrite bind_run, (retireHead_run m2c q t Ht3).
    cbn [prevReplica]. rewrite Ht.
    destruct (replicatedSegment t) as [r|] eqn:Hrs; [|done].
    assert (set_replicaManager (λ l, (l ++ [Close r]) ++ [Sync r (length (entries t))]) m2c
            = m3) as ->.
    { unfold m3, set_replicaManager. f_equal. by rewrite <- app_assoc. }
    by rewrite Hrun.
  - exists m2, m2c, m2c. split_and!; [done| |done|].
    { split; [done|done|]. by rewrite Hrep2c. }
    cbn [prevInDigest] in Hwd.
    rewrite bind_run. cbn [mret M_ret]. rewrite bind_run, Hwd. fold nh1.
    destruct (refused appendFits nh1 digest); [done|]. fold m2a.
    erewrite bind_Ok by exact Hnh2. rewrite bind_run, Hdis.
    erewrite bind_Ok by exact Hopen. reflexivity.
Qed.

End Install.

(** ** Consequences of a head installation *)

Lemma besidesSegments_lists m m' :
  besidesSegments m' = besidesSegments m →
  states m' = states m ∧ allSegments m' = allSegments m ∧
  segmentsByState m' = segmentsByState m ∧ logIteratorCount m' = logIteratorCount m ∧
  nextSegmentId m' = nextSegmentId m ∧ freeSlots m' = freeSlots m ∧
  idToSlotMap m' = idToSlotMap m ∧ allocator m' = allocator m ∧ rpcPool m' = rpcPool m.
Proof. unfold besidesSegments. intros [=]. by split_and!. Qed.

Lemma Staged_WF p s x ops m m' :
  WF m → segments m !! p = Some x → slot s = slot x → Staged p s ops m m' → WF m'.
Proof.
  intros W Hx Hsl [Hrest Hseg _].
  destruct (besidesSegments_lists _ _ Hrest) as (Hst & Hall & Hl & _).
  pose proof (WF_set_segment m p x s W Hx Hsl) as W'.
  split; rewrite ?Hl, ?Hst, ?Hall, ?Hseg; apply W'.
Qed.

Lemma DigestMoves_WF m m' : WF m → DigestMoves m m' → WF m'.
Proof.
  intros W DM. unfold DigestMoves in DM. destruct (logIteratorCount m =? 0).
  - destruct DM as (m1 & _ & D2). apply (dr_WF _ _ _ _ D2).
  - by subst.
Qed.

Lemma DigestMoves_segments m m' :
  DigestMoves m m' → segments m' = segments m ∧ others m' = others m.
Proof.
  intros DM. unfold DigestMoves in DM. destruct (logIteratorCount m =? 0).
  - destruct DM as (m1 & D1 & D2).
    rewrite (dr_segments _ _ _ _ D2), (dr_segments _ _ _ _ D1).
    by rewrite (dr_others _ _ _ _ D2), (dr_others _ _ _ _ D1).
  - by subst.
Qed.

(** The per-state lists after the transitions of a digest write. *)
Lemma DigestMoves_lists m m' z :
  DigestMoves m m' →
  segmentsByState m' z =
    if logIteratorCount m =? 0 then
      match z with
      | CLEANABLE_PENDING_DIGEST | FREEABLE_PENDING_DIGEST_AND_REFERENCES => []
      | NEWLY_CLEANABLE =>
          segmentsByState m NEWLY_CLEANABLE ++ segmentsByState m CLEANABLE_PENDING_DIGEST
      | FREEABLE_PENDING_REFERENCES =>
          segmentsByState m FREEABLE_PENDING_REFERENCES
          ++ segmentsByState m FREEABLE_PENDING_DIGEST_AND_REFERENCES
      | _ => segmentsByState m z
      end
    else segmentsByState m z.
Proof.
  intros DM. unfold DigestMoves in DM. destruct (logIteratorCount m =? 0); [|by subst].
  destruct DM as (m1 & D1 & D2). destruct z.
  - by rewrite (Drained_other _ _ _ _ _ D2), (Drained_other _ _ _ _ _ D1).
  - by rewrite (Drained_other _ _ _ _ _ D2), (Drained_other _ _ _ _ _ D1).
  - by rewrite (Drained_other _ _ _ _ _ D2), (Drained_from _ _ _ _ D1).
  - by rewrite (Drained_other _ _ _ _ _ D2), (Drained_to _ _ _ _ D1).
  - by rewrite (Drained_other _ _ _ _ _ D2), (Drained_other _ _ _ _ _ D1).
  - by rewrite (Drained_from _ _ _ _ D2).
  - rewrite (Drained_to _ _ _ _ D2) by done.
    by rewrite !(Drained_other _ _ _ _ _ D1).
Qed.

Lemma Retired_WF prev m m' : WF m → Retired prev m m' → WF m'.
Proof.
  intros W R. destruct prev as [q|]; cbn in R; [|by subst].
  destruct R as (s & Hs & R). destruct (isEmergencyHead s).
  - by eapply Freed_WF.
  - by eapply Relinked_WF.
Qed.

(** The per-state lists after the previous head was retired. *)
Lemma Retired_lists q s m m' z :
  segments m !! q = Some s → Retired (Some q) m m' →
  segmentsByState m' z =
    erase q (segmentsByState m z)
    ++ (if decide (z = NEWLY_CLEANABLE) then (if isEmergencyHead s then [] else [q]) else []).
Proof.
  intros Hs (s' & Hs' & R). rewrite Hs in Hs'. injection Hs' as <-.
  destruct (isEmergencyHead s).
  - rewrite (fr_lists _ _ _ _ R). case_decide; by rewrite app_nil_r.
  - by rewrite (rl_lists _ _ _ _ R).
Qed.

Lemma Retired_segments q m m' p :
  p ≠ q → Retired (Some q) m m' → segments m' !! p = segments m !! p.
Proof.
  intros Hne (s & Hs & R). destruct (isEmergencyHead s).
  - by rewrite (fr_segments _ _ _ _ R), lookup_delete_ne.
  - by rewrite (rl_segments _ _ _ _ R).
Qed.

Lemma WF_disjoint m q x z :
  WF m → q ∈ segmentsByState m x → q ∈ segmentsByState m z → x = z.
Proof. intros W Hx Hz. apply (wf_lists m W) in Hx, Hz. congruence. Qed.

Lemma WF_listed_occupied m q x :
  WF m → q ∈ segmentsByState m x → is_Some (segments m !! q).
Proof. intros W Hq. apply (wf_lists m W) in Hq. apply (wf_occupied m W). eauto. Qed.

Lemma reclaimed_pending m q :
  q ∈ reclaimed m → q ∈ segmentsByState m FREEABLE_PENDING_REFERENCES.
Proof.
  unfold reclaimed. rewrite (list_elem_of_filter (λ p, Is_true (cleanedBefore _ _ p))).
  tauto.
Qed.

Lemma swept_lists m m1 z :
  WF m → FreedAll (reclaimed m) m m1 →
  segmentsByState m1 z =
    if decide (z = FREEABLE_PENDING_REFERENCES)
    then filter (λ q, q ∉ reclaimed m) (segmentsByState m FREEABLE_PENDING_REFERENCES)
    else segmentsByState m z.
Proof.
  intros W F. destruct (FreedAll_lists _ _ _ F) as (Hl & _). rewrite Hl.
  case_decide as Hz; [by subst|]. apply filter_notin_disjoint.
  intros q Hq Hr. apply reclaimed_pending in Hr. apply Hz. by eapply WF_disjoint.
Qed.

Lemma swept_segments m m1 q x :
  WF m → FreedAll (reclaimed m) m m1 → q ∈ segmentsByState m x →
  x ≠ FREEABLE_PENDING_REFERENCES → segments m1 !! q = segments m !! q.
Proof.
  intros W F Hq Hx. rewrite (FreedAll_segments _ _ _ q F), decide_False; [done|].
  intros Hr. apply reclaimed_pending in Hr. apply Hx. by eapply WF_disjoint.
Qed.

Lemma reclaimed_swept m m1 :
  WF m → FreedAll (reclaimed m) m m1 → reclaimed m1 = [].
Proof.
  intros W F. unfold reclaimed at 1.
  destruct (FreedAll_fixed _ _ _ F) as [Hfix _].
  assert (rpcPool m1 = rpcPool m) as -> by (unfold fixed in Hfix; by injection Hfix).
  rewrite (swept_lists m m1 _ W F), decide_True by done.
  set (e := earliestOutstandingEpoch (rpcPool m)).
  apply filter_notin_sub_gen. intros q Hq.
  apply (list_elem_of_filter (λ q, q ∉ reclaimed m)) in Hq as [Hnr Hq].
  unfold cleanedBefore. rewrite (FreedAll_segments _ _ _ q F), decide_False by done.
  intros Hc. apply Hnr. unfold reclaimed.
  apply (list_elem_of_filter (λ p, Is_true (cleanedBefore _ _ p))). split; [|done].
  exact Hc.
Qed.

Lemma mayAlloc_state type m b m' : mayAlloc type m = Ok b m' → m' = m.
Proof.
  unfold mayAlloc. rewrite bind_run. cbn [gets]. cbv zeta. intros H.
  repeat (apply bind_inv in H as ([] & ? & H1 & H); apply assert_inv in H1 as [_ ->]).
  destruct type; [destruct (_ <=? _)| |destruct (_ =? _)];
    repeat (apply bind_inv in H as ([] & ? & H1 & H); apply assert_inv in H1 as [_ ->]);
    by apply ret_inv in H as [_ ?].
Qed.

(** [alloc] either reports that admission was denied, having run the
    reclamation scan, or constructs a segment after the scan. *)
Lemma alloc_inv type m r m' :
  WF m → alloc type m = Ok r m' →
  ∃ m1, freeUnreferencedSegments m = Ok tt m1 ∧ FreedAll (reclaimed m) m m1 ∧ WF m1 ∧
    ((r = None ∧ m' = m1 ∧ mayAlloc type m1 = Ok false m1) ∨
     (∃ p, r = Some p ∧ mayAlloc type m1 = Ok true m1 ∧ Allocated type p m1 m')).
Proof.
  intros W H. destruct (alloc_spec type m W) as (m1 & Hscan & F & W1 & Heq).
  rewrite Heq in H. clear Heq. exists m1. split_and!; [done..|].
  apply bind_inv in H as (ok & m1' & Hma & H).
  pose proof (mayAlloc_state _ _ _ _ Hma) as ->.
  destruct ok; cbn [negb] in H.
  - right. destruct (newSegment_inv _ _ _ _ H) as (p & -> & Hl & Hp).
    destruct (newSegment_spec type m1 p Hl Hp) as (ma & Hrun & A).
    rewrite Hrun in H. injection H as <-. by exists p.
  - left. by injection H as <- <-.
Qed.

Lemma getHeadSegment_run m :
  (length (segmentsByState m HEAD) ≤ 1)%nat →
  getHeadSegment m = Ok (head (segmentsByState m HEAD)) m.
Proof.
  intros Hl. unfold getHeadSegment. rewrite bind_run. cbn [gets].
  destruct (segmentsByState m HEAD) as [|q [|q' l]]; [done| |cbn in Hl; lia].
  by erewrite bind_Ok by (by apply assert_Ok).
Qed.

Lemma getHeadSegment_inv m r m' :
  getHeadSegment m = Ok r m' →
  m' = m ∧ (length (segmentsByState m HEAD) ≤ 1)%nat ∧ r = head (segmentsByState m HEAD).
Proof.
  unfold getHeadSegment. rewrite bind_run. cbn [gets].
  destruct (segmentsByState m HEAD) as [|q l] eqn:Hl.
  - intros [= <- <-]. cbn. split_and!; [done|lia|done].
  - intros H. apply bind_inv in H as ([] & m1 & H1 & H).
    apply assert_inv in H1 as [Hlen ->]. apply bool_decide_eq_true in Hlen.
    injection H as <- <-. cbn in *. split_and!; [done|lia|done].
Qed.

Section InstallFacts.
Variable appendFits : LogSegment → LogEntry → bool.
Variable INVALID_SEGMENT_ID : Z.

Lemma installHead_inv m p nh prev r m' :
  WF m → segments m !! p = Some nh →
  (∀ q, prev = Some q → q ≠ p ∧ is_Some (segments m !! q)) →
  installHead appendFits INVALID_SEGMENT_ID prev p m = Ok r m' →
  let header := headerOf m nh INVALID_SEGMENT_ID in
  let digest := LOG_ENTRY_TYPE_LOGDIGEST (headDigest m p prev) in
  r = Some p ∧
  ∃ m2 m3,
    DigestMoves (appended p nh header m) m2 ∧
    Staged p (installedSegment nh header digest)
      (headReplication (segments m) (id nh) prev) m2 m3 ∧
    Retired prev m3 m'.
Proof.
  intros W Hnh Hprev Hrun header digest.
  destruct (installHead_run appendFits INVALID_SEGMENT_ID m p nh prev W Hnh Hprev)
    as (m2 & m3 & m'' & DM & St & Ret & Heq).
  rewrite Heq in Hrun. clear Heq. cbv zeta in Hrun.
  destruct (refused appendFits nh _); [done|].
  destruct (refused appendFits _ _); [done|].
  assert (Ok (Some p) m'' = Ok r m') as Hok.
  { destruct prev as [q|]; [|done]. by destruct (prevReplica _ _). }
  injection Hok as <- <-. split; [done|]. by exists m2, m3.
Qed.

Lemma allocHead_inv m b r m' :
  WF m → allocHead appendFits INVALID_SEGMENT_ID b m = Ok r m' →
  (length (segmentsByState m HEAD) ≤ 1)%nat ∧
  ∃ m1, freeUnreferencedSegments m = Ok tt m1 ∧ FreedAll (reclaimed m) m m1 ∧ WF m1 ∧
    ((r = None ∧ m' = m1 ∧ b = false ∧
      segmentsByState m FREEABLE_PENDING_DIGEST_AND_REFERENCES = [] ∧
      mayAlloc ALLOC_HEAD m1 = Ok false m1) ∨
     (∃ type p ma,
        r = Some p ∧ type ≠ ALLOC_SURVIVOR ∧
        (type = ALLOC_EMERGENCY_HEAD →
           mayAlloc ALLOC_HEAD m1 = Ok false m1 ∧
           (b = true ∨ segmentsByState m FREEABLE_PENDING_DIGEST_AND_REFERENCES ≠ [])) ∧
        mayAlloc type m1 = Ok true m1 ∧
        Allocated type p m1 ma ∧
        installHead appendFits INVALID_SEGMENT_ID (head (segmentsByState m HEAD)) p ma
        = Ok (Some p) m')).
Proof.
  intros W H. unfold allocHead in H.
  apply bind_inv in H as (prev & m0 & Hg & H).
  apply getHeadSegment_inv in Hg as (-> & Hlen & ->). split; [done|].
  apply bind_inv in H as (newHead & mx & Halloc & H).
  destruct (alloc_inv _ _ _ _ W Halloc) as (m1 & Hscan & F & W1 & Hcase).
  exists m1. split_and!; [done..|].
  assert (segmentsByState m1 FREEABLE_PENDING_DIGEST_AND_REFERENCES
          = segmentsByState m FREEABLE_PENDING_DIGEST_AND_REFERENCES) as Hfp.
  { by rewrite (swept_lists m m1 _ W F), decide_False. }
  destruct Hcase as [(-> & -> & Hma)|(p & -> & Hma & A)].
  - rewrite bind_run in H. cbn [gets] in H. rewrite Hfp in H.
    destruct (b || bool_decide (0 < length _)%nat) eqn:Hcond.
    + right. apply bind_inv in H as (newHead & mx & Halloc2 & H).
      destruct (alloc_inv _ _ _ _ W1 Halloc2) as (m1' & _ & F' & _ & Hcase).
      rewrite (reclaimed_swept m m1 W F) in F'. cbn in F'. subst m1'.
      destruct Hcase as [(-> & -> & _)|(p & -> & Hma2 & A)]; [done|].
      exists ALLOC_EMERGENCY_HEAD, p, mx.
      assert (r = Some p) as ->.
      { pose proof (al_segments _ _ _ _ A) as Hs.
        pose proof (Allocated_WF _ _ _ _ W1 A) as Wa.
        eapply (installHead_inv mx p); [done|rewrite Hs; apply lookup_insert_eq| |exact H].
        intros q Hq. apply head_Some_elem_of in Hq.
        assert (is_Some (segments m1 !! q)) as Hoc.
        { rewrite (swept_segments m m1 q HEAD W F Hq) by done.
          by eapply WF_listed_occupied. }
        assert (q ≠ p) as Hne.
        { intros ->. rewrite (al_fresh _ _ _ _ A) in Hoc. by destruct Hoc. }
        split; [done|]. by rewrite Hs, lookup_insert_ne. }
      split_and!; [done|done| |done..].
      intros _. split; [done|].
      apply orb_true_iff in Hcond as [->|Hn]; [by left|right].
      apply bool_decide_eq_true in Hn. intros Hnil. rewrite Hnil in Hn. cbn in Hn. lia.
    + left. injection H as <- <-.
      apply orb_false_iff in Hcond as [-> Hn]. split_and!; [done..| |done].
      apply bool_decide_eq_false in Hn.
      destruct (segmentsByState m FREEABLE_PENDING_DIGEST_AND_REFERENCES); [done|].
      cbn in Hn. lia.
  - right. exists ALLOC_HEAD, p, mx.
    assert (r = Some p) as ->.
    { pose proof (al_segments _ _ _ _ A) as Hs.
      pose proof (Allocated_WF _ _ _ _ W1 A) as Wa.
      eapply (installHead_inv mx p); [done|rewrite Hs; apply lookup_insert_eq| |exact H].
      intros q Hq. apply head_Some_elem_of in Hq.
      assert (is_Some (segments m1 !! q)) as Hoc.
      { rewrite (swept_segments m m1 q HEAD W F Hq) by done.
        by eapply WF_listed_occupied. }
      assert (q ≠ p) as Hne.
      { intros ->. rewrite (al_fresh _ _ _ _ A) in Hoc. by destruct Hoc. }
      split; [done|]. by rewrite Hs, lookup_insert_ne. }
    split_and!; done.
Qed.

Lemma idsOf_agree segs segs' (l : list nat) :
  (∀ q, q ∈ l → segs' !! q = segs !! q) → idsOf segs' l = idsOf segs l.
Proof.
  intros H. unfold idsOf. induction l as [|a l IH]; [done|]. cbn.
  rewrite H by (by left). by rewrite IH by (intros q Hq; apply H; by right).
Qed.

(** What a successful [allocHead] leaves behind. *)
Lemma allocHead_post m b p m' :
  WF m → allocHead appendFits INVALID_SEGMENT_ID b m = Ok (Some p) m' →
  WF m' ∧
  (∀ z, segmentsByState m' z = listsAfterAllocHead m p z) ∧
  logIteratorCount m' = logIteratorCount m ∧
  ∃ m1 type header,
    freeUnreferencedSegments m = Ok tt m1 ∧
    FreedAll (reclaimed m) m m1 ∧ type ≠ ALLOC_SURVIVOR ∧
    (type = ALLOC_EMERGENCY_HEAD →
       mayAlloc ALLOC_HEAD m1 = Ok false m1 ∧
       (b = true ∨ segmentsByState m FREEABLE_PENDING_DIGEST_AND_REFERENCES ≠ [])) ∧
    mayAlloc type m1 = Ok true m1 ∧
    segments m1 !! p = None ∧
    segments m' !! p =
      Some (installedSegment
              (construct (allocator m1) (nextSegmentId m) p
                 (bool_decide (type = ALLOC_EMERGENCY_HEAD)))
              header (LOG_ENTRY_TYPE_LOGDIGEST (expectedDigest m))).
Proof.
  intros W H.
  destruct (allocHead_inv m b _ m' W H)
    as (Hlen & m1 & Hscan & F & W1
        & [(? & _)|(type & p' & ma & Hp & Hty & Hem & Hma & A & Hin)]);
    [done|].
  injection Hp as <-.
  destruct (FreedAll_fixed _ _ _ F) as [Hfix Hnext].
  assert (logIteratorCount m1 = logIteratorCount m ∧ logId m1 = logId m) as [Hc1 Hlog1].
  { unfold fixed in Hfix. by injection Hfix. }
  assert (birthState type = HEAD) as Hbirth.
  { unfold birthState. by rewrite decide_False. }
  set (prev := head (segmentsByState m HEAD)) in *.
  set (nh := construct (allocator m1) (nextSegmentId m) p
               (bool_decide (type = ALLOC_EMERGENCY_HEAD))).
  pose proof (Allocated_WF _ _ _ _ W1 A) as Wa.
  assert (segments ma = <[p := nh]> (segments m1)) as Hsa.
  { rewrite (al_segments _ _ _ _ A). unfold nh. by rewrite Hnext. }
  assert (segments ma !! p = Some nh) as Hnh by (rewrite Hsa; apply lookup_insert_eq).
  (* segments on the lists of [m] other than the reclaimed ones are untouched *)
  assert (∀ q x, q ∈ segmentsByState m x → x ≠ FREEABLE_PENDING_REFERENCES →
                 q ≠ p ∧ segments ma !! q = segments m !! q) as Hkeep.
  { intros q x Hq Hx.
    pose proof (swept_segments m m1 q x W F Hq Hx) as Hq1.
    assert (q ≠ p) as Hne.
    { intros ->. rewrite (al_fresh _ _ _ _ A) in Hq1.
      destruct (WF_listed_occupied m p x W Hq) as [? Ho]. congruence. }
    split; [done|]. by rewrite Hsa, lookup_insert_ne. }
  assert (∀ q, prev = Some q → q ∈ segmentsByState m HEAD) as Hprevin.
  { intros q Hq. by apply head_Some_elem_of. }
  assert (∀ q, prev = Some q → q ≠ p ∧ is_Some (segments ma !! q)) as Hprev.
  { intros q Hq. destruct (Hkeep q HEAD (Hprevin q Hq)) as [Hne ->]; [done|].
    split; [done|]. eapply WF_listed_occupied; [done|by apply Hprevin]. }
  destruct (installHead_inv ma p nh prev _ m' Wa Hnh Hprev Hin) as (_ & m2 & m3 & DM & St & Ret).
  set (header := headerOf ma nh INVALID_SEGMENT_ID) in *.
  set (m1' := appended p nh header ma) in *.
  assert (WF m1') as W1' by (by eapply WF_set_segment).
  pose proof (DigestMoves_WF _ _ W1' DM) as W2.
  destruct (DigestMoves_segments _ _ DM) as [Hs2 Ho2].
  assert (WF m3) as W3.
  { refine (Staged_WF _ _ (set_entries (λ es, es ++ [header]) nh) _ _ _ W2 _ _ St);
      [|reflexivity].
    rewrite Hs2. apply lookup_insert_eq. }
  pose proof (Retired_WF _ _ _ W3 Ret) as W'.
  destruct (besidesSegments_lists _ _ (sg_rest _ _ _ _ _ St))
    as (_ & _ & Hl3 & Hc3 & _).
  assert (logIteratorCount m2 = logIteratorCount m) as Hc2.
  { unfold others in Ho2. injection Ho2 as _ _ _ _ _ _ _ _ _ _ _ _ Hc. rewrite Hc. cbn.
    pose proof (al_fixed _ _ _ _ A) as Hfa. unfold fixed in Hfa.
    injection Hfa as _ _ _ _ _ _ ->. done. }
  assert (logIteratorCount m1' = logIteratorCount m) as Hc1'.
  { cbn. pose proof (al_fixed _ _ _ _ A) as Hfa. unfold fixed in Hfa.
    injection Hfa as _ _ _ _ _ _ ->. done. }
  (* the lists once the digest is written *)
  assert (∀ z, segmentsByState m3 z =
               listsAfterDigest m z ++ (if decide (z = HEAD) then [p] else [])) as HL.
  { intros z. rewrite Hl3, (DigestMoves_lists m1' m2 z DM), Hc1'.
    unfold listsAfterDigest.
    change (segmentsByState m1') with (segmentsByState ma).
    assert (∀ x, segmentsByState ma x
                 = segmentsByState m1 x ++ (if decide (x = HEAD) then [p] else [])) as Hla.
    { intros x. by rewrite (al_lists _ _ _ _ A), Hbirth. }
    destruct (logIteratorCount m =? 0); destruct z; rewrite ?Hla, ?(swept_lists m m1 _ W F);
      repeat (first [rewrite decide_True by done|rewrite decide_False by done]);
      rewrite ?app_nil_r; reflexivity. }
  assert (segments m3 !! p
          = Some (installedSegment nh header
                    (LOG_ENTRY_TYPE_LOGDIGEST (headDigest ma p prev)))) as Hp3.
  { rewrite (sg_segments _ _ _ _ _ St). apply lookup_insert_eq. }
  assert (∀ q, q ≠ p → segments m3 !! q = segments ma !! q) as Hq3.
  { intros q Hne. rewrite (sg_segments _ _ _ _ _ St), lookup_insert_ne by done.
    rewrite Hs2. cbn. by rewrite lookup_insert_ne. }
  (* the digest, in terms of the manager [allocHead] was called on *)
  assert (headDigest ma p prev = expectedDigest m) as Hdig.
  { unfold headDigest, digestOf, expectedDigest. fold prev.
    assert (logIteratorCount ma = logIteratorCount m) as -> by exact Hc1'.
    assert (∀ x, x ≠ HEAD → x ≠ FREEABLE_PENDING_REFERENCES →
                 segmentsByState ma x = segmentsByState m x) as Hlx.
    { intros x Hx1 Hx2.
      rewrite (al_lists _ _ _ _ A), Hbirth, decide_False, app_nil_r by done.
      by rewrite (swept_lists m m1 _ W F), decide_False. }
    rewrite !Hlx by done.
    assert (prevInDigest (segments ma) prev = prevInDigest (segments m) prev) as ->.
    { unfold prevInDigest. destruct prev as [q|] eqn:Hq; [|done].
      by destruct (Hkeep q HEAD (Hprevin q eq_refl)) as [_ ->]. }
    assert (idsOf (segments ma) [p] = [nextSegmentId m]) as ->.
    { unfold idsOf. cbn. by rewrite Hnh. }
    f_equal; [|f_equal; [|f_equal; [|f_equal]]].
    - apply idsOf_agree. intros q Hq. by destruct (Hkeep q CLEANABLE Hq).
    - apply idsOf_agree. intros q Hq. apply elem_of_app in Hq as [Hq|Hq].
      + by destruct (Hkeep q NEWLY_CLEANABLE Hq).
      + destruct (logIteratorCount m =? 0); [|by apply elem_of_nil in Hq].
        by destruct (Hkeep q CLEANABLE_PENDING_DIGEST Hq).
    - apply idsOf_agree. intros q Hq.
      assert (prev = Some q) as Hpq.
      { unfold prevInDigest in Hq. destruct prev as [q'|]; [|by apply elem_of_nil in Hq].
        destruct (segments m !! q') as [t|]; [|by apply elem_of_nil in Hq].
        destruct (isEmergencyHead t); [by apply elem_of_nil in Hq|].
        apply list_elem_of_singleton in Hq. by subst. }
      by destruct (Hkeep q HEAD (Hprevin q Hpq)).
    - destruct (logIteratorCount m =? 0); [done|].
      apply idsOf_agree. intros q Hq.
      by destruct (Hkeep q FREEABLE_PENDING_DIGEST_AND_REFERENCES Hq). }
  rewrite Hdig in Hp3.
  (* every segment listed after the digest write was listed before the call *)
  assert (∀ z a, a ∈ listsAfterDigest m z →
                 ∃ x, a ∈ segmentsByState m x ∧ (z ≠ HEAD → x ≠ HEAD)) as Hfrom.
  { intros z a Ha. unfold listsAfterDigest in Ha.
    destruct z; destruct (logIteratorCount m =? 0);
      rewrite ?elem_of_app, ?(list_elem_of_filter (λ q, q ∉ reclaimed m)) in Ha;
      repeat match goal with
             | Hx : _ ∨ _ |- _ => destruct Hx
             | Hx : _ ∧ _ |- _ => destruct Hx
             | Hx : _ ∈ [] |- _ => by apply elem_of_nil in Hx
             end;
      match goal with
      | Hin : _ ∈ segmentsByState m ?x |- _ => exists x; split; [exact Hin|by intros]
      end. }
  split_and!.
  - exact W'.
  - intros z. destruct prev as [q|] eqn:Hprevq.
    + pose proof (Hprevin q eq_refl) as Hqin.
      assert (segmentsByState m HEAD = [q]) as Hhead.
      { subst prev. destruct (segmentsByState m HEAD) as [|q' [|q'' l]];
          [done|by injection Hprevq as ->|cbn in Hlen; lia]. }
      destruct (WF_listed_occupied m q HEAD W Hqin) as [t Ht].
      destruct (Hkeep q HEAD Hqin) as [Hne Hqa]; [done|].
      assert (segments m3 !! q = Some t) as Ht3 by (by rewrite Hq3, Hqa).
      rewrite (Retired_lists q t m3 m' z Ht3 Ret), HL.
      destruct (decide (z = HEAD)) as [->|Hz].
      * rewrite decide_False by done. cbn [listsAfterDigest listsAfterAllocHead].
        rewrite Hhead, app_nil_r. cbn [app].
        apply erase_head. intros Hx. apply list_elem_of_singleton in Hx. by subst.
      * rewrite app_nil_r, erase_notin; last first.
        { intros Ha. destruct (Hfrom z q Ha) as (x & Hx & Hxz).
          apply (Hxz Hz). exact (WF_disjoint m q x HEAD W Hx Hqin). }
        unfold listsAfterAllocHead, listsAfterDigest. rewrite Hhead.
        cbn [head prevInDigest]. rewrite Ht.
        destruct z; rewrite ?decide_True, ?decide_False by done;
          rewrite ?app_nil_r; try done.
        rewrite <- app_assoc. by destruct (isEmergencyHead t).
    + cbn in Ret. subst m'. rewrite HL.
      assert (segmentsByState m HEAD = []) as Hhead.
      { subst prev. by destruct (segmentsByState m HEAD). }
      unfold listsAfterAllocHead, listsAfterDigest. rewrite Hhead.
      destruct z; rewrite ?decide_True, ?decide_False by done;
        rewrite ?Hhead, ?app_nil_r; done.
  - rewrite <- Hc2, <- Hc3. destruct prev as [q|]; cbn in Ret; [|by subst].
    destruct Ret as (t & _ & Ret). destruct (isEmergencyHead t).
    + pose proof (fr_fixed _ _ _ _ Ret) as Hf. unfold fixed in Hf. by injection Hf.
    + pose proof (rl_others _ _ _ _ Ret) as Hf. unfold others in Hf. by injection Hf.
  - exists m1, type, header. split_and!; [done..|exact (al_fresh _ _ _ _ A)|].
    destruct prev as [q|] eqn:Hprevq; [|cbn in Ret; by subst].
    destruct (Hprev q eq_refl) as [Hne _].
    by rewrite (Retired_segments q m3 m' p) by done.
Qed.


(** What [allocSurvivor] leaves behind. *)
Lemma allocSurvivor_post h m r m' :
  WF m → allocSurvivor appendFits h m = Ok r m' →
  WF m' ∧ logIteratorCount m' = logIteratorCount m ∧
  ∀ z, segmentsByState m' z =
       filter (λ q, q ∉ reclaimed m) (segmentsByState m z)
       ++ (if decide (z = CLEANING_INTO) then option_list r else []).
Proof.
  intros W H. unfold allocSurvivor in H.
  apply bind_inv in H as (r0 & mx & Halloc & H).
  destruct (alloc_inv _ _ _ _ W Halloc) as (m1 & _ & F & W1 & Hcase).
  destruct (FreedAll_lists _ _ _ F) as (Hl1 & _).
  destruct (FreedAll_fixed _ _ _ F) as [Hfix _].
  assert (logIteratorCount m1 = logIteratorCount m) as Hc1.
  { unfold fixed in Hfix. by injection Hfix. }
  destruct Hcase as [(-> & -> & _)|(p & -> & _ & A)].
  - apply ret_inv in H as [-> ->]. split_and!; [done..|].
    intros z. rewrite Hl1. case_decide; by rewrite app_nil_r.
  - pose proof (Allocated_WF _ _ _ _ W1 A) as Wa.
    set (nh := construct (allocator m1) (nextSegmentId m1) p
                 (bool_decide (ALLOC_SURVIVOR = ALLOC_EMERGENCY_HEAD))) in *.
    assert (segments mx !! p = Some nh) as Hnh.
    { rewrite (al_segments _ _ _ _ A). apply lookup_insert_eq. }
    rewrite bind_run, (writeHeader_run appendFits mx p nh h Hnh) in H. cbv zeta in H.
    destruct (refused appendFits nh _); [done|].
    erewrite bind_Ok in H by (apply deref_Ok, lookup_insert_eq).
    rewrite bind_run in H. cbn [modify] in H. rewrite bind_run in H. cbn [modify] in H.
    apply ret_inv in H as [-> ->].
    assert (logIteratorCount mx = logIteratorCount m1) as Hcx.
    { pose proof (al_fixed _ _ _ _ A) as Hf. unfold fixed in Hf. by injection Hf. }
    split_and!.
    + eapply WF_set_segment; [apply WF_replica|apply lookup_insert_eq|done].
      by eapply WF_set_segment.
    + cbn. by rewrite Hcx.
    + intros z. cbn. rewrite (al_lists _ _ _ _ A), Hl1. unfold birthState.
      rewrite (decide_True (P := ALLOC_SURVIVOR = ALLOC_SURVIVOR)) by done. done.
Qed.

(*POST*)

End InstallFacts.

(** ** Cleaning *)

Lemma WF_rpcPool m f : WF m → WF (set_rpcPool f m).
Proof. intros W. split; cbn; apply W. Qed.

Lemma CleanedAll_WF epoch clean :
  ∀ m m', WF m → CleanedAll epoch clean m m' → WF m'.
Proof.
  induction clean as [|p l IH]; cbn; intros m m' W C; [by subst|].
  destruct C as (s & m1 & Hs & R & C). eapply IH; [|exact C].
  refine (Relinked_WF _ _ _ (set_cleanedEpoch epoch s) _ _ _ R);
    [by eapply WF_set_segment|apply lookup_insert_eq].
Qed.

(** Every member the stamping loop leaves alone. *)
Lemma CleanedAll_others epoch clean :
  ∀ m m', CleanedAll epoch clean m m' → others m' = others m.
Proof.
  induction clean as [|p l IH]; cbn; intros m m' C; [by subst|].
  destruct C as (s & m1 & Hs & R & C). rewrite (IH _ _ C). apply (rl_others _ _ _ _ R).
Qed.

Lemma CleanedAll_states epoch clean :
  ∀ m m' q, CleanedAll epoch clean m m' →
    states m' !! q = if decide (q ∈ clean)
                     then Some FREEABLE_PENDING_DIGEST_AND_REFERENCES
                     else states m !! q.
Proof.
  induction clean as [|p l IH]; cbn; intros m m' q C.
  - subst. rewrite decide_False; [done|apply not_elem_of_nil].
  - destruct C as (s & m1 & Hs & R & C). rewrite (IH _ _ _ C), (rl_states _ _ _ _ R). cbn.
    destruct (decide (q ∈ l)) as [Hq|Hq].
    + rewrite decide_True; [done|by right].
    + destruct (decide (q = p)) as [->|Hne].
      * rewrite lookup_insert_eq, decide_True; [done|by left].
      * rewrite lookup_insert_ne by done. rewrite decide_False; [done|].
        rewrite elem_of_cons. tauto.
Qed.

(** A stamped segment differs from the one before the call in its
    [cleanedEpoch] only; the others are untouched. *)
Lemma CleanedAll_segments epoch clean :
  ∀ m m' q, CleanedAll epoch clean m m' →
    segments m' !! q = if decide (q ∈ clean)
                       then set_cleanedEpoch epoch <$> segments m !! q
                       else segments m !! q.
Proof.
  induction clean as [|p l IH]; cbn; intros m m' q C.
  - subst. rewrite decide_False; [done|apply not_elem_of_nil].
  - destruct C as (s & m1 & Hs & R & C). rewrite (IH _ _ _ C), (rl_segments _ _ _ _ R). cbn.
    destruct (decide (q = p)) as [->|Hne].
    + rewrite lookup_insert_eq, Hs. rewrite (decide_True (P := p ∈ p :: l)) by (by left).
      cbn. by destruct (decide (p ∈ l)).
    + rewrite lookup_insert_ne by done.
      destruct (decide (q ∈ l)) as [Hq|Hq].
      * rewrite decide_True; [done|by right].
      * rewrite decide_False; [done|]. rewrite elem_of_cons. tauto.
Qed.

Lemma accumulate_ext {B} (g : nat → LogSegment → B → B) segs segs' :
  (∀ q s, segs !! q = Some s →
          ∃ s', segs' !! q = Some s' ∧ ∀ a, g q s' a = g q s a) →
  ∀ l, (∀ q, q ∈ l → is_Some (segs !! q)) →
       ∀ acc, accumulate g segs' l acc = accumulate g segs l acc.
Proof.
  intros H. unfold accumulate. induction l as [|p l IH]; intros Hocc acc; [done|]. cbn.
  destruct (Hocc p) as [s Hs]; [by left|].
  destruct (H p s Hs) as (s' & Hs' & Hg). rewrite Hs, Hs', Hg.
  apply IH. intros q Hq. apply Hocc. by right.
Qed.

Lemma clean_loop epoch :
  ∀ clean m freed, WF m → (∀ p, p ∈ clean → is_Some (segments m !! p)) →
    ∃ m', foreachAcc clean
            (λ p freed,
               s ← deref p;
               modify (set_segments (λ segs, <[p := set_cleanedEpoch epoch s]> segs));;
               changeState p FREEABLE_PENDING_DIGEST_AND_REFERENCES;;
               mret (wrap32 (freed + segletsAllocated s))) freed m
          = Ok (accumulate addSeglets (segments m) clean freed) m'
          ∧ CleanedAll epoch clean m m'.
Proof.
  induction clean as [|p l IH]; intros m freed W Hocc.
  - eexists. split; [reflexivity|done].
  - cbn [foreachAcc]. destruct (Hocc p) as [s Hs]; [by left|].
    set (ma := set_segments (λ segs, <[p := set_cleanedEpoch epoch s]> segs) m).
    assert (WF ma) as Wa by (by eapply WF_set_segment).
    destruct (changeState_spec ma p (set_cleanedEpoch epoch s)
                FREEABLE_PENDING_DIGEST_AND_REFERENCES Wa) as (m1 & Hrun & R);
      [apply lookup_insert_eq|].
    assert (segments m1 = <[p := set_cleanedEpoch epoch s]> (segments m)) as Hs1
      by apply (rl_segments _ _ _ _ R).
    destruct (IH m1 (wrap32 (freed + segletsAllocated s))) as (m' & Hrun' & C).
    { refine (Relinked_WF _ _ _ (set_cleanedEpoch epoch s) _ Wa _ R).
      apply lookup_insert_eq. }
    { intros q Hq. rewrite Hs1. destruct (decide (q = p)) as [->|Hne].
      - rewrite lookup_insert_eq. eauto.
      - rewrite lookup_insert_ne by done. apply Hocc. by right. }
    exists m'. split; [|cbn; eauto].
    rewrite bind_run. erewrite (bind_Ok (deref p)) by (by apply deref_Ok). cbv zeta.
    rewrite bind_run. cbn [modify]. fold ma.
    rewrite bind_run, Hrun. cbn [mret M_ret]. rewrite Hrun'. f_equal.
    unfold accumulate at 2. cbn. rewrite Hs. fold (addSeglets p s freed).
    apply accumulate_ext; [|intros q Hq; apply Hocc; by right].
    intros q t Ht. rewrite Hs1. destruct (decide (q = p)) as [->|Hne].
    + rewrite lookup_insert_eq. rewrite Hs in Ht. injection Ht as <-. eauto.
    + rewrite lookup_insert_ne by done. eauto.
Qed.

(** [cleaningComplete]: the drain of CLEANING_INTO, the epoch bump, the
    stamping of the cleaned segments, and the assertion on the two
    [uint32_t] totals. *)
Lemma cleaningComplete_run clean m :
  WF m → (∀ p, p ∈ clean → is_Some (segments m !! p)) →
  let epoch := wrap64 (wrap64 (currentEpoch (rpcPool m) + 1) - 1) in
  ∃ m1 m',
    Drained CLEANING_INTO CLEANABLE_PENDING_DIGEST m m1 ∧
    CleanedAll epoch clean (set_rpcPool bumpEpoch m1) m' ∧
    cleaningComplete clean m =
      if seglets32 (segments m) (segmentsByState m CLEANING_INTO)
         <=? seglets32 (segments m) clean
      then Ok tt m' else Err AssertionFailed.
Proof.
  intros W Hocc epoch.
  destruct (whileFront_spec CLEANING_INTO CLEANABLE_PENDING_DIGEST
              (λ p used, s ← deref p;
                         changeState p CLEANABLE_PENDING_DIGEST;;
                         mret (wrap32 (used + segletsAllocated s)))
              addSeglets)
    with (l := segmentsByState m CLEANING_INTO) (m := m) (acc := 0)
    as (m1 & Hrun1 & R1); [done| |done..|].
  { intros m0 p s acc W0 Hs.
    destruct (changeState_spec m0 p s CLEANABLE_PENDING_DIGEST W0 Hs) as (m' & Hr & R).
    exists m'. split; [|done].
    erewrite bind_Ok by (by apply deref_Ok). cbv zeta.
    erewrite bind_Ok by exact Hr. reflexivity. }
  assert (Drained CLEANING_INTO CLEANABLE_PENDING_DIGEST m m1) as D1
    by (by apply RelinkedAll_Drained).
  set (m2 := set_rpcPool bumpEpoch m1).
  assert (WF m2) as W2 by (apply WF_rpcPool, (dr_WF _ _ _ _ D1)).
  assert (rpcPool m1 = rpcPool m) as Hrp.
  { pose proof (dr_others _ _ _ _ D1) as Ho. unfold others in Ho. by injection Ho. }
  destruct (clean_loop epoch clean m2 0 W2) as (m' & Hrun2 & C).
  { intros p Hp. cbn. rewrite (dr_segments _ _ _ _ D1). by apply Hocc. }
  exists m1, m'. split_and!; [done..|].
  unfold cleaningComplete. rewrite bind_run. cbn [gets].
  rewrite bind_run, Hrun1.
  unfold incrementCurrentEpoch.
  rewrite bind_run. rewrite (bind_run (modify _)). cbn [modify gets].
  fold bumpEpoch. fold m2. cbn [rpcPool m2 set_rpcPool bumpEpoch currentEpoch].
  rewrite Hrp. fold epoch. rewrite bind_run, Hrun2.
  cbn [segments m2 set_rpcPool]. rewrite (dr_segments _ _ _ _ D1).
  fold (seglets32 (segments m) (segmentsByState m CLEANING_INTO)).
  fold (seglets32 (segments m) clean).
  by destruct (_ <=? _).
Qed.

Lemma cleanableSegments_run out m :
  WF m →
  ∃ m', Drained NEWLY_CLEANABLE CLEANABLE m m' ∧
        cleanableSegments out m = Ok (out ++ segmentsByState m NEWLY_CLEANABLE) m'.
Proof.
  intros W.
  destruct (whileFront_spec NEWLY_CLEANABLE CLEANABLE
              (λ p out, changeState p CLEANABLE;; mret (out ++ [p]))
              (λ p _ out, out ++ [p]))
    with (l := segmentsByState m NEWLY_CLEANABLE) (m := m) (acc := out)
    as (m' & Hrun & R); [done| |done..|].
  { intros m0 p s acc W0 Hs.
    destruct (changeState_spec m0 p s CLEANABLE W0 Hs) as (m' & Hr & R).
    exists m'. split; [|done]. erewrite bind_Ok by exact Hr. reflexivity. }
  exists m'. split; [by apply RelinkedAll_Drained|].
  unfold cleanableSegments. rewrite bind_run. cbn [gets]. rewrite Hrun. f_equal.
  assert (∀ l, (∀ q, q ∈ l → is_Some (segments m !! q)) →
               ∀ acc, accumulate (λ p (_ : LogSegment) out, out ++ [p]) (segments m) l acc
                      = acc ++ l) as Hacc.
  { unfold accumulate. induction l as [|a l IH]; intros Hocc acc; cbn.
    - by rewrite app_nil_r.
    - destruct (Hocc a) as [s ->]; [by left|].
      rewrite IH by (intros q Hq; apply Hocc; by right). by rewrite <- app_assoc. }
  apply Hacc. intros q Hq. by eapply WF_listed_occupied.
Qed.

(** ** Steps keep the manager well formed *)

Lemma CleanedAll_lists epoch clean :
  ∀ m m' z, CleanedAll epoch clean m m' → z ≠ FREEABLE_PENDING_DIGEST_AND_REFERENCES →
    segmentsByState m' z = filter (λ q, q ∉ clean) (segmentsByState m z).
Proof.
  induction clean as [|p l IH]; cbn; intros m m' z C Hz.
  - subst. by rewrite filter_notin_nil.
  - destruct C as (s & m1 & Hs & R & C).
    rewrite (IH _ _ _ C Hz), (rl_lists _ _ _ _ R), decide_False, app_nil_r by done.
    cbn [segmentsByState set_segments]. apply filter_erase.
Qed.

Lemma CleanedAll_pending epoch clean :
  ∀ m m' q, CleanedAll epoch clean m m' →
    q ∈ segmentsByState m FREEABLE_PENDING_DIGEST_AND_REFERENCES →
    q ∈ segmentsByState m' FREEABLE_PENDING_DIGEST_AND_REFERENCES.
Proof.
  induction clean as [|p l IH]; cbn; intros m m' q C Hq; [by subst|].
  destruct C as (s & m1 & Hs & R & C). apply (IH _ _ _ C).
  rewrite (rl_lists _ _ _ _ R), decide_True by done. cbn [segmentsByState set_segments].
  rewrite elem_of_app, erase_elem, list_elem_of_singleton.
  destruct (decide (q = p)); tauto.
Qed.

Lemma clean_loop_inv epoch :
  ∀ clean m freed r m', WF m →
    foreachAcc clean
      (λ p freed,
         s ← deref p;
         modify (set_segments (λ segs, <[p := set_cleanedEpoch epoch s]> segs));;
         changeState p FREEABLE_PENDING_DIGEST_AND_REFERENCES;;
         mret (wrap32 (freed + segletsAllocated s))) freed m = Ok r m' →
    ∀ p, p ∈ clean → is_Some (segments m !! p).
Proof.
  induction clean as [|p l IH]; intros m freed r m' W H q Hq.
  - by apply elem_of_nil in Hq.
  - cbn [foreachAcc] in H. apply bind_inv in H as (a & m1 & Hb & H).
    apply bind_inv in Hb as (s & m0 & Hd & Hb). apply deref_inv in Hd as [-> Hs].
    apply elem_of_cons in Hq as [->|Hq]; [eauto|].
    rewrite bind_run in Hb. cbn [modify] in Hb.
    set (ma := set_segments (λ segs, <[p := set_cleanedEpoch epoch s]> segs) m) in *.
    assert (WF ma) as Wa by (by eapply WF_set_segment).
    destruct (changeState_spec ma p (set_cleanedEpoch epoch s)
                FREEABLE_PENDING_DIGEST_AND_REFERENCES Wa) as (mb & Hrun & R);
      [apply lookup_insert_eq|].
    rewrite bind_run, Hrun in Hb. apply ret_inv in Hb as [-> ->].
    assert (WF mb) as W1.
    { refine (Relinked_WF _ _ _ (set_cleanedEpoch epoch s) _ Wa _ R).
      apply lookup_insert_eq. }
    destruct (IH mb _ _ _ W1 H q Hq) as [t Ht].
    rewrite (rl_segments _ _ _ _ R) in Ht. cbn in Ht.
    destruct (decide (q = p)) as [->|Hne]; [eauto|].
    rewrite lookup_insert_ne in Ht by done. eauto.
Qed.

Lemma cleaningComplete_inv clean m m' :
  WF m → cleaningComplete clean m = Ok tt m' →
  (∀ p, p ∈ clean → is_Some (segments m !! p)) ∧
  seglets32 (segments m) (segmentsByState m CLEANING_INTO) ≤ seglets32 (segments m) clean ∧
  ∃ m1, Drained CLEANING_INTO CLEANABLE_PENDING_DIGEST m m1 ∧
        CleanedAll (wrap64 (wrap64 (currentEpoch (rpcPool m) + 1) - 1)) clean
          (set_rpcPool bumpEpoch m1) m'.
Proof.
  intros W H.
  assert (∀ p, p ∈ clean → is_Some (segments m !! p)) as Hocc.
  { pose proof H as H0. unfold cleaningComplete in H0.
    rewrite bind_run in H0. cbn [gets] in H0.
    apply bind_inv in H0 as (used & m1 & Hw & H0).
    destruct (whileFront_spec CLEANING_INTO CLEANABLE_PENDING_DIGEST
                (λ p used, s ← deref p;
                           changeState p CLEANABLE_PENDING_DIGEST;;
                           mret (wrap32 (used + segletsAllocated s)))
                addSeglets)
      with (l := segmentsByState m CLEANING_INTO) (m := m) (acc := 0)
      as (m1' & Hrun1 & R1); [done| |done..|].
    { intros m0 p s acc W0 Hs.
      destruct (changeState_spec m0 p s CLEANABLE_PENDING_DIGEST W0 Hs) as (mx & Hr & R).
      exists mx. split; [|done].
      erewrite bind_Ok by (by apply deref_Ok).
      erewrite bind_Ok by exact Hr. reflexivity. }
    rewrite Hrun1 in Hw. injection Hw as <- <-.
    assert (Drained CLEANING_INTO CLEANABLE_PENDING_DIGEST m m1') as D1
      by (by apply RelinkedAll_Drained).
    unfold incrementCurrentEpoch in H0.
    rewrite bind_run in H0. rewrite (bind_run (modify _)) in H0. cbn [modify gets] in H0.
    apply bind_inv in H0 as (freed & m2 & Hl & _).
    intros p Hp. rewrite <- (dr_segments _ _ _ _ D1).
    eapply (clean_loop_inv _ clean (set_rpcPool _ m1')); [|exact Hl|exact Hp].
    apply WF_rpcPool, (dr_WF _ _ _ _ D1). }
  split; [done|].
  destruct (cleaningComplete_run clean m W Hocc) as (m1 & m'' & D1 & C & Heq).
  rewrite Heq in H. destruct (_ <=? _) eqn:Hle; [|done].
  injection H as <-. split; [by apply Z.leb_le|]. eauto.
Qed.

Lemma collect_state (f : LogSegment → list nat → nat → list nat) :
  ∀ l out m r m',
    foreachAcc l (λ p out, s ← deref p; mret (f s out p)) out m = Ok r m' → m' = m.
Proof.
  induction l as [|p l IH]; intros out m r m' H; cbn in H.
  - by apply ret_inv in H as [_ ?].
  - apply bind_inv in H as (a & m1 & Hb & H).
    apply bind_inv in Hb as (s & m0 & Hd & Hb). apply deref_inv in Hd as [-> _].
    apply ret_inv in Hb as [_ ->]. by eapply IH.
Qed.

Lemma getActiveSegments_state minSegmentId out m r m' :
  getActiveSegments minSegmentId out m = Ok r m' → m' = m.
Proof.
  unfold getActiveSegments. rewrite bind_run. cbn [gets].
  destruct (logIteratorCount m =? 0); [done|]. intros H.
  apply bind_inv in H as (o1 & m1 & H1 & H).
  rewrite bind_run in H1. cbn [gets] in H1.
  apply (collect_state (λ s out p, if minSegmentId <=? id s then out ++ [p] else out))
    in H1 as ->.
  apply bind_inv in H as (o2 & m1 & H1 & H).
  rewrite bind_run in H1. cbn [gets] in H1.
  apply (collect_state (λ s out p, if minSegmentId <=? id s then out ++ [p] else out))
    in H1 as ->.
  apply bind_inv in H as (o3 & m1 & H1 & H).
  rewrite bind_run in H1. cbn [gets] in H1.
  apply (collect_state (λ s out p, if minSegmentId <=? id s then out ++ [p] else out))
    in H1 as ->.
  apply bind_inv in H as (h & m1 & H1 & H).
  apply getHeadSegment_inv in H1 as (-> & _).
  destruct h as [p|]; [|by apply ret_inv in H as [_ ?]].
  apply bind_inv in H as (s & m1 & Hd & H). apply deref_inv in Hd as [-> _].
  by apply ret_inv in H as [_ ?].
Qed.

Lemma filter_length_le {A} (P : A → Prop) `{!∀ x, Decision (P x)} (l : list A) :
  (length (filter P l) ≤ length l)%nat.
Proof. apply length_filter. Qed.

Section Steps.
Variable appendFits : LogSegment → LogEntry → bool.
Variable INVALID_SEGMENT_ID : Z.

(** A step keeps the manager well formed and never leaves two segments
    in HEAD; while a log iterator exists it brings no segment into
    FREEABLE_PENDING_REFERENCES and takes none out of
    FREEABLE_PENDING_DIGEST_AND_REFERENCES. *)
Lemma step_effect m m' :
  WF m → step appendFits INVALID_SEGMENT_ID m m' →
  WF m' ∧
  ((length (segmentsByState m HEAD) ≤ 1)%nat → (length (segmentsByState m' HEAD) ≤ 1)%nat) ∧
  (logIteratorCount m ≠ 0 →
     (∀ p, p ∈ segmentsByState m' FREEABLE_PENDING_REFERENCES →
           p ∈ segmentsByState m FREEABLE_PENDING_REFERENCES) ∧
     (∀ p, p ∈ segmentsByState m FREEABLE_PENDING_DIGEST_AND_REFERENCES →
           p ∈ segmentsByState m' FREEABLE_PENDING_DIGEST_AND_REFERENCES)).
Proof.
  intros W St. destruct St as [b r m m' H|h r m m' H|clean m m' H|out out' m m' H
                              |m m' H|m m' H|mn out out' m m' H|n r m m' H|pool m|p s e m Hs].
  - (* allocHead *)
    destruct r as [p|].
    + destruct (allocHead_post appendFits INVALID_SEGMENT_ID m b p m' W H)
        as (W' & Hl & _).
      split_and!; [done|by rewrite Hl|].
      intros Hc. apply Z.eqb_neq in Hc. rewrite !Hl. unfold listsAfterAllocHead.
      rewrite Hc, !app_nil_r. split; [|done].
      intros q Hq. by apply (list_elem_of_filter (λ q, q ∉ reclaimed m)) in Hq as [_ ?].
    + destruct (allocHead_inv appendFits INVALID_SEGMENT_ID m b None m' W H)
        as (Hlen & m1 & _ & F & W1 & [(_ & -> & _)|(? & ? & ? & ? & _)]); [|done].
      split_and!; [done| |].
      * by rewrite (swept_lists m m1 _ W F), decide_False.
      * intros _. rewrite !(swept_lists m m1 _ W F), decide_True, decide_False by done.
        split; [|done].
        intros q Hq. by apply (list_elem_of_filter (λ q, q ∉ reclaimed m)) in Hq as [_ ?].
  - (* allocSurvivor *)
    destruct (allocSurvivor_post appendFits h m r m' W H) as (W' & _ & Hl).
    split_and!; [done| |].
    + intros Hlen. rewrite Hl, decide_False, app_nil_r by done.
      etrans; [apply filter_length_le|done].
    + intros _. rewrite !Hl, !decide_False, !app_nil_r by done. split.
      * intros q Hq. by apply (list_elem_of_filter (λ q, q ∉ reclaimed m)) in Hq as [_ ?].
      * intros q Hq. apply (list_elem_of_filter (λ q, q ∉ reclaimed m)). split; [|done].
        intros Hr. apply reclaimed_pending in Hr.
        by pose proof (WF_disjoint m q _ _ W Hq Hr).
  - (* cleaningComplete *)
    destruct (cleaningComplete_inv clean m m' W H) as (Hocc & _ & m1 & D1 & C).
    pose proof (WF_rpcPool m1 bumpEpoch (dr_WF _ _ _ _ D1)) as W2.
    split_and!; [by eapply CleanedAll_WF| |].
    + intros Hlen. rewrite (CleanedAll_lists _ _ _ _ HEAD C) by done. cbn.
      rewrite (Drained_other _ _ _ _ HEAD D1) by done.
      etrans; [apply filter_length_le|done].
    + intros _. split.
      * intros q. rewrite (CleanedAll_lists _ _ _ _ FREEABLE_PENDING_REFERENCES C) by done.
        cbn. rewrite (Drained_other _ _ _ _ _ D1) by done.
        intros Hq. by apply (list_elem_of_filter (λ q, q ∉ clean)) in Hq as [_ ?].
      * intros q Hq. apply (CleanedAll_pending _ _ _ _ _ C). cbn.
        by rewrite (Drained_other _ _ _ _ _ D1).
  - (* cleanableSegments *)
    destruct (cleanableSegments_run out m W) as (m1 & D & Heq).
    rewrite Heq in H. injection H as _ <-.
    split_and!; [apply (dr_WF _ _ _ _ D)| |].
    + by rewrite (Drained_other _ _ _ _ HEAD D).
    + intros _. by rewrite !(Drained_other _ _ _ _ _ D).
  - injection H as <-. split_and!; [split; cbn; apply W|done..].
  - injection H as <-. split_and!; [split; cbn; apply W|done..].
  - apply getActiveSegments_state in H as ->. done.
  - unfold increaseSurvivorReserve in H. rewrite bind_run in H. cbn [gets] in H.
    destruct (_ <? _); [by injection H as _ <-|].
    destruct (_ <? _); [by injection H as _ <-|].
    injection H as _ <-. split_and!; [split; cbn; apply W|done..].
  - split_and!; [by apply WF_rpcPool|done..].
  - split_and!; [by eapply WF_set_segment|done..].
Qed.

End Steps.

(** ** Observable states are well formed *)

Lemma WF_new logId a pool d m :
  SegmentManager_new logId a pool d = inr m →
  WF m ∧ (∀ z, segmentsByState m z = []) ∧ logIteratorCount m = 0.
Proof.
  unfold SegmentManager_new. destruct (Qle_bool 1 d); [|done].
  destruct (_ <? _); [done|]. destruct (_ <? _); [done|].
  intros [= <-]. split_and!; [|done..].
  split; cbn; intros; rewrite ?lookup_empty; try apply NoDup_nil_2.
  - split; [by intros ?%elem_of_nil|done].
  - split; by intros [? ?].
  - done.
  - split; [by intros ?%elem_of_nil|by intros [? ?]].
Qed.

Section Observable.
Variable appendFits : LogSegment → LogEntry → bool.
Variable INVALID_SEGMENT_ID : Z.

Lemma steps_invariant m0 m :
  WF m0 → (length (segmentsByState m0 HEAD) ≤ 1)%nat →
  rtc (step appendFits INVALID_SEGMENT_ID) m0 m →
  WF m ∧ (length (segmentsByState m HEAD) ≤ 1)%nat.
Proof.
  intros W Hlen Hsteps. induction Hsteps as [m|m0 m1 m St _ IH]; [done|].
  destruct (step_effect appendFits INVALID_SEGMENT_ID m0 m1 W St) as (W1 & Hl1 & _).
  apply IH; [done|by apply Hl1].
Qed.

Lemma observable_invariant m :
  observable appendFits INVALID_SEGMENT_ID m →
  WF m ∧ (length (segmentsByState m HEAD) ≤ 1)%nat.
Proof.
  intros (l & a & pool & d & m0 & Hnew & Hsteps).
  destruct (WF_new _ _ _ _ _ Hnew) as (W0 & Hl0 & _).
  eapply steps_invariant; [done| |done]. rewrite Hl0. cbn. lia.
Qed.

Lemma observable_step m m' :
  observable appendFits INVALID_SEGMENT_ID m →
  step appendFits INVALID_SEGMENT_ID m m' →
  observable appendFits INVALID_SEGMENT_ID m'.
Proof.
  intros (l & a & pool & d & m0 & Hnew & Hsteps) St.
  exists l, a, pool, d, m0. split; [done|]. by eapply rtc_r.
Qed.

Lemma returns_after {A} (c : M A) m : returns c m = true → ∃ r, c m = Ok r (after c m).
Proof. unfold returns, after. destruct (c m) as [r m'|]; [eauto|done]. Qed.

Lemma observable_allocHead b m :
  observable appendFits INVALID_SEGMENT_ID m →
  returns (allocHead appendFits INVALID_SEGMENT_ID b) m = true →
  observable appendFits INVALID_SEGMENT_ID (after (allocHead appendFits INVALID_SEGMENT_ID b) m).
Proof.
  intros Ho Hr. destruct (returns_after _ _ Hr) as [r Hrun].
  eapply observable_step; [done|]. by eapply step_allocHead.
Qed.

Lemma observable_allocSurvivor h m :
  observable appendFits INVALID_SEGMENT_ID m →
  returns (allocSurvivor appendFits h) m = true →
  observable appendFits INVALID_SEGMENT_ID (after (allocSurvivor appendFits h) m).
Proof.
  intros Ho Hr. destruct (returns_after _ _ Hr) as [r Hrun].
  eapply observable_step; [done|]. by eapply step_allocSurvivor.
Qed.

Lemma observable_cleaningComplete clean m :
  observable appendFits INVALID_SEGMENT_ID m →
  returns (cleaningComplete clean) m = true →
  observable appendFits INVALID_SEGMENT_ID (after (cleaningComplete clean) m).
Proof.
  intros Ho Hr. destruct (returns_after _ _ Hr) as [[] Hrun].
  eapply observable_step; [done|]. by eapply step_cleaningComplete.
Qed.

Lemma observable_cleanableSegments out m :
  observable appendFits INVALID_SEGMENT_ID m →
  returns (cleanableSegments out) m = true →
  observable appendFits INVALID_SEGMENT_ID (after (cleanableSegments out) m).
Proof.
  intros Ho Hr. destruct (returns_after _ _ Hr) as [r Hrun].
  eapply observable_step; [done|]. by eapply step_cleanableSegments.
Qed.

Lemma observable_logIteratorCreated m :
  observable appendFits INVALID_SEGMENT_ID m →
  observable appendFits INVALID_SEGMENT_ID (after logIteratorCreated m).
Proof. intros Ho. eapply observable_step; [done|]. by eapply step_logIteratorCreated. Qed.

Lemma observable_increaseSurvivorReserve n m :
  observable appendFits INVALID_SEGMENT_ID m →
  observable appendFits INVALID_SEGMENT_ID (after (increaseSurvivorReserve n) m).
Proof.
  intros Ho. destruct (returns_after (increaseSurvivorReserve n) m) as [r Hrun].
  { unfold returns, increaseSurvivorReserve. rewrite bind_run. cbn [gets].
    by repeat destruct (_ <? _). }
  eapply observable_step; [done|]. by eapply step_increaseSurvivorReserve.
Qed.

Lemma observable_oracle pool m :
  observable appendFits INVALID_SEGMENT_ID m →
  observable appendFits INVALID_SEGMENT_ID (set_rpcPool (λ _, pool) m).
Proof. intros Ho. eapply observable_step; [done|]. apply step_oracle. Qed.

Lemma observable_fresh n e :
  2 ≤ n → observable appendFits INVALID_SEGMENT_ID (fresh n e).
Proof.
  intros Hn. exists 1, (mkAllocator n 8388608 65536), (mkServerRpcPool e e), 1%Q, (fresh n e).
  split; [|done]. unfold SegmentManager_new. cbn [freeSegmentCount].
  assert (Qfloor (inject_Z n * 1) = n) as ->.
  { unfold Qfloor, inject_Z, Qmult. cbn. rewrite Z.mul_1_r. apply Z.div_1_r. }
  assert (Qle_bool 1 1 = true) as -> by reflexivity.
  rewrite (proj2 (Z.ltb_ge n 2)) by lia. by rewrite Z.ltb_irrefl.
Qed.

End Observable.

(** ** The example managers *)

Lemma uniqueIdsb_sound m : uniqueIdsb m = true → UniqueIds m.
Proof.
  unfold uniqueIdsb. intros H.
  apply andb_true_iff in H as [H Hnd]. apply andb_true_iff in H as [Hn Hall].
  apply bool_decide_eq_true in Hn, Hnd. rewrite forallb_forall in Hall.
  split; [done|..].
  - intros p s Hs. apply elem_of_map_to_list in Hs.
    specialize (Hall (p, s) (proj1 (list_elem_of_In _ _) Hs)). cbn in Hall.
    apply andb_true_iff in Hall as [H1 H2]. apply Z.leb_le in H1. apply Z.ltb_lt in H2. lia.
  - intros p q s t Hs Ht Hid. apply elem_of_map_to_list in Hs, Ht.
    assert (∀ (l : list (nat * LogSegment)) x y,
              NoDup ((λ ps, id ps.2) <$> l) → x ∈ l → y ∈ l → id x.2 = id y.2 → x = y)
      as Hinj.
    { induction l as [|a l IH]; intros x y N Hx Hy Hxy; [by apply elem_of_nil in Hx|].
      cbn in N. apply list.NoDup_cons in N as [Ha N].
      apply elem_of_cons in Hx as [->|Hx]; apply elem_of_cons in Hy as [->|Hy]; [done|..].
      - exfalso. apply Ha. rewrite Hxy. by apply (list_elem_of_fmap_2 (λ ps, id ps.2)).
      - exfalso. apply Ha. rewrite <- Hxy. by apply (list_elem_of_fmap_2 (λ ps, id ps.2)).
      - by apply IH. }
    by injection (Hinj _ (p, s) (q, t) Hnd Hs Ht Hid).
Qed.

Lemma rangesb_sound m : rangesb m = true → Ranges m.
Proof.
  unfold rangesb. intros H.
  repeat (apply andb_true_iff in H as [H ?]).
  split; unfold uint32;
    repeat match goal with
           | Hx : _ && _ = true |- _ => apply andb_true_iff in Hx as [? ?]
           | Hx : (_ <=? _) = true |- _ => apply Z.leb_le in Hx
           | Hx : (_ <? _) = true |- _ => apply Z.ltb_lt in Hx
           end; lia.
Qed.

Lemma observable_withHead : observable roomy allOnes withHead.
Proof.
  apply observable_allocHead; [|by vm_compute].
  apply observable_increaseSurvivorReserve.
  by apply observable_fresh.
Qed.

Lemma observable_firstHead : observable firstOnly allOnes firstHead.
Proof.
  apply observable_allocHead; [|by vm_compute].
  by apply observable_fresh.
Qed.

(** A throw of [writeHeader] is the [FatalError] of [allocHead]. *)
Lemma allocHead_unwound_throws appendFits INVALID b m ma :
  allocHead_unwound appendFits INVALID b m = Some ma →
  allocHead appendFits INVALID b m = Err FatalError.
Proof.
  unfold allocHead_unwound, allocHead. rewrite !bind_run.
  destruct (getHeadSegment m) as [prev m0|]; [|done].
  rewrite !bind_run.
  destruct (alloc ALLOC_HEAD m0) as [[p|] m1|]; [| |done].
  - change ((mret (Some p) : M (option nat)) m1) with (Ok (Some p) m1). unfold installHead.
    rewrite bind_run.
    destruct (writeHeader appendFits p INVALID m1) as [|[]]; done.
  - rewrite !bind_run. cbn [gets].
    destruct (b || _); [|done].
    rewrite bind_run.
    destruct (alloc ALLOC_EMERGENCY_HEAD m1) as [[p|] m2|]; [|done..].
    unfold installHead. rewrite bind_run.
    destruct (writeHeader appendFits p INVALID m2) as [|[]]; done.
Qed.

Lemma observable_withSurvivor : observable roomy allOnes withSurvivor.
Proof.
  apply observable_allocSurvivor; [|by vm_compute].
  apply observable_cleanableSegments; [|by vm_compute].
  apply observable_allocHead; [|by vm_compute].
  apply observable_withHead.
Qed.

Lemma observable_cleaned : observable roomy allOnes cleaned.
Proof. apply observable_cleaningComplete; [apply observable_withSurvivor|by vm_compute]. Qed.

Lemma observable_gated : observable roomy allOnes gated.
Proof. apply observable_logIteratorCreated, observable_cleaned. Qed.

Lemma observable_digested : observable roomy allOnes digested.
Proof. apply observable_allocHead; [apply observable_cleaned|by vm_compute]. Qed.

Lemma observable_epochPassed : observable roomy allOnes epochPassed.
Proof. apply observable_oracle, observable_digested. Qed.

Lemma observable_iterating : observable roomy allOnes iterating.
Proof. apply observable_oracle, observable_logIteratorCreated, observable_digested. Qed.

(** * The properties of the design document *)

Example fresh_is_constructed n e :
  2 ≤ n → SegmentManager_new 1 (mkAllocator n 8388608 65536) (mkServerRpcPool e e) 1
          = inr (fresh n e).
Proof.
  intros Hn. unfold SegmentManager_new. cbn [freeSegmentCount].
  assert (Qfloor (inject_Z n * 1) = n) as ->.
  { unfold Qfloor, inject_Z, Qmult. cbn. rewrite Z.mul_1_r. apply Z.div_1_r. }
  assert (Qle_bool 1 1 = true) as -> by reflexivity.
  rewrite (proj2 (Z.ltb_ge n 2)) by lia. by rewrite Z.ltb_irrefl.
Qed.

(** C8. [mayAlloc] decides admission by the allocation type: an emergency
    head is always permitted, a survivor exactly when fewer survivors are
    outstanding than reserved, a head exactly when the free segment count
    exceeds the unallocated emergency reserve plus the unallocated survivor
    reserve.  Whenever [mayAlloc] returns, it returns that decision and
    leaves the manager alone; it does return when the asserted invariants
    hold, a slot and a segment are free and, for an emergency head, a
    reserved emergency head remains. *)
Theorem mayAlloc_decides (type : AllocationType) (m : SegmentManager) :
  Ranges m →
  (∀ b m', mayAlloc type m = Ok b m' → m' = m ∧ b = permitted m type) ∧
  (reservesHold m → freeSlots m ≠ [] → 0 < freeSegmentCount (allocator m) →
   (type = ALLOC_EMERGENCY_HEAD → numEmergencyHeadsAlloced m < numEmergencyHeads m) →
   mayAlloc type m = Ok (permitted m type) m).
Proof.
  intros R. split.
  - intros b m' H. by destruct (mayAlloc_inv type m b m' R H) as (? & _ & ?).
  - by apply mayAlloc_Ok.
Qed.

Lemma fresh_Ranges : Ranges (fresh 8 0).
Proof. split; unfold uint32; cbn; lia. Defined.

Lemma mayAlloc_decides_witness :
  Ranges (fresh 8 0) ∧
  mayAlloc ALLOC_HEAD (fresh 8 0) = Ok true (fresh 8 0) ∧
  mayAlloc ALLOC_SURVIVOR (fresh 8 0) = Ok false (fresh 8 0) ∧
  mayAlloc ALLOC_EMERGENCY_HEAD (fresh 8 0) = Ok true (fresh 8 0).
Proof.
  split; [exact fresh_Ranges|].
  split_and!.
  - apply (proj2 (mayAlloc_decides ALLOC_HEAD (fresh 8 0) fresh_Ranges));
      [unfold reservesHold, emergencyReserved, survivorReserved; cbn; lia
      |discriminate|cbn; lia|discriminate].
  - apply (proj2 (mayAlloc_decides ALLOC_SURVIVOR (fresh 8 0) fresh_Ranges));
      [unfold reservesHold, emergencyReserved, survivorReserved; cbn; lia
      |discriminate|cbn; lia|discriminate].
  - apply (proj2 (mayAlloc_decides ALLOC_EMERGENCY_HEAD (fresh 8 0) fresh_Ranges));
      [unfold reservesHold, emergencyReserved, survivorReserved; cbn; lia
      |discriminate|cbn; lia|intros _; cbn; lia].
Defined.

(** Where the free segment count covers the emergency reserve,
    [increaseSurvivorReserve] applies the update exactly when the request
    neither shrinks the reserve nor eats into the emergency heads. *)
Lemma increaseSurvivorReserve_covered (n : Z) (m : SegmentManager) :
  Ranges m → numEmergencyHeads m ≤ freeSegmentCount (allocator m) →
  increaseSurvivorReserve n m =
    if bool_decide (numSurvivorSegments m ≤ n ∧
                    n ≤ freeSegmentCount (allocator m) - numEmergencyHeads m)
    then Ok true (set_numSurvivorSegments (λ _, n) m)
    else Ok false m.
Proof.
  intros [H1 _ _ _ H5] Hc. unfold increaseSurvivorReserve, uint32 in *.
  rewrite bind_run. cbn [gets].
  rewrite wrap32_small by (unfold uint32; lia).
  destruct (n <? numSurvivorSegments m) eqn:Hn.
  - apply Z.ltb_lt in Hn. rewrite bool_decide_eq_false_2 by lia. reflexivity.
  - apply Z.ltb_ge in Hn.
    destruct (freeSegmentCount (allocator m) - numEmergencyHeads m <? n) eqn:Hf.
    + apply Z.ltb_lt in Hf. rewrite bool_decide_eq_false_2 by lia. reflexivity.
    + apply Z.ltb_ge in Hf. rewrite bool_decide_eq_true_2 by lia. reflexivity.
Qed.

(** C7. After an emergency head was drawn from an allocator of two free
    segments, one segment is free and two emergency heads are reserved;
    [increaseSurvivorReserve(1)] computes [1 - 2] on [uint32_t], finds the
    request below it, sets the reserve to 1 and returns true, although the
    request exceeds the free segment count minus [numEmergencyHeads].  The
    next admission check then fails its assertion. *)
Theorem increaseSurvivorReserve_low_memory :
  SegmentManager_new 1 (mkAllocator 2 8388608 65536) (mkServerRpcPool 0 0) 1
    = inr (fresh 2 0) ∧
  (∃ p, allocHead roomy allOnes true (fresh 2 0) = Ok (Some p) lowMemory) ∧
  freeSegmentCount (allocator lowMemory) = 1 ∧
  numEmergencyHeads lowMemory = 2 ∧
  numSurvivorSegments lowMemory = 0 ∧
  increaseSurvivorReserve 1 lowMemory
    = Ok true (set_numSurvivorSegments (λ _, 1) lowMemory) ∧
  ¬ (1 ≤ freeSegmentCount (allocator lowMemory) - numEmergencyHeads lowMemory) ∧
  mayAlloc ALLOC_HEAD (set_numSurvivorSegments (λ _, 1) lowMemory) = Err AssertionFailed.
Proof.
  split; [by apply fresh_is_constructed|].
  split; [exists 1%nat; vm_compute; reflexivity|].
  split_and!; try (vm_compute; reflexivity).
  vm_compute. intros H. by apply H.
Qed.

(** C10. [free] of a segment that is not an emergency head leaves
    [numEmergencyHeadsAlloced] alone and takes one off
    [numSurvivorSegmentsAlloced] exactly when that counter is positive,
    whatever state the segment is in and however it was allocated; the
    counter never passes below zero.  [free] of an emergency head takes one
    off [numEmergencyHeadsAlloced] only. *)
Theorem free_counters (m : SegmentManager) (p : nat) (s : LogSegment) :
  WF m → Ranges m → segments m !! p = Some s →
  ∃ m', free p m = Ok tt m' ∧
    (isEmergencyHead s = false →
       numEmergencyHeadsAlloced m' = numEmergencyHeadsAlloced m ∧
       (0 < numSurvivorSegmentsAlloced m →
          numSurvivorSegmentsAlloced m' = numSurvivorSegmentsAlloced m - 1) ∧
       (numSurvivorSegmentsAlloced m = 0 → numSurvivorSegmentsAlloced m' = 0)) ∧
    (isEmergencyHead s = true →
       numSurvivorSegmentsAlloced m' = numSurvivorSegmentsAlloced m ∧
       numEmergencyHeadsAlloced m' = wrap32 (numEmergencyHeadsAlloced m - 1) ∧
       (0 < numEmergencyHeadsAlloced m →
          numEmergencyHeadsAlloced m' = numEmergencyHeadsAlloced m - 1)) ∧
    0 ≤ numSurvivorSegmentsAlloced m'.
Proof.
  intros W [_ He _ Hs _] Hp. destruct (free_spec m p s W Hp) as (m' & Hrun & F).
  exists m'. split; [done|].
  rewrite (fr_emergency _ _ _ _ F), (fr_survivor _ _ _ _ F). unfold uint32 in *.
  destruct (isEmergencyHead s).
  - split_and!; [done| |lia]. intros _. split_and!; [done..|].
    intros H0. apply wrap32_small. unfold uint32. lia.
  - split_and!; [|done|].
    + intros _. split_and!; [done|..].
      * intros H0. rewrite (proj2 (Z.ltb_lt _ _) H0). apply wrap32_small.
        unfold uint32. lia.
      * intros ->. reflexivity.
    + destruct (0 <? numSurvivorSegmentsAlloced m) eqn:H0; [|lia].
      apply Z.ltb_lt in H0. rewrite wrap32_small; unfold uint32; lia.
Qed.

Lemma erasedIds_lookup segs l :
  ∀ ix i, erasedIds segs l ix !! i
          = if decide (i ∈ idsOf segs l) then None else ix !! i.
Proof.
  unfold erasedIds, idsOf. induction l as [|p l IH]; intros ix i; cbn.
  - rewrite decide_False; [done|apply not_elem_of_nil].
  - rewrite IH. destruct (segs !! p) as [s|]; cbn; [|done].
    destruct (decide (i ∈ omap (λ p, id <$> segs !! p) l)) as [Hi|Hi].
    + rewrite decide_True; [done|by right].
    + destruct (decide (i = id s)) as [->|Hne].
      * rewrite lookup_delete_eq, decide_True; [done|by left].
      * rewrite lookup_delete_ne by done. rewrite decide_False; [done|].
        rewrite elem_of_cons. tauto.
Qed.

Section Properties.
Variable appendFits : LogSegment → LogEntry → bool.
Variable INVALID_SEGMENT_ID : Z.

Lemma idsOf_elem segs l i :
  i ∈ idsOf segs l ↔ ∃ q s, q ∈ l ∧ segs !! q = Some s ∧ id s = i.
Proof.
  unfold idsOf. rewrite list_elem_of_omap. split.
  - intros (q & Hq & Hi). destruct (segs !! q) as [s|] eqn:Hs; [|done].
    injection Hi as <-. eauto.
  - intros (q & s & Hq & Hs & <-). exists q. by rewrite Hs.
Qed.

Lemma idsOf_NoDup m l :
  UniqueIds m → NoDup l → NoDup (idsOf (segments m) l).
Proof.
  intros U. induction l as [|a l IH]; intros N; [apply NoDup_nil_2|].
  apply list.NoDup_cons in N as [Ha N]. unfold idsOf. cbn.
  destruct (segments m !! a) as [s|] eqn:Hs; cbn; [|by apply IH].
  apply list.NoDup_cons. split; [|by apply IH].
  intros Hin. apply idsOf_elem in Hin as (q & t & Hq & Ht & Hid).
  by rewrite (ids_inj m U q a t s Ht Hs Hid) in Hq.
Qed.

(** C1. The digest a head allocation writes into the new head lists, once
    each: the segments in CLEANABLE, those in NEWLY_CLEANABLE together with
    the ones the digest write moves there from CLEANABLE_PENDING_DIGEST
    when no log iterator exists, the previous head unless it is absent or
    an emergency head, the new head, and when a log iterator exists the
    segments in FREEABLE_PENDING_DIGEST_AND_REFERENCES. *)
Theorem allocHead_digest (m : SegmentManager) (mustNotFail : bool)
    (p : nat) (m' : SegmentManager) :
  WF m → UniqueIds m →
  allocHead appendFits INVALID_SEGMENT_ID mustNotFail m = Ok (Some p) m' →
  ∃ s header,
    segments m' !! p = Some s ∧ id s = nextSegmentId m ∧
    entries s = [header; LOG_ENTRY_TYPE_LOGDIGEST (expectedDigest m)] ∧
    NoDup (expectedDigest m) ∧
    ∀ i, i ∈ expectedDigest m ↔
         (∃ q s, q ∈ segmentsByState m CLEANABLE ∧ segments m !! q = Some s ∧ id s = i) ∨
         (∃ q s, q ∈ segmentsByState m NEWLY_CLEANABLE ∧
                 segments m !! q = Some s ∧ id s = i) ∨
         (logIteratorCount m = 0 ∧
          ∃ q s, q ∈ segmentsByState m CLEANABLE_PENDING_DIGEST ∧
                 segments m !! q = Some s ∧ id s = i) ∨
         (∃ q s, head (segmentsByState m HEAD) = Some q ∧ segments m !! q = Some s ∧
                 isEmergencyHead s = false ∧ id s = i) ∨
         i = nextSegmentId m ∨
         (logIteratorCount m ≠ 0 ∧
          ∃ q s, q ∈ segmentsByState m FREEABLE_PENDING_DIGEST_AND_REFERENCES ∧
                 segments m !! q = Some s ∧ id s = i).
Proof.
  intros W U H.
  destruct (allocHead_post appendFits INVALID_SEGMENT_ID m mustNotFail p m' W H)
    as (_ & _ & _ & m1 & type & header & _ & _ & _ & _ & _ & _ & Hp).
  eexists _, header. split; [exact Hp|]. split; [done|]. split; [done|].
  set (prev := prevInDigest (segments m) (head (segmentsByState m HEAD))).
  assert (∀ q, q ∈ option_list prev → q ∈ segmentsByState m HEAD) as Hprev.
  { intros q Hq. unfold prev, prevInDigest in Hq.
    destruct (head (segmentsByState m HEAD)) as [q'|] eqn:Hh; [|by apply elem_of_nil in Hq].
    destruct (segments m !! q') as [t|]; [|by apply elem_of_nil in Hq].
    destruct (isEmergencyHead t); [by apply elem_of_nil in Hq|].
    apply list_elem_of_singleton in Hq as ->. by apply head_Some_elem_of. }
  assert (NoDup (option_list prev)) as Nprev.
  { destruct prev; [apply NoDup_singleton|apply NoDup_nil_2]. }
  set (pendingSurvivors := if logIteratorCount m =? 0
                           then segmentsByState m CLEANABLE_PENDING_DIGEST else []).
  set (pendingFreeable := if logIteratorCount m =? 0 then []
                          else segmentsByState m FREEABLE_PENDING_DIGEST_AND_REFERENCES).
  assert (∀ q, q ∈ pendingSurvivors → q ∈ segmentsByState m CLEANABLE_PENDING_DIGEST) as Hps.
  { intros q. unfold pendingSurvivors. destruct (_ =? _); [done|by intros ?%elem_of_nil]. }
  assert (∀ q, q ∈ pendingFreeable →
               q ∈ segmentsByState m FREEABLE_PENDING_DIGEST_AND_REFERENCES) as Hpf.
  { intros q. unfold pendingFreeable. destruct (_ =? _); [by intros ?%elem_of_nil|done]. }
  assert (NoDup pendingSurvivors ∧ NoDup pendingFreeable) as [Nps Npf].
  { unfold pendingSurvivors, pendingFreeable.
    destruct (_ =? _); split; try apply NoDup_nil_2; apply (wf_nodup m W). }
  assert (expectedDigest m ≡ₚ
          nextSegmentId m ::
          idsOf (segments m)
            (segmentsByState m CLEANABLE
             ++ (segmentsByState m NEWLY_CLEANABLE ++ pendingSurvivors)
             ++ option_list prev ++ pendingFreeable)) as Hperm.
  { unfold expectedDigest. fold prev. fold pendingSurvivors.
    rewrite !idsOf_app. unfold pendingFreeable.
    rewrite !app_assoc.
    rewrite <- (app_assoc _ [nextSegmentId m]). cbn [app].
    rewrite <- Permutation_middle.
    destruct (logIteratorCount m =? 0); [|done].
    by rewrite !app_nil_r. }
  split.
  - rewrite Hperm. apply list.NoDup_cons. split.
    + intros Hin. apply idsOf_elem in Hin as (q & s & _ & Hs & Hid).
      pose proof (ids_below m U q s Hs). lia.
    + apply idsOf_NoDup; [done|].
      assert (∀ q x y, q ∈ segmentsByState m x → q ∈ segmentsByState m y → x ≠ y → False)
        as Hdis.
      { intros q x y Hx Hy Hne. apply Hne. by eapply WF_disjoint. }
      repeat (apply list.NoDup_app; split_and!);
        try apply (wf_nodup m W); try done;
        intros q Hq; rewrite ?elem_of_app; intros Hq';
        repeat match goal with
               | Hx : _ ∨ _ |- _ => destruct Hx
               | Hx : _ ∈ _ ++ _ |- _ => apply elem_of_app in Hx
               | Hx : _ ∈ option_list prev |- _ => apply Hprev in Hx
               | Hx : _ ∈ pendingSurvivors |- _ => apply Hps in Hx
               | Hx : _ ∈ pendingFreeable |- _ => apply Hpf in Hx
               end;
        match goal with
        | Hx : q ∈ segmentsByState m ?x, Hy : q ∈ segmentsByState m ?y |- _ =>
            by apply (Hdis q x y Hx Hy)
        end.
  - intros i. unfold expectedDigest. fold prev.
    rewrite !elem_of_app, !idsOf_elem, list_elem_of_singleton.
    setoid_rewrite elem_of_app.
    split.
    + intros [Hi|[(q & s & [Hq|Hq] & Hs & Hid)|[(q & s & Hq & Hs & Hid)|[Hi|Hi]]]].
      * by left.
      * right. left. eauto.
      * right. right. left. destruct (logIteratorCount m =? 0) eqn:Hc;
          [|by apply elem_of_nil in Hq]. apply Z.eqb_eq in Hc. eauto 10.
      * right. right. right. left. unfold prev, prevInDigest in Hq.
        destruct (head (segmentsByState m HEAD)) as [q'|]; [|by apply elem_of_nil in Hq].
        destruct (segments m !! q') as [t|] eqn:Ht; [|by apply elem_of_nil in Hq].
        destruct (isEmergencyHead t) eqn:He; [by apply elem_of_nil in Hq|].
        apply list_elem_of_singleton in Hq as ->. rewrite Ht in Hs. injection Hs as <-.
        eauto 10.
      * by do 4 right; left.
      * do 5 right. destruct (logIteratorCount m =? 0) eqn:Hc;
          [by apply elem_of_nil in Hi|]. apply Z.eqb_neq in Hc.
        apply idsOf_elem in Hi. eauto.
    + intros [Hi|[(q & s & Hq & Hs & Hid)|[(Hc & q & s & Hq & Hs & Hid)
             |[(q & s & Hq & Hs & He & Hid)|[Hi|(Hc & q & s & Hq & Hs & Hid)]]]]].
      * by left.
      * right. left. eauto 10.
      * right. left. exists q, s. apply Z.eqb_eq in Hc. rewrite Hc. eauto.
      * right. right. left. exists q, s. split_and!; [|done..].
        unfold prev, prevInDigest. rewrite Hq, Hs, He. by apply list_elem_of_singleton.
      * by right; right; right; left.
      * do 4 right. apply Z.eqb_neq in Hc. rewrite Hc. apply idsOf_elem. eauto.
Qed.


(** C9. When [allocHead(false)] returns NULL the manager is the one the
    reclamation scan leaves: every segment of FREEABLE_PENDING_REFERENCES
    cleaned before the earliest outstanding epoch is gone, so the manager
    differs from the one the call started from whenever there was such a
    segment; the head is untouched and no segment was created. *)
Theorem allocHead_absent (m m' : SegmentManager) :
  WF m → allocHead appendFits INVALID_SEGMENT_ID false m = Ok None m' →
  freeUnreferencedSegments m = Ok tt m' ∧
  (∀ q, q ∈ reclaimed m ↔
        q ∈ segmentsByState m FREEABLE_PENDING_REFERENCES ∧
        ∃ s, segments m !! q = Some s ∧
             cleanedEpoch s < earliestOutstandingEpoch (rpcPool m)) ∧
  (∀ q, segments m' !! q = if decide (q ∈ reclaimed m) then None else segments m !! q) ∧
  (reclaimed m ≠ [] → m' ≠ m) ∧
  segmentsByState m' HEAD = segmentsByState m HEAD ∧
  (∀ q, q ∈ segmentsByState m HEAD → segments m' !! q = segments m !! q) ∧
  nextSegmentId m' = nextSegmentId m.
Proof.
  intros W H.
  destruct (allocHead_inv appendFits INVALID_SEGMENT_ID m false None m' W H)
    as (Hlen & m1 & Hrun & F & W1 & [(_ & -> & _)|(? & ? & ? & ? & _)]); [|done].
  split; [done|]. split_and!.
  - intros q. unfold reclaimed.
    rewrite (list_elem_of_filter (λ p, Is_true (cleanedBefore _ _ p))).
    unfold cleanedBefore. split.
    + intros [Hc Hq]. split; [done|]. destruct (segments m !! q) as [s|]; [|done].
      exists s. split; [done|]. by apply Z.ltb_lt, Is_true_true.
    + intros [Hq (s & -> & Hc)]. split; [|done]. by apply Is_true_true, Z.ltb_lt.
  - intros q. by apply FreedAll_segments.
  - intros Hne ->. destruct (reclaimed m) as [|q l] eqn:Hr; [done|].
    pose proof (FreedAll_segments _ _ _ q F) as Hq.
    rewrite decide_True in Hq by (by left).
    assert (q ∈ reclaimed m) as Hqr by (rewrite Hr; by left).
    apply reclaimed_pending in Hqr.
    destruct (WF_listed_occupied m q _ W Hqr) as [s Hs]. congruence.
  - by rewrite (swept_lists m m1 _ W F), decide_False.
  - intros q Hq. by apply (swept_segments m m1 q HEAD W F Hq).
  - by destruct (FreedAll_fixed _ _ _ F).
Qed.

(** C5. [freeUnreferencedSegments] frees the segments of
    FREEABLE_PENDING_REFERENCES whose [cleanedEpoch] is below the earliest
    outstanding epoch, and only those.  A freed segment gives its slot back
    to [freeSlots], loses its entry in [idToSlotMap], leaves every list and
    has its state and segment objects destroyed; a segment whose
    [cleanedEpoch] the earliest outstanding epoch has not passed stays. *)
Theorem freeUnreferencedSegments_frees (m : SegmentManager) :
  WF m →
  ∃ m', freeUnreferencedSegments m = Ok tt m' ∧
    (∀ q, q ∈ reclaimed m ↔
          q ∈ segmentsByState m FREEABLE_PENDING_REFERENCES ∧
          ∃ s, segments m !! q = Some s ∧
               cleanedEpoch s < earliestOutstandingEpoch (rpcPool m)) ∧
    (∀ q, segments m' !! q = if decide (q ∈ reclaimed m) then None else segments m !! q) ∧
    (∀ q, states m' !! q = if decide (q ∈ reclaimed m) then None else states m !! q) ∧
    freeSlots m' = freeSlots m ++ reclaimed m ∧
    (∀ i, idToSlotMap m' !! i =
          if decide (i ∈ idsOf (segments m) (reclaimed m)) then None
          else idToSlotMap m !! i) ∧
    (∀ z, segmentsByState m' z = filter (λ q, q ∉ reclaimed m) (segmentsByState m z)) ∧
    allSegments m' = filter (λ q, q ∉ reclaimed m) (allSegments m) ∧
    (∀ q s, segments m !! q = Some s →
            earliestOutstandingEpoch (rpcPool m) ≤ cleanedEpoch s →
            segments m' !! q = Some s).
Proof.
  intros W. destruct (freeUnreferencedSegments_spec m W) as (m' & Hrun & F).
  exists m'. split; [done|].
  assert (∀ q, q ∈ reclaimed m ↔
               q ∈ segmentsByState m FREEABLE_PENDING_REFERENCES ∧
               ∃ s, segments m !! q = Some s ∧
                    cleanedEpoch s < earliestOutstandingEpoch (rpcPool m)) as Hrec.
  { intros q. unfold reclaimed.
    rewrite (list_elem_of_filter (λ p, Is_true (cleanedBefore _ _ p))).
    unfold cleanedBefore. split.
    - intros [Hc Hq]. split; [done|]. destruct (segments m !! q) as [s|]; [|done].
      exists s. split; [done|]. by apply Z.ltb_lt, Is_true_true.
    - intros [Hq (s & -> & Hc)]. split; [|done]. by apply Is_true_true, Z.ltb_lt. }
  destruct (FreedAll_lists _ _ _ F) as (Hl & Ha & Hf).
  split_and!; [done| | |done| |done|done|].
  - intros q. by apply FreedAll_segments.
  - intros q. by apply FreedAll_states.
  - intros i. rewrite (FreedAll_index _ _ _ (list.NoDup_filter _ _ (wf_nodup m W _)) F).
    apply erasedIds_lookup.
  - intros q s Hs He. rewrite (FreedAll_segments _ _ _ q F), decide_False; [done|].
    intros Hq. apply Hrec in Hq as (_ & s' & Hs' & Hlt). rewrite Hs in Hs'.
    injection Hs' as <-. lia.
Qed.

Lemma seglets32_total segs l : seglets32 segs l = wrap32 (segletsTotal segs l).
Proof.
  unfold seglets32, accumulate.
  assert (∀ acc, wrap32 acc = acc →
            foldl (λ a p, match segs !! p with
                          | Some s => addSeglets p s a
                          | None => a
                          end) acc l = wrap32 (acc + segletsTotal segs l)) as H.
  { induction l as [|p l IH]; intros acc Hacc; cbn.
    - by rewrite Z.add_0_r.
    - destruct (segs !! p) as [s|].
      + rewrite IH by (unfold addSeglets, wrap32; apply Z.mod_mod; lia).
        unfold addSeglets, wrap32. rewrite Zplus_mod_idemp_l.
        fold (segletsTotal segs l). f_equal. lia.
      + by apply IH. }
  by apply H.
Qed.

(** C4. [cleaningComplete(clean)], called with pointers to live segments,
    either fails its assertion, the seglets counted for the survivors
    exceeding those counted for the cleaned segments, or returns having
    moved every segment of CLEANING_INTO to CLEANABLE_PENDING_DIGEST,
    bumped the RPC epoch, and stamped every segment of [clean] with the
    epoch before the bump and moved it to
    FREEABLE_PENDING_DIGEST_AND_REFERENCES.  The two seglet counts are the
    [uint32_t] totals, which are the sums whenever those fit 32 bits. *)
Theorem cleaningComplete_spec (m : SegmentManager) (clean : list nat) :
  WF m → uint64 (currentEpoch (rpcPool m)) →
  (∀ p, p ∈ clean → is_Some (segments m !! p)) →
  let epoch := currentEpoch (rpcPool m) in
  let used := seglets32 (segments m) (segmentsByState m CLEANING_INTO) in
  let freed := seglets32 (segments m) clean in
  (cleaningComplete clean m = Err AssertionFailed ∧ freed < used) ∨
  (∃ m',
     cleaningComplete clean m = Ok tt m' ∧
     (∃ m1, (∀ p, p ∈ segmentsByState m CLEANING_INTO →
                  states m1 !! p = Some CLEANABLE_PENDING_DIGEST ∧
                  p ∈ segmentsByState m1 CLEANABLE_PENDING_DIGEST) ∧
            segmentsByState m1 CLEANING_INTO = [] ∧
            ∀ p, p ∉ clean → states m' !! p = states m1 !! p ∧
                             segments m' !! p = segments m !! p) ∧
     segmentsByState m' CLEANING_INTO = [] ∧
     currentEpoch (rpcPool m') = wrap64 (epoch + 1) ∧
     (∀ p, p ∈ clean →
           ∃ s, segments m !! p = Some s ∧
                segments m' !! p = Some (set_cleanedEpoch epoch s) ∧
                states m' !! p = Some FREEABLE_PENDING_DIGEST_AND_REFERENCES ∧
                p ∈ segmentsByState m' FREEABLE_PENDING_DIGEST_AND_REFERENCES) ∧
     used ≤ freed ∧
     (0 ≤ segletsTotal (segments m) (segmentsByState m CLEANING_INTO) < 2 ^ 32 →
      0 ≤ segletsTotal (segments m) clean < 2 ^ 32 →
      segletsTotal (segments m) (segmentsByState m CLEANING_INTO)
      ≤ segletsTotal (segments m) clean)).
Proof.
  intros W He Hocc epoch used freed.
  destruct (cleaningComplete_run clean m W Hocc) as (m1 & m' & D1 & C & Heq).
  fold used freed in Heq.
  assert (wrap64 (wrap64 (currentEpoch (rpcPool m) + 1) - 1) = epoch) as Hep.
  { unfold wrap64, epoch, uint64 in *. rewrite Zminus_mod_idemp_l.
    replace (currentEpoch (rpcPool m) + 1 - 1) with (currentEpoch (rpcPool m)) by lia.
    by apply Z.mod_small. }
  rewrite Hep in C.
  destruct (used <=? freed) eqn:Hle; [right|left; split; [done|by apply Z.leb_gt]].
  apply Z.leb_le in Hle. exists m'. split; [done|].
  set (m2 := set_rpcPool bumpEpoch m1) in *.
  assert (WF m2) as W2 by (apply WF_rpcPool, (dr_WF _ _ _ _ D1)).
  pose proof (CleanedAll_WF _ _ _ _ W2 C) as W'.
  assert (rpcPool m1 = rpcPool m) as Hrp.
  { pose proof (dr_others _ _ _ _ D1) as Ho. unfold others in Ho. by injection Ho. }
  split_and!.
  - exists m1. split_and!.
    + intros p Hp. assert (states m1 !! p = Some CLEANABLE_PENDING_DIGEST) as Hst.
      { by rewrite (dr_states _ _ _ _ D1), decide_True. }
      split; [done|]. by apply (wf_lists m1 (dr_WF _ _ _ _ D1)).
    + by apply (Drained_from _ _ _ _ D1).
    + intros p Hp. rewrite (CleanedAll_states _ _ _ _ p C), decide_False by done.
      rewrite (CleanedAll_segments _ _ _ _ p C), decide_False by done.
      cbn. by rewrite (dr_segments _ _ _ _ D1).
  - rewrite (CleanedAll_lists _ _ _ _ CLEANING_INTO C) by done. cbn.
    by rewrite (Drained_from _ _ _ _ D1).
  - pose proof (CleanedAll_others _ _ _ _ C) as Ho. unfold others in Ho.
    injection Ho as _ _ -> _. cbn. by rewrite Hrp.
  - intros p Hp. destruct (Hocc p Hp) as [s Hs]. exists s.
    assert (states m' !! p = Some FREEABLE_PENDING_DIGEST_AND_REFERENCES) as Hst.
    { by rewrite (CleanedAll_states _ _ _ _ p C), decide_True. }
    split_and!; [done| |done|by apply (wf_lists m' W')].
    rewrite (CleanedAll_segments _ _ _ _ p C), decide_True by done. cbn.
    by rewrite (dr_segments _ _ _ _ D1), Hs.
  - done.
  - intros Hu Hf. unfold used, freed in Hle. rewrite !seglets32_total in Hle.
    by rewrite !wrap32_small in Hle.
Qed.

(** C3. When the allocation of a regular head fails, [allocHead] goes on
    to [alloc(ALLOC_EMERGENCY_HEAD)] exactly when [mustNotFail] is set or
    a segment is in FREEABLE_PENDING_DIGEST_AND_REFERENCES, and whatever it
    then returns is an emergency head; it does return one when an emergency
    head is still reserved, a slot and a segment are free, the appends fit
    and the previous head has its replica.  Otherwise [allocHead] returns
    NULL, an ordinary return, with the manager as the failed allocation
    left it. *)
Theorem allocHead_emergency (m : SegmentManager) (mustNotFail : bool)
    (m1 : SegmentManager) :
  WF m → (length (segmentsByState m HEAD) ≤ 1)%nat →
  alloc ALLOC_HEAD m = Ok None m1 →
  let prev := head (segmentsByState m HEAD) in
  let pending := segmentsByState m FREEABLE_PENDING_DIGEST_AND_REFERENCES in
  (mustNotFail = false → pending = [] →
     allocHead appendFits INVALID_SEGMENT_ID mustNotFail m = Ok None m1) ∧
  (mustNotFail = true ∨ pending ≠ [] →
     allocHead appendFits INVALID_SEGMENT_ID mustNotFail m
     = (newHead ← alloc ALLOC_EMERGENCY_HEAD;
        match newHead with
        | Some p => installHead appendFits INVALID_SEGMENT_ID prev p
        | None => fail InvalidPointer
        end) m1 ∧
     (∀ r m', allocHead appendFits INVALID_SEGMENT_ID mustNotFail m = Ok r m' →
              ∃ p s, r = Some p ∧ segments m' !! p = Some s ∧
                     isEmergencyHead s = true ∧ segmentsByState m' HEAD = [p]) ∧
     (Ranges m1 →
      numEmergencyHeadsAlloced m1 < numEmergencyHeads m1 →
      0 < freeSegmentCount (allocator m1) →
      (∃ p, list.last (freeSlots m1) = Some p ∧ segments m1 !! p = None) →
      (∀ s e, appendFits s e = true) →
      (∀ q s, prev = Some q → segments m !! q = Some s → is_Some (replicatedSegment s)) →
      ∃ p m', allocHead appendFits INVALID_SEGMENT_ID mustNotFail m = Ok (Some p) m')).
Proof.
  intros W Hlen Halloc prev pending.
  destruct (alloc_inv _ _ _ _ W Halloc) as (m1' & Hscan & F & W1 & Hcase).
  destruct Hcase as [(_ & <- & Hdenied)|(? & ? & _)]; [|done].
  assert (segmentsByState m1 FREEABLE_PENDING_DIGEST_AND_REFERENCES = pending) as Hfp.
  { by rewrite (swept_lists m m1 _ W F), decide_False. }
  assert (allocHead appendFits INVALID_SEGMENT_ID mustNotFail m
               = (n ← gets (λ m, length (segmentsByState m
                                           FREEABLE_PENDING_DIGEST_AND_REFERENCES));
                  if mustNotFail || bool_decide (0 < n)%nat then
                    newHead ← alloc ALLOC_EMERGENCY_HEAD;
                    match newHead with
                    | Some p => installHead appendFits INVALID_SEGMENT_ID prev p
                    | None => fail InvalidPointer
                    end
                  else mret None) m1) as Hunfold.
  { unfold allocHead.
    erewrite bind_Ok by (by apply getHeadSegment_run).
    by erewrite bind_Ok by exact Halloc. }
  rewrite bind_run in Hunfold. cbn [gets] in Hunfold.
  rewrite Hfp in Hunfold.
  split.
  - intros -> Hp. rewrite Hunfold, Hp. reflexivity.
  - intros Hwanted.
    assert (mustNotFail || bool_decide (0 < length pending)%nat = true) as Hcond.
    { destruct Hwanted as [->|Hp]; [done|]. apply orb_true_iff. right.
      apply bool_decide_eq_true. destruct pending; [done|cbn; lia]. }
    rewrite Hcond in Hunfold. split; [done|]. split.
    + intros r m' H. destruct r as [p|]; last first.
      { destruct (allocHead_inv appendFits INVALID_SEGMENT_ID m mustNotFail None m' W H)
          as (_ & mx & _ & _ & _ & [(_ & _ & -> & Hp & _)|(? & ? & ? & ? & _)]); [|done].
        fold pending in Hp. rewrite Hp in Hcond. done. }
      destruct (allocHead_post appendFits INVALID_SEGMENT_ID m mustNotFail p m' W H)
        as (_ & Hl & _ & mx & type & header & Hscan' & _ & Hty & _ & Hma & _ & Hp).
      rewrite Hscan in Hscan'. injection Hscan' as <-.
      assert (type = ALLOC_EMERGENCY_HEAD) as ->.
      { destruct type; [congruence|done|done]. }
      eexists p, _. split_and!; [done|exact Hp|done|by rewrite Hl].
    + intros R Hem Hfree (p & Hlast & Hfresh) Hfits Hreplica.
      destruct (alloc_spec ALLOC_EMERGENCY_HEAD m1 W1) as (mx & _ & Fx & _ & Heq).
      rewrite (reclaimed_swept m m1 W F) in Fx. cbn in Fx. subst mx.
      destruct (mayAlloc_inv ALLOC_HEAD m1 false m1 R Hdenied) as (_ & RH & _).
      assert (freeSlots m1 ≠ []) as Hfs by (intros Hnil; by rewrite Hnil in Hlast).
      rewrite bind_run, (mayAlloc_Ok ALLOC_EMERGENCY_HEAD m1 R RH Hfs Hfree) in Heq
        by done.
      cbn [permitted negb] in Heq.
      destruct (newSegment_spec ALLOC_EMERGENCY_HEAD m1 p Hlast Hfresh) as (ma & Hnew & A).
      rewrite Hnew in Heq.
      rewrite Hunfold. erewrite bind_Ok by exact Heq.
      pose proof (Allocated_WF _ _ _ _ W1 A) as Wa.
      set (nh := construct (allocator m1) (nextSegmentId m1) p
                   (bool_decide (ALLOC_EMERGENCY_HEAD = ALLOC_EMERGENCY_HEAD))).
      assert (segments ma !! p = Some nh) as Hnh.
      { rewrite (al_segments _ _ _ _ A). apply lookup_insert_eq. }
      assert (∀ q, prev = Some q →
                   q ≠ p ∧ segments ma !! q = segments m !! q ∧
                   is_Some (segments m !! q)) as Hkeep.
      { intros q Hq. apply head_Some_elem_of in Hq.
        pose proof (swept_segments m m1 q HEAD W F Hq ltac:(done)) as Hq1.
        destruct (WF_listed_occupied m q HEAD W Hq) as [t Ht].
        assert (q ≠ p) as Hne by (intros ->; congruence).
        split_and!; [done| |eauto].
        by rewrite (al_segments _ _ _ _ A), lookup_insert_ne. }
      destruct (installHead_run appendFits INVALID_SEGMENT_ID ma p nh prev Wa Hnh)
        as (m2 & m3 & m' & _ & _ & _ & Hrun).
      { intros q Hq. destruct (Hkeep q Hq) as (Hne & Hsame & Ho).
        by rewrite Hsame. }
      exists p, m'. rewrite Hrun. unfold refused. rewrite !Hfits.
      cbn [negb orb appendsDisabled set_entries nh construct].
      destruct prev as [q|] eqn:Hprev; [|done].
      destruct (Hkeep q eq_refl) as (_ & Hsame & [t Ht]).
      unfold prevReplica. rewrite Hsame, Ht.
      by destruct (Hreplica q t eq_refl Ht) as [r ->].
Qed.

(** C2, as the code has it.  While a log iterator exists, a digest write
    moves no segment: none leaves CLEANABLE_PENDING_DIGEST and none leaves
    FREEABLE_PENDING_DIGEST_AND_REFERENCES.  Over any run of steps each
    starting while an iterator exists, no segment enters
    FREEABLE_PENDING_REFERENCES, and every segment of
    FREEABLE_PENDING_DIGEST_AND_REFERENCES stays in that state, unfreed.
    The segments that were in FREEABLE_PENDING_REFERENCES before are not
    protected: the reclamation scan does not look at the count. *)
Theorem iterator_gating (m : SegmentManager) :
  WF m → 0 < logIteratorCount m →
  (∀ p s prev m',
     segments m !! p = Some s →
     (∀ q, prev = Some q → is_Some (segments m !! q)) →
     writeDigest appendFits p prev m = Ok tt m' →
     states m' = states m ∧ ∀ z, segmentsByState m' z = segmentsByState m z) ∧
  (∀ m', iteration appendFits INVALID_SEGMENT_ID m m' →
     (∀ p, p ∈ segmentsByState m' FREEABLE_PENDING_REFERENCES →
           p ∈ segmentsByState m FREEABLE_PENDING_REFERENCES) ∧
     (∀ p, p ∈ segmentsByState m FREEABLE_PENDING_DIGEST_AND_REFERENCES →
           p ∈ segmentsByState m' FREEABLE_PENDING_DIGEST_AND_REFERENCES ∧
           is_Some (segments m' !! p))).
Proof.
  intros W Hc. split.
  - intros p s prev m' Hs Hprev Hrun.
    destruct (writeDigest_run appendFits m p s prev W Hs Hprev) as (m1 & DM & Heq).
    unfold DigestMoves in DM. rewrite (proj2 (Z.eqb_neq _ _)) in DM by lia. subst m1.
    rewrite Heq in Hrun. destruct (refused _ _ _); [done|]. by injection Hrun as <-.
  - intros m' Hit. clear Hc. induction Hit as [m|m m1 m' Hc St Hit IH].
    + split; [done|]. intros p Hp. split; [done|]. by eapply WF_listed_occupied.
    + destruct (step_effect appendFits INVALID_SEGMENT_ID m m1 W St) as (W1 & _ & Hg).
      destruct (Hg ltac:(lia)) as [H1 H2]. destruct (IH W1) as [I1 I2].
      split; [auto|]. intros p Hp. by apply I2, H2.
Qed.

End Properties.

(** ** The properties on the cleaning pass *)

Lemma allocHead_digest_witness :
  WF cleaned ∧ UniqueIds cleaned ∧
  allocHead roomy allOnes false cleaned = Ok (Some 4%nat) digested ∧
  expectedDigest cleaned = [2; 3] ∧
  ∃ s header,
    segments digested !! 4%nat = Some s ∧ id s = 3 ∧
    entries s = [header; LOG_ENTRY_TYPE_LOGDIGEST [2; 3]] ∧ NoDup [2; 3].
Proof.
  pose proof (proj1 (observable_invariant roomy allOnes cleaned observable_cleaned)) as W.
  assert (UniqueIds cleaned) as U by (apply uniqueIdsb_sound; vm_compute; reflexivity).
  assert (allocHead roomy allOnes false cleaned = Ok (Some 4%nat) digested) as H
    by (vm_compute; reflexivity).
  assert (expectedDigest cleaned = [2; 3]) as He by (vm_compute; reflexivity).
  split_and!; [exact W|exact U|exact H|exact He|].
  destruct (allocHead_digest roomy allOnes cleaned false 4%nat digested W U H)
    as (s & header & Hs & Hid & Hes & Hn & _).
  rewrite He in Hes, Hn. exists s, header. split_and!; [exact Hs|exact Hid|exact Hes|exact Hn].
Defined.



Lemma allocHead_absent_witness :
  WF epochPassed ∧
  allocHead roomy allOnes false epochPassed
    = Ok None (after (allocHead roomy allOnes false) epochPassed) ∧
  freeUnreferencedSegments epochPassed
    = Ok tt (after (allocHead roomy allOnes false) epochPassed) ∧
  after (allocHead roomy allOnes false) epochPassed ≠ epochPassed.
Proof.
  pose proof (proj1 (observable_invariant roomy allOnes _ observable_epochPassed)) as W.
  assert (allocHead roomy allOnes false epochPassed
          = Ok None (after (allocHead roomy allOnes false) epochPassed)) as H
    by (vm_compute; reflexivity).
  split_and!; [exact W|exact H|..];
    destruct (allocHead_absent roomy allOnes epochPassed _ W H) as (Hrun & _ & _ & Hne & _).
  - exact Hrun.
  - apply Hne. assert (reclaimed epochPassed = [7%nat]) as -> by (vm_compute; reflexivity).
    discriminate.
Defined.

Lemma free_counters_witness :
  ∃ s m',
    WF digested ∧ Ranges digested ∧ segments digested !! 7%nat = Some s ∧
    isEmergencyHead s = false ∧ numSurvivorSegmentsAlloced digested = 1 ∧
    free 7%nat digested = Ok tt m' ∧
    numEmergencyHeadsAlloced m' = numEmergencyHeadsAlloced digested ∧
    numSurvivorSegmentsAlloced m' = 0.
Proof.
  pose proof (proj1 (observable_invariant roomy allOnes _ observable_digested)) as W.
  assert (Ranges digested) as R by (apply rangesb_sound; vm_compute; reflexivity).
  destruct (segments digested !! 7%nat) as [s|] eqn:Hs; [|by vm_compute in Hs].
  assert (isEmergencyHead <$> segments digested !! 7%nat = Some false) as He
    by (vm_compute; reflexivity).
  rewrite Hs in He. injection He as He.
  assert (numSurvivorSegmentsAlloced digested = 1) as Hn by (vm_compute; reflexivity).
  destruct (free_counters digested 7%nat s W R Hs) as (m' & Hrun & Hplain & _).
  destruct (Hplain He) as (H1 & H2 & _).
  exists s, m'. split_and!; [exact W|exact R|reflexivity|exact He|exact Hn|exact Hrun|exact H1|].
  rewrite H2, Hn; [reflexivity|rewrite Hn; reflexivity].
Defined.

Lemma freeUnreferencedSegments_frees_witness :
  WF epochPassed ∧
  reclaimed epochPassed = [7%nat] ∧
  ∃ m', freeUnreferencedSegments epochPassed = Ok tt m' ∧
        segments m' !! 7%nat = None ∧ states m' !! 7%nat = None ∧
        freeSlots m' = freeSlots epochPassed ++ [7%nat] ∧
        segmentsByState m' FREEABLE_PENDING_REFERENCES = [].
Proof.
  pose proof (proj1 (observable_invariant roomy allOnes _ observable_epochPassed)) as W.
  assert (reclaimed epochPassed = [7%nat]) as Hr by (vm_compute; reflexivity).
  split_and!; [exact W|exact Hr|].
  destruct (freeUnreferencedSegments_frees epochPassed W)
    as (m' & Hrun & _ & Hseg & Hst & Hfree & _ & Hl & _).
  exists m'. split_and!; [exact Hrun|..].
  - rewrite Hseg, Hr. reflexivity.
  - rewrite Hst, Hr. reflexivity.
  - rewrite Hfree, Hr. reflexivity.
  - rewrite Hl, Hr. vm_compute. reflexivity.
Defined.

Lemma cleaningComplete_spec_witness :
  WF withSurvivor ∧ uint64 (currentEpoch (rpcPool withSurvivor)) ∧
  (∀ p, p ∈ [7%nat] → is_Some (segments withSurvivor !! p)) ∧
  ∃ m', cleaningComplete [7%nat] withSurvivor = Ok tt m' ∧
        segmentsByState m' CLEANING_INTO = [] ∧
        currentEpoch (rpcPool m') = 1 ∧
        states m' !! 7%nat = Some FREEABLE_PENDING_DIGEST_AND_REFERENCES.
Proof.
  pose proof (proj1 (observable_invariant roomy allOnes _ observable_withSurvivor)) as W.
  assert (currentEpoch (rpcPool withSurvivor) = 0) as H0 by (vm_compute; reflexivity).
  assert (uint64 (currentEpoch (rpcPool withSurvivor))) as He
    by (unfold uint64; rewrite H0; lia).
  assert (∀ p, p ∈ [7%nat] → is_Some (segments withSurvivor !! p)) as Hocc.
  { intros p Hp. apply list_elem_of_singleton in Hp. subst p. vm_compute. eauto. }
  split_and!; [exact W|exact He|exact Hocc|].
  destruct (cleaningComplete_spec withSurvivor [7%nat] W He Hocc)
    as [[Herr _]|(m' & Hrun & _ & Hinto & Hepoch & Hclean & _)].
  - exfalso. assert (returns (cleaningComplete [7%nat]) withSurvivor = true) as Hret
      by (vm_compute; reflexivity).
    unfold returns in Hret. rewrite Herr in Hret. discriminate.
  - exists m'. split_and!; [exact Hrun|exact Hinto|exact Hepoch|].
    destruct (Hclean 7%nat) as (s & _ & _ & Hst & _); [by left|exact Hst].
Defined.

Lemma allocHead_emergency_witness :
  WF withHead ∧ (length (segmentsByState withHead HEAD) ≤ 1)%nat ∧
  alloc ALLOC_HEAD withHead = Ok None withHead ∧
  allocHead roomy allOnes false withHead = Ok None withHead ∧
  ∃ p m', allocHead roomy allOnes true withHead = Ok (Some p) m' ∧
          ∃ s, segments m' !! p = Some s ∧ isEmergencyHead s = true.
Proof.
  destruct (observable_invariant roomy allOnes _ observable_withHead) as [W Hlen].
  assert (alloc ALLOC_HEAD withHead = Ok None withHead) as Halloc by (vm_compute; reflexivity).
  split_and!; [exact W|exact Hlen|exact Halloc|..].
  - apply (allocHead_emergency roomy allOnes withHead false withHead W Hlen Halloc);
      [reflexivity|vm_compute; reflexivity].
  - destruct (allocHead_emergency roomy allOnes withHead true withHead W Hlen Halloc)
      as [_ Hem].
    destruct (Hem (or_introl eq_refl)) as (_ & Hinv & Htotal).
    destruct Htotal as (p & m' & Hrun).
    + apply rangesb_sound. vm_compute. reflexivity.
    + vm_compute. reflexivity.
    + vm_compute. reflexivity.
    + exists 6%nat. split; vm_compute; reflexivity.
    + reflexivity.
    + intros q s Hq Hs. vm_compute in Hq. injection Hq as <-.
      vm_compute in Hs. injection Hs as <-. cbn. eauto.
    + exists p, m'. split; [exact Hrun|].
      destruct (Hinv _ _ Hrun) as (p' & s & Hp & Hs & He & _).
      injection Hp as <-. eauto.
Defined.

(** With a log iterator in existence and the RPCs of epoch 0 over,
    [allocHead] frees the segment that was in FREEABLE_PENDING_REFERENCES
    when the iterator was created. *)
Lemma freed_while_iterating :
  observable roomy allOnes iterating ∧
  0 < logIteratorCount iterating ∧
  states iterating !! 7%nat = Some FREEABLE_PENDING_REFERENCES ∧
  is_Some (segments iterating !! 7%nat) ∧
  ∃ m', allocHead roomy allOnes false iterating = Ok None m' ∧
        0 < logIteratorCount m' ∧
        segments m' !! 7%nat = None ∧ states m' !! 7%nat = None.
Proof.
  split; [exact observable_iterating|].
  split; [vm_compute; reflexivity|].
  split; [vm_compute; reflexivity|].
  split; [vm_compute; eauto|].
  exists (after (allocHead roomy allOnes false) iterating).
  split_and!; vm_compute; reflexivity.
Qed.

Lemma iterator_gating_witness :
  WF gated ∧ 0 < logIteratorCount gated ∧
  segmentsByState gated CLEANABLE_PENDING_DIGEST = [5%nat] ∧
  segmentsByState gated FREEABLE_PENDING_DIGEST_AND_REFERENCES = [7%nat] ∧
  (∀ z, segmentsByState (after (writeDigest roomy 5%nat None) gated) z
        = segmentsByState gated z) ∧
  7%nat ∈ segmentsByState (after (allocHead roomy allOnes false) gated)
            FREEABLE_PENDING_DIGEST_AND_REFERENCES.
Proof.
  pose proof (proj1 (observable_invariant roomy allOnes _ observable_gated)) as W.
  assert (0 < logIteratorCount gated) as Hc by (vm_compute; reflexivity).
  split; [exact W|]. split; [exact Hc|].
  split; [vm_compute; reflexivity|]. split; [vm_compute; reflexivity|].
  destruct (iterator_gating roomy allOnes gated W Hc) as [Hdigest Hsteps]. split.
  - assert (∃ s, segments gated !! 5%nat = Some s) as [s Hs] by (vm_compute; eauto).
    assert (writeDigest roomy 5%nat None gated
            = Ok tt (after (writeDigest roomy 5%nat None) gated)) as Hrun
      by (vm_compute; reflexivity).
    assert (∀ q : nat, None = Some q → is_Some (segments gated !! q)) as Hprev
      by discriminate.
    exact (proj2 (Hdigest 5%nat s None _ Hs Hprev Hrun)).
  - assert (iteration roomy allOnes gated (after (allocHead roomy allOnes false) gated)) as Hit.
    { apply (iteration_step roomy allOnes gated
               (after (allocHead roomy allOnes false) gated) _ Hc);
        [|apply iteration_refl].
      apply (step_allocHead roomy allOnes false (Some 4%nat)). vm_compute. reflexivity. }
    assert (7%nat ∈ segmentsByState gated FREEABLE_PENDING_DIGEST_AND_REFERENCES) as Hin
      by (vm_compute; by left).
    exact (proj1 (proj2 (Hsteps _ Hit) 7%nat Hin)).
Defined.

(** ** The slot and id tables *)

Lemma others_tables m m' :
  others m' = others m →
  freeSlots m' = freeSlots m ∧ nextSegmentId m' = nextSegmentId m ∧
  idToSlotMap m' = idToSlotMap m ∧ maxSegments m' = maxSegments m ∧
  replicaManager m' = replicaManager m ∧ allocator m' = allocator m ∧
  numSurvivorSegments m' = numSurvivorSegments m ∧
  numSurvivorSegmentsAlloced m' = numSurvivorSegmentsAlloced m ∧
  numEmergencyHeads m' = numEmergencyHeads m ∧
  numEmergencyHeadsAlloced m' = numEmergencyHeadsAlloced m.
Proof. unfold others. intros H. injection H as ?. by split_and!. Qed.

Lemma fixed_members m m' :
  fixed m' = fixed m →
  maxSegments m' = maxSegments m ∧ replicaManager m' = replicaManager m ∧
  numSurvivorSegments m' = numSurvivorSegments m ∧
  numEmergencyHeads m' = numEmergencyHeads m ∧ logId m' = logId m.
Proof. unfold fixed. intros H. injection H as ?. by split_and!. Qed.

Lemma besidesSegments_tables m m' :
  besidesSegments m' = besidesSegments m →
  freeSlots m' = freeSlots m ∧ nextSegmentId m' = nextSegmentId m ∧
  idToSlotMap m' = idToSlotMap m ∧ maxSegments m' = maxSegments m ∧
  allocator m' = allocator m ∧
  numSurvivorSegments m' = numSurvivorSegments m ∧
  numSurvivorSegmentsAlloced m' = numSurvivorSegmentsAlloced m.
Proof. unfold besidesSegments. intros H. injection H as ?. by split_and!. Qed.

Lemma same_id_lookup (segs segs' : gmap nat LogSegment) :
  (∀ p, id <$> segs' !! p = id <$> segs !! p) →
  ∀ p s', segs' !! p = Some s' → ∃ s, segs !! p = Some s ∧ id s = id s'.
Proof.
  intros H p s' Hs'. specialize (H p). rewrite Hs' in H. cbn in H.
  destruct (segs !! p) as [s|]; [|done]. injection H as H. eauto.
Qed.

(** The tables only depend on which slots are occupied and by which ids. *)
Lemma Tables_same m m' :
  (∀ p, id <$> segments m' !! p = id <$> segments m !! p) →
  freeSlots m' = freeSlots m → nextSegmentId m' = nextSegmentId m →
  idToSlotMap m' = idToSlotMap m → maxSegments m' = maxSegments m →
  Tables m → Tables m'.
Proof.
  intros Hid Hf Hn Hi Hm T.
  assert (∀ p, id <$> segments m !! p = id <$> segments m' !! p) as Hid' by done.
  pose proof (same_id_lookup _ _ Hid) as Hto.
  pose proof (same_id_lookup _ _ Hid') as Hfrom.
  assert (∀ p, is_Some (segments m' !! p) ↔ is_Some (segments m !! p)) as Hocc.
  { intros p. split; intros [s Hs].
    - destruct (Hto p s Hs) as (? & ? & _); eauto.
    - destruct (Hfrom p s Hs) as (? & ? & _); eauto. }
  split.
  - rewrite Hn. apply T.
  - intros p s' Hs'. destruct (Hto p s' Hs') as (s & Hs & <-). rewrite Hn.
    by apply (tb_below m T p).
  - intros i p. rewrite Hi, (tb_index m T). split.
    + intros (s & Hs & <-). destruct (Hfrom p s Hs) as (s' & ? & ?). eauto.
    + intros (s' & Hs' & <-). destruct (Hto p s' Hs') as (s & ? & ?). eauto.
  - intros p. rewrite Hf. intros Hp. apply eq_None_not_Some. rewrite Hocc.
    rewrite (tb_free m T p Hp). by intros [? ?].
  - rewrite Hf. apply T.
  - intros p. rewrite Hm, Hf, Hocc. apply T.
Qed.

Lemma Tables_UniqueIds m : Tables m → UniqueIds m.
Proof.
  intros T. split; [apply T|apply T|].
  intros p q s t Hs Ht Hid.
  assert (idToSlotMap m !! id s = Some p) as Hp by (apply (tb_index m T); eauto).
  assert (idToSlotMap m !! id s = Some q) as Hq by (apply (tb_index m T); eauto).
  congruence.
Qed.

Lemma Tables_set_segment m p s s' :
  segments m !! p = Some s → id s' = id s →
  Tables m → Tables (set_segments (λ segs, <[p := s']> segs) m).
Proof.
  intros Hs Hid. apply Tables_same; try done.
  intros q. cbn. destruct (decide (q = p)) as [->|Hne].
  - rewrite lookup_insert_eq, Hs. cbn. by rewrite Hid.
  - by rewrite lookup_insert_ne.
Qed.

Lemma Tables_Relinked p y m m' : Relinked p y m m' → Tables m → Tables m'.
Proof.
  intros R. destruct (others_tables _ _ (rl_others _ _ _ _ R)) as (? & ? & ? & ? & _).
  apply Tables_same; try done. intros q. by rewrite (rl_segments _ _ _ _ R).
Qed.

Lemma Tables_Drained from to m m' : Drained from to m m' → Tables m → Tables m'.
Proof.
  intros D. destruct (others_tables _ _ (dr_others _ _ _ _ D)) as (? & ? & ? & ? & _).
  apply Tables_same; try done. intros q. by rewrite (dr_segments _ _ _ _ D).
Qed.

Lemma Tables_DigestMoves m m' : DigestMoves m m' → Tables m → Tables m'.
Proof.
  unfold DigestMoves. destruct (logIteratorCount m =? 0).
  - intros (m1 & D1 & D2) T. eapply Tables_Drained; [exact D2|].
    by eapply Tables_Drained.
  - by intros ->.
Qed.

Lemma Tables_Staged p s s' ops m m' :
  segments m !! p = Some s → id s' = id s →
  Staged p s' ops m m' → Tables m → Tables m'.
Proof.
  intros Hs Hid St.
  destruct (besidesSegments_tables _ _ (sg_rest _ _ _ _ _ St)) as (? & ? & ? & ? & _).
  apply Tables_same; try done. intros q. rewrite (sg_segments _ _ _ _ _ St).
  destruct (decide (q = p)) as [->|Hne].
  - rewrite lookup_insert_eq, Hs. cbn. by rewrite Hid.
  - by rewrite lookup_insert_ne.
Qed.

Lemma Tables_Freed p s m m' :
  segments m !! p = Some s → Freed p s m m' → Tables m → Tables m'.
Proof.
  intros Hs F T. destruct (fixed_members _ _ (fr_fixed _ _ _ _ F)) as (Hm & _).
  pose proof (Tables_UniqueIds m T) as U.
  assert (p ∉ freeSlots m) as Hnf.
  { intros Hp. by rewrite (tb_free m T p Hp) in Hs. }
  split.
  - rewrite (fr_next _ _ _ _ F). apply T.
  - intros q t. rewrite (fr_segments _ _ _ _ F), (fr_next _ _ _ _ F).
    intros Ht%lookup_delete_Some. by apply (tb_below m T q), Ht.
  - intros i q. rewrite (fr_index _ _ _ _ F), (fr_segments _ _ _ _ F).
    rewrite lookup_delete_Some, (tb_index m T). split.
    + intros (Hne & t & Ht & <-). exists t. split; [|done].
      apply lookup_delete_Some. split; [|done]. intros <-. congruence.
    + intros (t & Ht%lookup_delete_Some & <-). destruct Ht as [Hne Ht].
      split; [|eauto]. intros Hid. apply Hne. by apply (ids_inj m U p q s t).
  - intros q. rewrite (fr_freeSlots _ _ _ _ F), (fr_segments _ _ _ _ F).
    intros [Hq| ->%list_elem_of_singleton]%elem_of_app.
    + apply lookup_delete_None. right. by apply (tb_free m T).
    + apply lookup_delete_eq.
  - rewrite (fr_freeSlots _ _ _ _ F). apply list.NoDup_app. split_and!.
    + apply T.
    + by intros q Hq ->%list_elem_of_singleton.
    + apply NoDup_singleton.
  - intros q. rewrite Hm, (fr_freeSlots _ _ _ _ F), (fr_segments _ _ _ _ F).
    rewrite (tb_slots m T q), elem_of_app, list_elem_of_singleton.
    destruct (decide (q = p)) as [->|Hne].
    + rewrite lookup_delete_eq. split; [tauto|]. intros _. right. eauto.
    + rewrite lookup_delete_ne by done. tauto.
Qed.

Lemma Tables_FreedAll l :
  ∀ m m', FreedAll l m m' → Tables m → Tables m'.
Proof.
  induction l as [|p l IH]; intros m m' F T; cbn in F; [by subst|].
  destruct F as (s & m1 & Hs & F1 & F). eapply IH; [exact F|].
  by eapply Tables_Freed.
Qed.

Lemma Tables_Retired prev m m' : Retired prev m m' → Tables m → Tables m'.
Proof.
  unfold Retired. destruct prev as [q|]; [|by intros ->].
  intros (s & Hs & H) T. destruct (isEmergencyHead s).
  - by eapply Tables_Freed.
  - by eapply Tables_Relinked.
Qed.

Lemma last_snoc_take {A} (l : list A) x :
  list.last l = Some x → l = take (length l - 1) l ++ [x].
Proof.
  intros H. destruct (list.last_Some l x) as [[l' ->] _]; [done|].
  rewrite length_app. cbn. replace (length l' + 1 - 1)%nat with (length l') by lia.
  by rewrite take_app_length.
Qed.

Lemma Tables_Allocated type p m m' :
  nextSegmentId m < 2 ^ 64 - 1 →
  Allocated type p m m' → Tables m → Tables m'.
Proof.
  intros Hroom A T. destruct (fixed_members _ _ (al_fixed _ _ _ _ A)) as (Hm & _).
  pose proof (tb_next m T) as Hn. unfold uint64 in Hn.
  assert (nextSegmentId m' = nextSegmentId m + 1) as Hnext.
  { rewrite (al_next _ _ _ _ A). apply wrap64_small. unfold uint64. lia. }
  pose proof (last_snoc_take _ _ (al_back _ _ _ _ A)) as Hfs.
  rewrite <- (al_freeSlots _ _ _ _ A) in Hfs.
  pose proof (tb_free_nodup m T) as Nd. rewrite Hfs in Nd.
  apply list.NoDup_app in Nd as (Nd & Hdis & _).
  assert (p ∉ freeSlots m') as Hp'.
  { intros Hp. apply (Hdis p Hp). by apply list_elem_of_singleton. }
  split.
  - rewrite Hnext. unfold uint64. lia.
  - intros q t. rewrite (al_segments _ _ _ _ A), Hnext.
    intros [[<- <-]|[Hne Ht]]%lookup_insert_Some; [cbn; lia|].
    pose proof (tb_below m T q t Ht). lia.
  - intros i q. rewrite (al_index _ _ _ _ A), (al_segments _ _ _ _ A).
    rewrite lookup_insert_Some, (tb_index m T). split.
    + intros [[<- <-]|[Hne (t & Ht & <-)]].
      * eexists. split; [apply lookup_insert_eq|done].
      * exists t. split; [|done]. rewrite lookup_insert_ne; [done|].
        intros <-. by rewrite (al_fresh _ _ _ _ A) in Ht.
    + intros (t & [[<- <-]|[Hne Ht]]%lookup_insert_Some & <-); [by left|].
      right. split; [|eauto]. pose proof (tb_below m T q t Ht). lia.
  - intros q Hq. rewrite (al_segments _ _ _ _ A), lookup_insert_ne by congruence.
    apply (tb_free m T). rewrite Hfs. apply elem_of_app. by left.
  - done.
  - intros q. rewrite Hm, (al_segments _ _ _ _ A), (tb_slots m T q).
    rewrite Hfs at 1. rewrite elem_of_app, list_elem_of_singleton.
    destruct (decide (q = p)) as [->|Hne].
    + rewrite lookup_insert_eq. split; [|tauto]. intros _. right. eauto.
    + rewrite lookup_insert_ne by done. tauto.
Qed.

Lemma Tables_CleanedAll epoch clean :
  ∀ m m', CleanedAll epoch clean m m' → Tables m → Tables m'.
Proof.
  induction clean as [|p l IH]; intros m m' C T; cbn in C; [by subst|].
  destruct C as (s & m1 & Hs & R & C). eapply IH; [exact C|].
  eapply Tables_Relinked; [exact R|]. by eapply Tables_set_segment.
Qed.

Lemma Tables_rpcPool m f : Tables m → Tables (set_rpcPool f m).
Proof. by apply Tables_same. Qed.

Lemma Tables_new logId a pool d m :
  SegmentManager_new logId a pool d = inr m → Tables m.
Proof.
  unfold SegmentManager_new. intros H.
  destruct (Qle_bool 1 d); [|done].
  destruct (freeSegmentCount a <? 2); [done|].
  destruct (_ <? freeSegmentCount a); [done|]. injection H as <-.
  split; cbn.
  - unfold uint64. lia.
  - intros p s Hs. by rewrite lookup_empty in Hs.
  - intros i p. rewrite lookup_empty. split; [done|].
    intros (s & Hs & _). by rewrite lookup_empty in Hs.
  - intros p _. apply lookup_empty.
  - apply NoDup_seq.
  - intros p. rewrite elem_of_seq, lookup_empty. split.
    + intros H. left. lia.
    + intros [H|[? ?]]; [lia|done].
Qed.

Section Chains.
Variable appendFits : LogSegment → LogEntry → bool.
Variable INVALID_SEGMENT_ID : Z.

(** The managers a successful [allocHead] passes through: after the
    reclamation scan, after the allocation, after the digest-time
    transitions, after the replica was opened, after the previous head was
    retired. *)
Lemma allocHead_chain m b p m' :
  WF m → allocHead appendFits INVALID_SEGMENT_ID b m = Ok (Some p) m' →
  let prev := head (segmentsByState m HEAD) in
  ∃ m1 type ma m2 m3,
    let nh := construct (allocator m1) (nextSegmentId m) p
                (bool_decide (type = ALLOC_EMERGENCY_HEAD)) in
    let header := headerOf ma nh INVALID_SEGMENT_ID in
    let digest := LOG_ENTRY_TYPE_LOGDIGEST (expectedDigest m) in
    FreedAll (reclaimed m) m m1 ∧ WF m1 ∧ type ≠ ALLOC_SURVIVOR ∧
    Allocated type p m1 ma ∧ WF ma ∧ segments ma !! p = Some nh ∧
    (∀ q, prev = Some q →
          q ≠ p ∧ segments ma !! q = segments m !! q ∧ is_Some (segments m !! q)) ∧
    (is_Some prev → is_Some (prevReplica (segments ma) prev)) ∧
    refused appendFits nh header = false ∧
    refused appendFits (set_entries (λ es, es ++ [header]) nh) digest = false ∧
    DigestMoves (appended p nh header ma) m2 ∧
    segments m2 = segments (appended p nh header ma) ∧
    Staged p (installedSegment nh header digest)
      (headReplication (segments ma) (id nh) prev) m2 m3 ∧
    Retired prev m3 m'.
Proof.
  intros W H prev.
  destruct (allocHead_inv appendFits INVALID_SEGMENT_ID m b _ m' W H)
    as (Hlen & m1 & Hscan & F & W1
        & [(? & _)|(type & p' & ma & Hp & Hty & Hem & Hma & A & Hin)]);
    [done|].
  injection Hp as <-.
  destruct (FreedAll_fixed _ _ _ F) as [Hfix Hnext].
  fold prev in Hin.
  set (nh := construct (allocator m1) (nextSegmentId m) p
               (bool_decide (type = ALLOC_EMERGENCY_HEAD))).
  pose proof (Allocated_WF _ _ _ _ W1 A) as Wa.
  assert (segments ma = <[p := nh]> (segments m1)) as Hsa.
  { rewrite (al_segments _ _ _ _ A). unfold nh. by rewrite Hnext. }
  assert (segments ma !! p = Some nh) as Hnh by (rewrite Hsa; apply lookup_insert_eq).
  assert (∀ q, prev = Some q →
               q ≠ p ∧ segments ma !! q = segments m !! q ∧ is_Some (segments m !! q))
    as Hprev.
  { intros q Hq. apply head_Some_elem_of in Hq.
    pose proof (swept_segments m m1 q HEAD W F Hq ltac:(done)) as Hq1.
    destruct (WF_listed_occupied m q HEAD W Hq) as [t Ht].
    assert (q ≠ p) as Hne.
    { intros ->. rewrite (al_fresh _ _ _ _ A) in Hq1. congruence. }
    split_and!; [done| |eauto]. by rewrite Hsa, lookup_insert_ne. }
  assert (∀ q, prev = Some q → q ≠ p ∧ is_Some (segments ma !! q)) as Hprev'.
  { intros q Hq. destruct (Hprev q Hq) as (? & Hsame & ?). by rewrite Hsame. }
  destruct (installHead_inv appendFits INVALID_SEGMENT_ID ma p nh prev _ m'
              Wa Hnh Hprev' Hin) as (_ & m2 & m3 & DM & St & Ret).
  destruct (installHead_run appendFits INVALID_SEGMENT_ID ma p nh prev Wa Hnh Hprev')
    as (m2' & m3' & m'' & _ & _ & _ & Hrun).
  rewrite Hin in Hrun.
  destruct (allocHead_post appendFits INVALID_SEGMENT_ID m b p m' W H)
    as (_ & _ & _ & m1' & type' & header' & Hscan' & _ & _ & _ & _ & _ & Hp').
  (* the digest is the one computed from [m] *)
  assert (headDigest ma p prev = expectedDigest m) as Hdig.
  { assert (segments m3 !! p = Some (installedSegment nh (headerOf ma nh INVALID_SEGMENT_ID)
              (LOG_ENTRY_TYPE_LOGDIGEST (headDigest ma p prev)))) as Hp3.
    { rewrite (sg_segments _ _ _ _ _ St). apply lookup_insert_eq. }
    assert (segments m' !! p = segments m3 !! p) as Hsame.
    { destruct prev as [q|] eqn:Hq; [|by cbn in Ret; subst].
      destruct (Hprev q eq_refl) as (Hne & _).
      by apply (Retired_segments q m3 m' p). }
    rewrite Hsame, Hp3 in Hp'.
    assert (∀ x y : LogSegment, Some x = Some y → entries x = entries y) as He
      by (by intros ?? [= ->]).
    apply He in Hp'. cbn in Hp'. congruence. }
  exists m1, type, ma, m2, m3. cbv zeta. fold nh. rewrite <- Hdig.
  destruct (refused appendFits nh (headerOf ma nh INVALID_SEGMENT_ID)) eqn:R1; [done|].
  destruct (refused appendFits _ (LOG_ENTRY_TYPE_LOGDIGEST (headDigest ma p prev))) eqn:R2;
    [done|].
  split_and!; try done.
  - intros [q Hq]. rewrite Hq in Hrun.
    destruct (prevReplica (segments ma) prev) eqn:Hr; [eauto|].
    by rewrite Hq in Hr; rewrite Hr in Hrun.
  - by destruct (DigestMoves_segments _ _ DM).
Qed.

End Chains.

Section TableSteps.
Variable appendFits : LogSegment → LogEntry → bool.
Variable INVALID_SEGMENT_ID : Z.

(** The managers a returning [allocSurvivor] passes through. *)
Lemma allocSurvivor_chain h m r m' :
  WF m → allocSurvivor appendFits h m = Ok r m' →
  ∃ m1, freeUnreferencedSegments m = Ok tt m1 ∧ FreedAll (reclaimed m) m m1 ∧ WF m1 ∧
    ((r = None ∧ m' = m1 ∧ mayAlloc ALLOC_SURVIVOR m1 = Ok false m1) ∨
     (∃ p ma, r = Some p ∧ mayAlloc ALLOC_SURVIVOR m1 = Ok true m1 ∧
        Allocated ALLOC_SURVIVOR p m1 ma ∧ WF ma ∧
        let nh := construct (allocator m1) (nextSegmentId m) p false in
        let header := LOG_ENTRY_TYPE_SEGHEADER (logId ma) (id nh)
                        (segmentSize (allocator ma)) h in
        segments ma !! p = Some nh ∧
        refused appendFits nh header = false ∧
        Staged p (set_replicatedSegment (Some (id nh))
                    (set_entries (λ es, es ++ [header]) nh))
          [AllocateNonHead (id nh)] ma m')).
Proof.
  intros W H. unfold allocSurvivor in H.
  apply bind_inv in H as (r0 & mx & Halloc & H).
  destruct (alloc_inv _ _ _ _ W Halloc) as (m1 & Hscan & F & W1 & Hcase).
  destruct (FreedAll_fixed _ _ _ F) as [_ Hnext].
  exists m1. split_and!; [done..|].
  destruct Hcase as [(-> & -> & Hno)|(p & -> & Hyes & A)].
  - apply ret_inv in H as [-> ->]. by left.
  - right. exists p, mx. pose proof (Allocated_WF _ _ _ _ W1 A) as Wa.
    set (nh := construct (allocator m1) (nextSegmentId m) p false).
    assert (segments mx !! p = Some nh) as Hnh.
    { rewrite (al_segments _ _ _ _ A), Hnext. apply lookup_insert_eq. }
    rewrite bind_run, (writeHeader_run appendFits mx p nh h Hnh) in H. cbv zeta in H.
    destruct (refused appendFits nh _) eqn:Href; [done|].
    erewrite bind_Ok in H by (apply deref_Ok, lookup_insert_eq).
    rewrite bind_run in H. cbn [modify] in H. rewrite bind_run in H. cbn [modify] in H.
    apply ret_inv in H as [Hr Hm']. subst r m'.
    do 4 (split; [done|]). cbv zeta. fold nh. rewrite Href.
    do 2 (split; [done|]). split; cbn; [done| |done].
    by rewrite insert_insert_eq.
Qed.

Lemma Tables_step m m' :
  WF m → Tables m → nextSegmentId m < 2 ^ 64 - 1 →
  step appendFits INVALID_SEGMENT_ID m m' → Tables m'.
Proof.
  intros W T Hroom St.
  destruct St as [b r m m' H|h r m m' H|clean m m' H|out out' m m' H
                 |m m' H|m m' H|mn out out' m m' H|n r m m' H|pool m|p s e m Hs].
  - destruct r as [p|].
    + destruct (allocHead_chain appendFits INVALID_SEGMENT_ID m b p m' W H)
        as (m1 & type & ma & m2 & m3 & F & W1 & _ & A & Wa & Hnh & _ & _ & _ & _
            & DM & Hs2 & Stg & Ret).
      destruct (FreedAll_fixed _ _ _ F) as [_ Hnext].
      eapply Tables_Retired; [exact Ret|].
      eapply (Tables_Staged p); [| |exact Stg|].
      { rewrite Hs2. apply lookup_insert_eq. }
      { reflexivity. }
      eapply Tables_DigestMoves; [exact DM|].
      eapply Tables_set_segment; [exact Hnh|reflexivity|].
      eapply Tables_Allocated; [|exact A|]; [by rewrite Hnext|].
      by eapply Tables_FreedAll.
    + destruct (allocHead_inv appendFits INVALID_SEGMENT_ID m b None m' W H)
        as (_ & m1 & _ & F & _ & [(_ & -> & _)|(? & ? & ? & ? & _)]); [|done].
      by eapply Tables_FreedAll.
  - destruct (allocSurvivor_chain h m r m' W H)
      as (m1 & _ & F & W1 & [(_ & -> & _)|(p & ma & _ & _ & A & Wa & Hnh & _ & Stg)]).
    + by eapply Tables_FreedAll.
    + destruct (FreedAll_fixed _ _ _ F) as [_ Hnext].
      refine (Tables_Staged p _ _ _ _ _ Hnh _ Stg _); [reflexivity|].
      eapply Tables_Allocated; [|exact A|]; [by rewrite Hnext|].
      by eapply Tables_FreedAll.
  - destruct (cleaningComplete_inv clean m m' W H) as (_ & _ & m1 & D & C).
    eapply Tables_CleanedAll; [exact C|]. apply Tables_rpcPool.
    exact (Tables_Drained _ _ _ _ D T).
  - destruct (cleanableSegments_run out m W) as (m1 & D & Heq).
    rewrite Heq in H. injection H as _ <-. exact (Tables_Drained _ _ _ _ D T).
  - injection H as <-. by apply (Tables_same m).
  - injection H as <-. by apply (Tables_same m).
  - by apply getActiveSegments_state in H as ->.
  - unfold increaseSurvivorReserve in H. rewrite bind_run in H. cbn [gets] in H.
    destruct (_ <? _); [by injection H as _ <-|].
    destruct (_ <? _); [by injection H as _ <-|].
    injection H as _ <-. by apply (Tables_same m).
  - by apply Tables_rpcPool.
  - by eapply Tables_set_segment.
Qed.

Lemma Tables_steps m0 m :
  WF m0 → Tables m0 →
  rtc (issuing appendFits INVALID_SEGMENT_ID) m0 m → WF m ∧ Tables m.
Proof.
  intros W T Hsteps. induction Hsteps as [m|m0 m1 m [Hroom St] _ IH]; [done|].
  destruct (step_effect appendFits INVALID_SEGMENT_ID m0 m1 W St) as (W1 & _).
  apply IH; [done|]. exact (Tables_step m0 m1 W T Hroom St).
Qed.

End TableSteps.

(** ** Accessors *)

Lemma collect_run minSegmentId :
  ∀ l out m, (∀ p, p ∈ l → is_Some (segments m !! p)) →
    foreachAcc l (λ p out, s ← deref p;
                           mret (if minSegmentId <=? id s then out ++ [p] else out)) out m
    = Ok (out ++ filter (λ p, atLeast minSegmentId (segments m) p) l) m.
Proof.
  induction l as [|p l IH]; intros out m Hocc; cbn [foreachAcc].
  - by rewrite app_nil_r.
  - destruct (Hocc p ltac:(by left)) as [s Hs].
    erewrite bind_Ok by (erewrite bind_Ok by (by apply deref_Ok); reflexivity).
    rewrite IH by (intros q Hq; apply Hocc; by right).
    rewrite filter_cons.
    assert (atLeast minSegmentId (segments m) p = (minSegmentId <=? id s)) as Hat
      by (unfold atLeast; by rewrite Hs).
    destruct (minSegmentId <=? id s) eqn:Hle.
    + rewrite decide_True by (by rewrite Hat). by rewrite <- app_assoc.
    + rewrite decide_False; [done|]. rewrite Hat. by intros [].
Qed.

Lemma getActiveSegments_run minSegmentId out m :
  WF m → (length (segmentsByState m HEAD) ≤ 1)%nat →
  getActiveSegments minSegmentId out m =
    if logIteratorCount m =? 0 then Err SegmentManagerException
    else Ok (out ++ filter (λ p, atLeast minSegmentId (segments m) p)
                      (segmentsByState m NEWLY_CLEANABLE
                       ++ segmentsByState m CLEANABLE
                       ++ segmentsByState m FREEABLE_PENDING_DIGEST_AND_REFERENCES
                       ++ option_list (head (segmentsByState m HEAD)))) m.
Proof.
  intros W Hlen. unfold getActiveSegments. rewrite bind_run. cbn [gets].
  destruct (logIteratorCount m =? 0); [done|].
  assert (∀ x p, p ∈ segmentsByState m x → is_Some (segments m !! p)) as Hocc.
  { intros x p Hp. by eapply WF_listed_occupied. }
  erewrite bind_Ok by (rewrite bind_run; cbn [gets]; apply collect_run, Hocc).
  erewrite bind_Ok by (rewrite bind_run; cbn [gets]; apply collect_run, Hocc).
  erewrite bind_Ok by (rewrite bind_run; cbn [gets]; apply collect_run, Hocc).
  erewrite bind_Ok by (by apply getHeadSegment_run).
  rewrite !list.filter_app, <- !app_assoc.
  destruct (head (segmentsByState m HEAD)) as [p|] eqn:Hh; cbn [option_list].
  - destruct (Hocc HEAD p (head_Some_elem_of _ _ Hh)) as [s Hs].
    erewrite bind_Ok by (by apply deref_Ok).
    change (option_list (Some p)) with [p]. rewrite filter_cons, filter_nil.
    assert (atLeast minSegmentId (segments m) p = (minSegmentId <=? id s)) as Hat
      by (unfold atLeast; by rewrite Hs).
    destruct (minSegmentId <=? id s) eqn:Hle.
    + rewrite decide_True by (by rewrite Hat). by rewrite <- !app_assoc.
    + rewrite decide_False by (rewrite Hat; by intros []). by rewrite app_nil_r.
  - change (option_list None) with (@nil nat). by rewrite filter_nil, app_nil_r.
Qed.

(** ** Counters and sizes under the reclamation scan *)

Lemma wrap32_range z : uint32 (wrap32 z).
Proof. unfold uint32, wrap32. apply Z.mod_pos_bound. lia. Qed.

Lemma Ranges_Freed p s m m' : Freed p s m m' → Ranges m → Ranges m'.
Proof.
  intros F [H1 H2 H3 H4 H5].
  destruct (fixed_members _ _ (fr_fixed _ _ _ _ F)) as (_ & _ & Hs & He & _).
  split.
  - by rewrite He.
  - rewrite (fr_emergency _ _ _ _ F). destruct (isEmergencyHead s); [apply wrap32_range|done].
  - by rewrite Hs.
  - rewrite (fr_survivor _ _ _ _ F). destruct (isEmergencyHead s); [done|].
    destruct (0 <? _); [apply wrap32_range|done].
  - rewrite (fr_allocator _ _ _ _ F). cbn. apply wrap32_range.
Qed.

Lemma Ranges_FreedAll l : ∀ m m', FreedAll l m m' → Ranges m → Ranges m'.
Proof.
  induction l as [|p l IH]; intros m m' F R; cbn in F; [by subst|].
  destruct F as (s & m1 & _ & F1 & F). eapply IH; [exact F|]. by eapply Ranges_Freed.
Qed.

Lemma sizes_FreedAll l :
  ∀ m m', FreedAll l m m' →
    segmentSize (allocator m') = segmentSize (allocator m) ∧
    segletSize (allocator m') = segletSize (allocator m).
Proof.
  induction l as [|p l IH]; intros m m' F; cbn in F; [by subst|].
  destruct F as (s & m1 & _ & F1 & F). destruct (IH _ _ F) as [-> ->].
  by rewrite (fr_allocator _ _ _ _ F1).
Qed.

(** ** The managers of the examples keep their tables *)

Section Reachable.
Variable appendFits : LogSegment → LogEntry → bool.
Variable INVALID_SEGMENT_ID : Z.

Lemma issuing_allocHead b m :
  nextSegmentId m < 2 ^ 64 - 1 →
  returns (allocHead appendFits INVALID_SEGMENT_ID b) m = true →
  issuing appendFits INVALID_SEGMENT_ID m (after (allocHead appendFits INVALID_SEGMENT_ID b) m).
Proof.
  intros Hroom Hr. destruct (returns_after _ _ Hr) as [r Hrun].
  split; [done|]. by eapply step_allocHead.
Qed.

Lemma issuing_allocSurvivor h m :
  nextSegmentId m < 2 ^ 64 - 1 →
  returns (allocSurvivor appendFits h) m = true →
  issuing appendFits INVALID_SEGMENT_ID m (after (allocSurvivor appendFits h) m).
Proof.
  intros Hroom Hr. destruct (returns_after _ _ Hr) as [r Hrun].
  split; [done|]. by eapply step_allocSurvivor.
Qed.

Lemma issuing_cleaningComplete clean m :
  nextSegmentId m < 2 ^ 64 - 1 →
  returns (cleaningComplete clean) m = true →
  issuing appendFits INVALID_SEGMENT_ID m (after (cleaningComplete clean) m).
Proof.
  intros Hroom Hr. destruct (returns_after _ _ Hr) as [[] Hrun].
  split; [done|]. by eapply step_cleaningComplete.
Qed.

Lemma issuing_cleanableSegments out m :
  nextSegmentId m < 2 ^ 64 - 1 →
  returns (cleanableSegments out) m = true →
  issuing appendFits INVALID_SEGMENT_ID m (after (cleanableSegments out) m).
Proof.
  intros Hroom Hr. destruct (returns_after _ _ Hr) as [r Hrun].
  split; [done|]. by eapply step_cleanableSegments.
Qed.

Lemma issuing_logIteratorCreated m :
  nextSegmentId m < 2 ^ 64 - 1 →
  issuing appendFits INVALID_SEGMENT_ID m (after logIteratorCreated m).
Proof. intros Hroom. split; [done|]. by eapply step_logIteratorCreated. Qed.

Lemma issuing_increaseSurvivorReserve n m :
  nextSegmentId m < 2 ^ 64 - 1 →
  issuing appendFits INVALID_SEGMENT_ID m (after (increaseSurvivorReserve n) m).
Proof.
  intros Hroom. destruct (returns_after (increaseSurvivorReserve n) m) as [r Hrun].
  { unfold returns, increaseSurvivorReserve. rewrite bind_run. cbn [gets].
    by repeat destruct (_ <? _). }
  split; [done|]. by eapply step_increaseSurvivorReserve.
Qed.

Lemma issuing_oracle pool m :
  nextSegmentId m < 2 ^ 64 - 1 →
  issuing appendFits INVALID_SEGMENT_ID m (set_rpcPool (λ _, pool) m).
Proof. intros Hroom. split; [done|]. apply step_oracle. Qed.

End Reachable.

Lemma run_reserved : rtc (issuing roomy allOnes) (fresh 8 0) reserved.
Proof. apply rtc_once. apply issuing_increaseSurvivorReserve. vm_compute. reflexivity. Qed.

Lemma run_withHead : rtc (issuing roomy allOnes) (fresh 8 0) withHead.
Proof.
  apply (rtc_r _ reserved); [apply run_reserved|].
  apply (issuing_allocHead roomy allOnes false reserved); vm_compute; reflexivity.
Qed.

Lemma run_withEmergencyHead : rtc (issuing roomy allOnes) (fresh 8 0) withEmergencyHead.
Proof.
  apply (rtc_r _ withHead); [apply run_withHead|].
  apply (issuing_allocHead roomy allOnes true withHead); vm_compute; reflexivity.
Qed.

Lemma run_cleanerInformed : rtc (issuing roomy allOnes) (fresh 8 0) cleanerInformed.
Proof.
  apply (rtc_r _ withEmergencyHead); [apply run_withEmergencyHead|].
  apply (issuing_cleanableSegments roomy allOnes [] withEmergencyHead);
    vm_compute; reflexivity.
Qed.

Lemma run_withSurvivor : rtc (issuing roomy allOnes) (fresh 8 0) withSurvivor.
Proof.
  apply (rtc_r _ cleanerInformed); [apply run_cleanerInformed|].
  apply (issuing_allocSurvivor roomy allOnes 1 cleanerInformed); vm_compute; reflexivity.
Qed.

Lemma run_cleaned : rtc (issuing roomy allOnes) (fresh 8 0) cleaned.
Proof.
  apply (rtc_r _ withSurvivor); [apply run_withSurvivor|].
  apply (issuing_cleaningComplete roomy allOnes [7%nat] withSurvivor); vm_compute; reflexivity.
Qed.

Lemma run_digested : rtc (issuing roomy allOnes) (fresh 8 0) digested.
Proof.
  apply (rtc_r _ cleaned); [apply run_cleaned|].
  apply (issuing_allocHead roomy allOnes false cleaned); vm_compute; reflexivity.
Qed.

Lemma run_epochPassed : rtc (issuing roomy allOnes) (fresh 8 0) epochPassed.
Proof.
  apply (rtc_r _ digested); [apply run_digested|].
  apply (issuing_oracle roomy allOnes _ digested). vm_compute. reflexivity.
Qed.

Lemma run_gated : rtc (issuing roomy allOnes) (fresh 8 0) gated.
Proof.
  apply (rtc_r _ cleaned); [apply run_cleaned|].
  apply (issuing_logIteratorCreated roomy allOnes cleaned). vm_compute. reflexivity.
Qed.

Lemma fresh_inv n e : 2 ≤ n → WF (fresh n e) ∧ Tables (fresh n e).
Proof.
  intros Hn. pose proof (fresh_is_constructed n e Hn) as Hnew.
  split; [by destruct (WF_new _ _ _ _ _ Hnew)|by eapply Tables_new].
Qed.

Lemma run_inv m : rtc (issuing roomy allOnes) (fresh 8 0) m → WF m ∧ Tables m.
Proof.
  intros Hrun. destruct (fresh_inv 8 0 ltac:(lia)) as [W T].
  by eapply Tables_steps.
Qed.

(** * Further properties of the segment manager *)

(** X1. Where the exact product of the free segment count and the
    expansion factor is an integer below 2^32, so that the multiplication
    in [double] and the conversion to [uint32_t] lose nothing, the
    constructor throws [SegmentManagerException] exactly when the expansion
    factor is below 1 or the allocator has fewer than two free segments; its
    assertion never fails.  The manager it builds has that product as
    [maxSegments], as many slots, all free and in increasing order on
    [freeSlots], no segment, two emergency heads and no survivor segment
    reserved. *)
Theorem SegmentManager_new_spec (logId : Z) (a : Allocator) (pool : ServerRpcPool)
    (d : Q) (k : Z) :
  (inject_Z (freeSegmentCount a) * d == inject_Z k)%Q → 0 ≤ k < 2 ^ 32 →
  match SegmentManager_new logId a pool d with
  | inl f => f = SegmentManagerException ∧ (¬ (1 <= d)%Q ∨ freeSegmentCount a < 2)
  | inr m =>
      (1 <= d)%Q ∧ 2 ≤ freeSegmentCount a ∧
      maxSegments m = k ∧
      freeSegmentCount a ≤ maxSegments m ∧
      freeSlots m = seq 0 (Z.to_nat (maxSegments m)) ∧
      segments m = ∅ ∧ states m = ∅ ∧ idToSlotMap m = ∅ ∧ allSegments m = [] ∧
      (∀ z, segmentsByState m z = []) ∧
      numEmergencyHeads m = 2 ∧ numEmergencyHeadsAlloced m = 0 ∧
      numSurvivorSegments m = 0 ∧ numSurvivorSegmentsAlloced m = 0 ∧
      nextSegmentId m = 0 ∧ logIteratorCount m = 0 ∧ allocator m = a
  end.
Proof.
  intros Hexact _.
  assert (Qfloor (inject_Z (freeSegmentCount a) * d) = k) as Hk.
  { transitivity (Qfloor (inject_Z k)); [by apply Qfloor_comp|apply Qfloor_Z]. }
  unfold SegmentManager_new. rewrite Hk.
  destruct (Qle_bool 1 d) eqn:Hd.
  - apply Qle_bool_iff in Hd.
    destruct (freeSegmentCount a <? 2) eqn:Hn.
    + apply Z.ltb_lt in Hn. split; [done|by right].
    + apply Z.ltb_ge in Hn.
      assert (freeSegmentCount a ≤ k) as Hmax.
      { rewrite <- Hk. destruct d as [num den]. unfold Qle in Hd. cbn in Hd.
        unfold Qfloor, inject_Z, Qmult. cbn.
        apply Z.div_le_lower_bound; [done|]. nia. }
      rewrite (proj2 (Z.ltb_ge _ _) Hmax). by split_and!.
  - split; [done|]. left. intros Hle. apply Qle_bool_iff in Hle. congruence.
Qed.

Section Lookup.
Variable appendFits : LogSegment → LogEntry → bool.
Variable INVALID_SEGMENT_ID : Z.

(** X2. From construction on, and for as long as [nextSegmentId] has not
    reached 2^64 - 1, every step leaves the tables of the manager
    consistent: the slots on [freeSlots] are empty and listed once, the
    slots below [maxSegments] are exactly the free and the occupied ones,
    [idToSlotMap] maps exactly the ids of the live segments to their slots,
    and the live segments carry distinct ids below [nextSegmentId]. *)
Theorem tables_invariant (logId : Z) (a : Allocator) (pool : ServerRpcPool) (d : Q)
    (m0 m : SegmentManager) :
  SegmentManager_new logId a pool d = inr m0 →
  rtc (issuing appendFits INVALID_SEGMENT_ID) m0 m →
  WF m ∧ Tables m ∧ UniqueIds m.
Proof.
  intros Hnew Hrun. destruct (WF_new _ _ _ _ _ Hnew) as (W0 & _).
  destruct (Tables_steps appendFits INVALID_SEGMENT_ID m0 m W0 (Tables_new _ _ _ _ _ Hnew) Hrun)
    as [W T].
  split_and!; [done..|]. by apply Tables_UniqueIds.
Qed.

(** X3. [doesIdExist(id)] returns true exactly when a live segment carries
    the id, and leaves the manager alone. *)
Theorem doesIdExist_spec (m : SegmentManager) (i : Z) :
  Tables m →
  ∃ b, doesIdExist i m = Ok b m ∧
       (b = true ↔ ∃ p s, segments m !! p = Some s ∧ id s = i).
Proof.
  intros T. eexists. split; [reflexivity|].
  rewrite bool_decide_eq_true. split.
  - intros [p Hp]. apply (tb_index m T) in Hp as (s & Hs & Hid). eauto.
  - intros (p & s & Hs & Hid). exists p. apply (tb_index m T). eauto.
Qed.

(** X4. [operator[]] returns the segment stored in an occupied slot, whose
    [slot] field is that slot, and throws [SegmentManagerException] for an
    empty slot and for a slot at or beyond [maxSegments]; the slot
    [idToSlotMap] records for an id holds the segment with that id. *)
Theorem operator_subscript_spec (m : SegmentManager) (sl : Z) :
  WF m → Tables m → 0 ≤ sl →
  (∀ s, segments m !! Z.to_nat sl = Some s →
        operator_subscript sl m = Ok s m ∧ Z.of_nat (slot s) = sl) ∧
  (segments m !! Z.to_nat sl = None →
   operator_subscript sl m = Err SegmentManagerException) ∧
  (maxSegments m ≤ sl → operator_subscript sl m = Err SegmentManagerException) ∧
  (∀ i p, idToSlotMap m !! i = Some p →
          ∃ s, operator_subscript (Z.of_nat p) m = Ok s m ∧ id s = i).
Proof.
  intros W T Hsl.
  assert (∀ q s, segments m !! q = Some s →
                 operator_subscript (Z.of_nat q) m = Ok s m) as Hlive.
  { intros q s Hs. unfold operator_subscript. rewrite bind_run. cbn [gets].
    assert (q < Z.to_nat (maxSegments m))%nat as Hlt by (apply (tb_slots m T); eauto).
    rewrite (proj2 (Z.leb_gt _ _)) by lia. by rewrite Nat2Z.id, Hs. }
  split_and!.
  - intros s Hs. pose proof (wf_slot m W _ s Hs) as Hslot.
    rewrite <- (Z2Nat.id sl) at 1 by done. split; [by apply Hlive|]. lia.
  - intros Hs. unfold operator_subscript. rewrite bind_run. cbn [gets].
    rewrite Hs. by destruct (_ <=? _).
  - intros Hmax. unfold operator_subscript. rewrite bind_run. cbn [gets].
    by rewrite (proj2 (Z.leb_le _ _) Hmax).
  - intros i p Hp. apply (tb_index m T) in Hp as (s & Hs & Hid).
    exists s. split; [by apply Hlive|done].
Qed.

Lemma Retired_next prev m m' :
  Retired prev m m' → nextSegmentId m' = nextSegmentId m.
Proof.
  unfold Retired. destruct prev as [q|]; [|by intros ->].
  intros (s & _ & H). destruct (isEmergencyHead s).
  - apply (fr_next _ _ _ _ H).
  - by destruct (others_tables _ _ (rl_others _ _ _ _ H)) as (_ & ? & _).
Qed.

(** X5. In a well-formed manager with consistent tables whose
    [nextSegmentId] is below 2^64 - 1, a head that [allocHead] returns is
    registered: its id is the value [nextSegmentId] had, which no segment
    carried before and which [nextSegmentId] now exceeds by one;
    [doesIdExist] finds the id, [idToSlotMap] records its slot and
    [operator[]] returns the new head for that slot. *)
Theorem allocHead_registers (m : SegmentManager) (mustNotFail : bool) (p : nat)
    (m' : SegmentManager) :
  WF m → Tables m → nextSegmentId m < 2 ^ 64 - 1 →
  allocHead appendFits INVALID_SEGMENT_ID mustNotFail m = Ok (Some p) m' →
  nextSegmentId m' = nextSegmentId m + 1 ∧
  doesIdExist (nextSegmentId m) m = Ok false m ∧
  doesIdExist (nextSegmentId m) m' = Ok true m' ∧
  idToSlotMap m' !! nextSegmentId m = Some p ∧
  ∃ s, operator_subscript (Z.of_nat p) m' = Ok s m' ∧
       id s = nextSegmentId m ∧ slot s = p ∧
       segmentsByState m' HEAD = [p].
Proof.
  intros W T Hroom H.
  pose proof (Tables_step appendFits INVALID_SEGMENT_ID m m' W T Hroom
                (step_allocHead _ _ _ _ _ _ H)) as T'.
  destruct (allocHead_post appendFits INVALID_SEGMENT_ID m mustNotFail p m' W H)
    as (W' & Hl & _ & m1 & type & header & _ & _ & _ & _ & _ & _ & Hp).
  destruct (allocHead_chain appendFits INVALID_SEGMENT_ID m mustNotFail p m' W H)
    as (m1' & type' & ma & m2 & m3 & F & _ & _ & A & _ & _ & _ & _ & _ & _
        & DM & _ & Stg & Ret).
  assert (idToSlotMap m' !! nextSegmentId m = Some p) as Hidx.
  { apply (tb_index m' T'). eauto. }
  split_and!.
  - rewrite (Retired_next _ _ _ Ret).
    destruct (besidesSegments_tables _ _ (sg_rest _ _ _ _ _ Stg)) as (_ & -> & _).
    destruct (DigestMoves_segments _ _ DM) as [_ Ho].
    destruct (others_tables _ _ Ho) as (_ & -> & _). cbn.
    rewrite (al_next _ _ _ _ A). destruct (FreedAll_fixed _ _ _ F) as [_ ->].
    pose proof (tb_next m T) as Hn. unfold uint64 in Hn.
    apply wrap64_small. unfold uint64. lia.
  - unfold doesIdExist, gets. f_equal. apply bool_decide_eq_false. intros [q Hq].
    apply (tb_index m T) in Hq as (s & Hs & Hid).
    pose proof (tb_below m T q s Hs). lia.
  - unfold doesIdExist, gets. f_equal. apply bool_decide_eq_true. eauto.
  - done.
  - eexists. split.
    { unfold operator_subscript. rewrite bind_run. cbn [gets].
      assert (p < Z.to_nat (maxSegments m'))%nat as Hlt by (apply (tb_slots m' T'); eauto).
      rewrite (proj2 (Z.leb_gt _ _)) by lia. by rewrite Nat2Z.id, Hp. }
    split_and!; [reflexivity|exact (wf_slot m' W' p _ Hp)|by rewrite Hl].
Qed.

End Lookup.

Section Survivors.
Variable appendFits : LogSegment → LogEntry → bool.
Variable INVALID_SEGMENT_ID : Z.

Lemma getFreeSurvivorCount_run m :
  getFreeSurvivorCount m
  = Ok (wrap32 (numSurvivorSegments m - numSurvivorSegmentsAlloced m)) m.
Proof.
  unfold getFreeSurvivorCount, downCast32. rewrite bind_run. cbn [gets].
  assert (∀ z, wrap32 (wrap32 z) = wrap32 z) as Hw.
  { intros z. unfold wrap32. apply Z.mod_mod. lia. }
  rewrite bind_run, bool_decide_eq_true_2 by apply Hw. cbn. by rewrite Hw.
Qed.

(** X6. [allocSurvivor] first runs the reclamation scan.  It returns NULL,
    leaving the manager as the scan left it, exactly when every reserved
    survivor segment is handed out.  Otherwise the segment it returns
    carries the id [nextSegmentId] had, is not an emergency head, holds
    the one header stamped with [headSegmentIdDuringCleaning], is the last
    segment of CLEANING_INTO, and was announced to the replica manager with
    [allocateNonHead]; one more survivor segment is handed out. *)
Theorem allocSurvivor_spec (m : SegmentManager) (h : Z) (r : option nat)
    (m' : SegmentManager) :
  WF m → Ranges m → allocSurvivor appendFits h m = Ok r m' →
  ∃ m1, freeUnreferencedSegments m = Ok tt m1 ∧
    match r with
    | None =>
        m' = m1 ∧ numSurvivorSegmentsAlloced m1 = numSurvivorSegments m1
    | Some p =>
        numSurvivorSegmentsAlloced m1 < numSurvivorSegments m1 ∧
        numSurvivorSegmentsAlloced m' = numSurvivorSegmentsAlloced m1 + 1 ∧
        nextSegmentId m' = wrap64 (nextSegmentId m + 1) ∧
        replicaManager m' = replicaManager m ++ [AllocateNonHead (nextSegmentId m)] ∧
        states m' !! p = Some CLEANING_INTO ∧
        list.last (segmentsByState m' CLEANING_INTO) = Some p ∧
        ∃ s, segments m' !! p = Some s ∧
             id s = nextSegmentId m ∧ slot s = p ∧ isEmergencyHead s = false ∧
             appendsDisabled s = false ∧
             entries s = [LOG_ENTRY_TYPE_SEGHEADER (logId m) (nextSegmentId m)
                            (segmentSize (allocator m)) h] ∧
             replicatedSegment s = Some (nextSegmentId m)
    end.
Proof.
  intros W R H.
  destruct (allocSurvivor_chain appendFits h m r m' W H)
    as (m1 & Hscan & F & W1
        & [(-> & -> & Hno)|(p & ma & -> & Hyes & A & Wa & Hnh & Href & Stg)]).
  - exists m1. split; [done|]. split; [done|].
    pose proof (Ranges_FreedAll _ _ _ F R) as R1.
    destruct (mayAlloc_inv _ _ _ _ R1 Hno) as (_ & (_ & Hle & _) & Hp).
    cbn in Hp. symmetry in Hp. apply Z.ltb_ge in Hp. lia.
  - exists m1. split; [done|].
    pose proof (Ranges_FreedAll _ _ _ F R) as R1.
    destruct (mayAlloc_inv _ _ _ _ R1 Hyes) as (_ & _ & Hp).
    cbn in Hp. symmetry in Hp. apply Z.ltb_lt in Hp.
    destruct (FreedAll_fixed _ _ _ F) as [Hfix1 Hnext].
    destruct (fixed_members _ _ Hfix1) as (_ & Hrep1 & _ & _ & Hlog1).
    destruct (fixed_members _ _ (al_fixed _ _ _ _ A)) as (_ & Hrepa & _ & _ & Hloga).
    destruct (besidesSegments_lists _ _ (sg_rest _ _ _ _ _ Stg))
      as (Hst & _ & _ & _ & Hnx & _).
    destruct (besidesSegments_tables _ _ (sg_rest _ _ _ _ _ Stg))
      as (_ & _ & _ & _ & _ & _ & Hssa).
    destruct (sizes_FreedAll _ _ _ F) as [Hsize _].
    destruct (allocSurvivor_post appendFits h m (Some p) m' W H) as (_ & _ & Hl).
    split_and!.
    + done.
    + rewrite Hssa, (al_survivor _ _ _ _ A), decide_True by done.
      apply wrap32_small. destruct R1 as [_ _ [? ?] [? ?] _]. unfold uint32. lia.
    + by rewrite Hnx, (al_next _ _ _ _ A), Hnext.
    + by rewrite (sg_replica _ _ _ _ _ Stg), Hrepa, Hrep1.
    + rewrite Hst, (al_states _ _ _ _ A). apply lookup_insert_eq.
    + rewrite Hl, decide_True by done. apply list.last_snoc.
    + eexists. split; [rewrite (sg_segments _ _ _ _ _ Stg); apply lookup_insert_eq|].
      cbn. rewrite Hloga, Hlog1, (al_allocator _ _ _ _ A). cbn. rewrite Hsize.
      by split_and!.
Qed.


End Survivors.

(** X8. [cleanableSegments] appends the segments of NEWLY_CLEANABLE to
    [out] in list order and moves them, in that order, to the back of
    CLEANABLE; no other list and no segment changes.  A second call right
    after finds nothing: it returns its argument and changes nothing. *)
Theorem cleanableSegments_spec (m : SegmentManager) (out : list nat) :
  WF m →
  ∃ m', cleanableSegments out m = Ok (out ++ segmentsByState m NEWLY_CLEANABLE) m' ∧
        segmentsByState m' NEWLY_CLEANABLE = [] ∧
        segmentsByState m' CLEANABLE
        = segmentsByState m CLEANABLE ++ segmentsByState m NEWLY_CLEANABLE ∧
        (∀ z, z ≠ NEWLY_CLEANABLE → z ≠ CLEANABLE →
              segmentsByState m' z = segmentsByState m z) ∧
        (∀ p, p ∈ segmentsByState m NEWLY_CLEANABLE → states m' !! p = Some CLEANABLE) ∧
        segments m' = segments m ∧
        ∀ out', cleanableSegments out' m' = Ok out' m'.
Proof.
  intros W. destruct (cleanableSegments_run out m W) as (m' & D & Hrun).
  exists m'. split_and!; [done|by apply (Drained_from _ _ _ _ D)
                         |by apply (Drained_to _ _ _ _ D)
                         |by intros; apply (Drained_other _ _ _ _ _ D)
                         | |apply (dr_segments _ _ _ _ D)|].
  - intros p Hp. by rewrite (dr_states _ _ _ _ D), decide_True.
  - intros out'. unfold cleanableSegments. rewrite bind_run. cbn [gets].
    rewrite (Drained_from _ _ _ _ D). cbn. by rewrite (Drained_from _ _ _ _ D).
Qed.

Lemma getHeadSegment_many m :
  (1 < length (segmentsByState m HEAD))%nat → getHeadSegment m = Err AssertionFailed.
Proof.
  intros Hl. unfold getHeadSegment. rewrite bind_run. cbn [gets].
  destruct (segmentsByState m HEAD) as [|q [|q' l]]; [cbn in Hl; lia..|].
  rewrite bind_run. by rewrite bool_decide_eq_false_2 by (cbn; lia).
Qed.

(** X9. On a well-formed manager, [getActiveSegments] throws
    [SegmentManagerException] when no log iterator exists.  Otherwise, with
    more than one segment in HEAD (as a throwing [allocHead] leaves them),
    the assertion of [getHeadSegment] fails; with at most one it leaves the
    manager alone and appends to its out-parameter, each once, exactly the
    segments with an id of at least [minSegmentId] that are in
    NEWLY_CLEANABLE, CLEANABLE, FREEABLE_PENDING_DIGEST_AND_REFERENCES or
    HEAD, in that order of states; a segment in any other state is never
    reported. *)
Theorem getActiveSegments_spec (m : SegmentManager) (minSegmentId : Z)
    (out : list nat) :
  WF m →
  (logIteratorCount m = 0 →
   getActiveSegments minSegmentId out m = Err SegmentManagerException) ∧
  (logIteratorCount m ≠ 0 → (1 < length (segmentsByState m HEAD))%nat →
   getActiveSegments minSegmentId out m = Err AssertionFailed) ∧
  (logIteratorCount m ≠ 0 → (length (segmentsByState m HEAD) ≤ 1)%nat →
   ∃ found,
     getActiveSegments minSegmentId out m = Ok (out ++ found) m ∧
     found = filter (λ p, atLeast minSegmentId (segments m) p)
               (segmentsByState m NEWLY_CLEANABLE ++ segmentsByState m CLEANABLE
                ++ segmentsByState m FREEABLE_PENDING_DIGEST_AND_REFERENCES
                ++ segmentsByState m HEAD) ∧
     NoDup found ∧
     ∀ p, p ∈ found ↔
          ∃ s x, segments m !! p = Some s ∧ minSegmentId ≤ id s ∧
                 states m !! p = Some x ∧
                 x ∈ [NEWLY_CLEANABLE; CLEANABLE;
                      FREEABLE_PENDING_DIGEST_AND_REFERENCES; HEAD]).
Proof.
  intros W. split_and!.
  - intros Hc. unfold getActiveSegments. rewrite bind_run. cbn [gets]. by rewrite Hc.
  - intros Hc Hlen. apply Z.eqb_neq in Hc.
    unfold getActiveSegments. rewrite bind_run. cbn [gets]. rewrite Hc.
    assert (∀ x p, p ∈ segmentsByState m x → is_Some (segments m !! p)) as Hocc.
    { intros x p Hp. by eapply WF_listed_occupied. }
    erewrite bind_Ok by (rewrite bind_run; cbn [gets]; apply collect_run, Hocc).
    erewrite bind_Ok by (rewrite bind_run; cbn [gets]; apply collect_run, Hocc).
    erewrite bind_Ok by (rewrite bind_run; cbn [gets]; apply collect_run, Hocc).
    by rewrite bind_run, (getHeadSegment_many m Hlen).
  - intros Hc Hlen. rewrite (getActiveSegments_run minSegmentId out m W Hlen).
    apply Z.eqb_neq in Hc. rewrite Hc.
    assert (option_list (head (segmentsByState m HEAD)) = segmentsByState m HEAD) as ->.
    { destruct (segmentsByState m HEAD) as [|q [|q' l]]; [done..|cbn in Hlen; lia]. }
    eexists. split; [reflexivity|]. split; [reflexivity|]. split.
    + apply list.NoDup_filter.
      assert (∀ q x y, q ∈ segmentsByState m x → q ∈ segmentsByState m y → x ≠ y → False)
        as Hdis.
      { intros q x y Hx Hy Hne. apply Hne. by eapply WF_disjoint. }
      repeat (apply list.NoDup_app; split_and!);
        try apply (wf_nodup m W);
        intros q Hq; rewrite ?elem_of_app; intros Hq';
        repeat match goal with
               | Hx : _ ∨ _ |- _ => destruct Hx
               end;
        match goal with
        | Hx : q ∈ segmentsByState m ?x, Hy : q ∈ segmentsByState m ?y |- _ =>
            by apply (Hdis q x y Hx Hy)
        end.
    + intros p. rewrite (list_elem_of_filter (λ p, Is_true (atLeast _ _ p))).
      rewrite !elem_of_app, !(wf_lists m W). unfold atLeast. split.
      * intros [Hat Hst]. destruct (segments m !! p) as [s|]; [|done].
        apply Is_true_true, Z.leb_le in Hat. exists s.
        destruct Hst as [Hst|[Hst|[Hst|Hst]]]; eexists;
          (split_and!; [done|done|exact Hst|]); set_solver.
      * intros (s & x & -> & Hle & Hx & Hin). split.
        { by apply Is_true_true, Z.leb_le. }
        rewrite Hx.
        repeat (apply elem_of_cons in Hin as [->|Hin]); [tauto..|].
        by apply elem_of_nil in Hin.
Qed.

(** X10. Creating a log iterator and destroying it again leaves the
    manager exactly as it was, for every count that [int] can increment. *)
Theorem logIterator_round_trip (m : SegmentManager) :
  - 2 ^ 31 ≤ logIteratorCount m < 2 ^ 31 - 1 →
  (logIteratorCreated;; logIteratorDestroyed) m = Ok tt m.
Proof.
  intros Hc. unfold logIteratorCreated, logIteratorDestroyed, modify.
  rewrite bind_run. cbv beta iota. f_equal.
  assert (∀ c, - 2 ^ 31 ≤ c < 2 ^ 31 - 1 → wrapInt (wrapInt (c + 1) - 1) = c) as Hw.
  { intros c Hr. unfold wrapInt.
    rewrite (Z.mod_small (c + 1 + 2 ^ 31)) by lia.
    replace (c + 1 + 2 ^ 31 - 2 ^ 31 - 1 + 2 ^ 31) with (c + 2 ^ 31) by lia.
    rewrite Z.mod_small by lia. lia. }
  destruct m as [? ? ? ? ? ? ? ? ? ? ? ? ? ? ? ? c].
  unfold set_logIteratorCount. cbn -[wrapInt Z.pow] in *. f_equal. by apply Hw.
Qed.

(** X11. [logIteratorDestroyed] does not look at the count: called when no
    iterator exists it leaves the count at -1, and the manager then treats
    an iterator as existing: [getActiveSegments] does not throw and a
    digest write performs none of its transitions. *)
Theorem logIteratorDestroyed_unbalanced (appendFits : LogSegment → LogEntry → bool)
    (m : SegmentManager) :
  WF m → (length (segmentsByState m HEAD) ≤ 1)%nat → logIteratorCount m = 0 →
  ∃ m', logIteratorDestroyed m = Ok tt m' ∧
        logIteratorCount m' = -1 ∧
        (∀ minSegmentId out, ∃ r, getActiveSegments minSegmentId out m' = Ok r m') ∧
        (∀ p s prev m'',
           segments m' !! p = Some s →
           (∀ q, prev = Some q → is_Some (segments m' !! q)) →
           writeDigest appendFits p prev m' = Ok tt m'' →
           ∀ z, segmentsByState m'' z = segmentsByState m z).
Proof.
  intros W Hlen Hc. eexists. split; [reflexivity|].
  set (m' := set_logIteratorCount (λ c, wrapInt (c - 1)) m).
  assert (logIteratorCount m' = -1) as Hc' by (cbn; by rewrite Hc).
  assert (WF m') as W' by (split; cbn; apply W).
  split_and!; [done| |].
  - intros minId out. rewrite (getActiveSegments_run minId out m' W' Hlen), Hc'.
    cbn. eauto.
  - intros p s prev m'' Hs Hprev Hrun.
    destruct (writeDigest_run appendFits m' p s prev W' Hs Hprev) as (m1 & DM & Heq).
    unfold DigestMoves in DM. rewrite Hc' in DM. cbn in DM. subst m1.
    rewrite Heq in Hrun. destruct (refused _ _ _); [done|]. by injection Hrun as <-.
Qed.

Lemma Retired_replica prev m m' :
  Retired prev m m' → replicaManager m' = replicaManager m.
Proof.
  unfold Retired. destruct prev as [q|]; [|by intros ->].
  intros (s & _ & H). destruct (isEmergencyHead s).
  - by destruct (fixed_members _ _ (fr_fixed _ _ _ _ H)) as (_ & ? & _).
  - by destruct (others_tables _ _ (rl_others _ _ _ _ H)) as (_ & _ & _ & _ & ? & _).
Qed.

Section Heads.
Variable appendFits : LogSegment → LogEntry → bool.
Variable INVALID_SEGMENT_ID : Z.

(** X12. A successful [allocHead] makes its calls on the replication layer
    in this order: [allocateHead] for the new head, chained to the
    replicated segment of the previous head, and only then [close] and
    [sync] on the previous head's replicated segment; with no previous
    head it makes the one [allocateHead] call.  The backups therefore
    always hold an open head. *)
Theorem allocHead_replication (m : SegmentManager) (mustNotFail : bool) (p : nat)
    (m' : SegmentManager) :
  WF m → allocHead appendFits INVALID_SEGMENT_ID mustNotFail m = Ok (Some p) m' →
  match head (segmentsByState m HEAD) with
  | None =>
      replicaManager m' = replicaManager m ++ [AllocateHead (nextSegmentId m) None]
  | Some q =>
      ∃ s r, segments m !! q = Some s ∧ replicatedSegment s = Some r ∧
             replicaManager m'
             = replicaManager m ++ [AllocateHead (nextSegmentId m) (Some r);
                                    Close r; Sync r (length (entries s))]
  end.
Proof.
  intros W H.
  destruct (allocHead_chain appendFits INVALID_SEGMENT_ID m mustNotFail p m' W H)
    as (m1 & type & ma & m2 & m3 & F & _ & _ & A & _ & _ & Hprev & Hrep & _ & _
        & DM & _ & Stg & Ret).
  destruct (FreedAll_fixed _ _ _ F) as [Hfix1 _].
  destruct (fixed_members _ _ Hfix1) as (_ & Hrep1 & _).
  destruct (fixed_members _ _ (al_fixed _ _ _ _ A)) as (_ & Hrepa & _).
  destruct (DigestMoves_segments _ _ DM) as [_ Ho].
  destruct (others_tables _ _ Ho) as (_ & _ & _ & _ & Hrep2 & _). cbn in Hrep2.
  assert (replicaManager m'
          = replicaManager m
            ++ headReplication (segments ma) (nextSegmentId m)
                 (head (segmentsByState m HEAD))) as Heq.
  { by rewrite (Retired_replica _ _ _ Ret), (sg_replica _ _ _ _ _ Stg), Hrep2, Hrepa, Hrep1. }
  rewrite Heq. unfold headReplication, prevReplica in *.
  destruct (head (segmentsByState m HEAD)) as [q|]; [|done].
  destruct (Hprev q eq_refl) as (_ & Hsame & [s Hs]).
  rewrite Hsame, Hs in *. destruct (Hrep ltac:(eauto)) as [r Hr].
  exists s, r. by rewrite Hr.
Qed.

(** X13. The head [allocHead] returns has its appends disabled exactly
    when it is an emergency head: every append to an emergency head is
    refused and changes nothing, while an append to a regular head goes
    through whenever the entry fits. *)
Theorem emergency_head_refuses_appends (m : SegmentManager) (mustNotFail : bool)
    (p : nat) (m' : SegmentManager) :
  WF m → allocHead appendFits INVALID_SEGMENT_ID mustNotFail m = Ok (Some p) m' →
  ∃ s, segments m' !! p = Some s ∧
       appendsDisabled s = isEmergencyHead s ∧
       ∀ e, append appendFits p e m'
            = if isEmergencyHead s then Ok false m'
              else if appendFits s e then Ok true (appended p s e m')
                   else Ok false m'.
Proof.
  intros W H.
  destruct (allocHead_post appendFits INVALID_SEGMENT_ID m mustNotFail p m' W H)
    as (_ & _ & _ & m1 & type & header & _ & _ & _ & _ & _ & _ & Hp).
  eexists. split; [exact Hp|]. split; [done|].
  intros e. rewrite (append_run appendFits m' p _ e Hp). unfold refused. cbn.
  destruct (bool_decide (type = ALLOC_EMERGENCY_HEAD)); [done|].
  cbn. by destruct (appendFits _ e).
Qed.

(** X14. [allocHead] throws [FatalError] when the segment header or the
    log digest does not fit the segment just allocated, whether that is a
    regular head or, with [mustNotFail] set, an emergency head:
    [mustNotFail] does not keep the call from throwing. *)
Theorem allocHead_append_refused (m : SegmentManager) (mustNotFail : bool) (p : nat)
    (ma : SegmentManager) (nh : LogSegment) :
  WF m → (length (segmentsByState m HEAD) ≤ 1)%nat →
  (alloc ALLOC_HEAD m = Ok (Some p) ma ∨
   ∃ m1, alloc ALLOC_HEAD m = Ok None m1 ∧ mustNotFail = true ∧
         alloc ALLOC_EMERGENCY_HEAD m1 = Ok (Some p) ma) →
  segments ma !! p = Some nh →
  let header := headerOf ma nh INVALID_SEGMENT_ID in
  let digest :=
    LOG_ENTRY_TYPE_LOGDIGEST (headDigest ma p (head (segmentsByState m HEAD))) in
  refused appendFits nh header = true ∨
  refused appendFits (set_entries (λ es, es ++ [header]) nh) digest = true →
  allocHead appendFits INVALID_SEGMENT_ID mustNotFail m = Err FatalError.
Proof.
  intros W Hlen Halloc Hnh header digest Href.
  set (prev := head (segmentsByState m HEAD)) in *.
  assert (WF ma ∧ ∀ q, prev = Some q → q ≠ p ∧ is_Some (segments ma !! q)) as [Wa Hprev].
  { assert (∀ m0 m1 type, WF m0 → FreedAll (reclaimed m0) m0 m1 → WF m1 →
              Allocated type p m1 ma →
              (∀ q, q ∈ segmentsByState m HEAD →
                    q ∈ segmentsByState m0 HEAD ∧ segments m0 !! q = segments m !! q) →
              WF ma ∧ ∀ q, prev = Some q → q ≠ p ∧ is_Some (segments ma !! q)) as Hgen.
    { intros m0 m1 type W0 F W1 A Hsame. split; [by eapply Allocated_WF|].
      intros q Hq. apply head_Some_elem_of in Hq.
      destruct (Hsame q Hq) as [Hq0 Hs0].
      pose proof (swept_segments m0 m1 q HEAD W0 F Hq0 ltac:(done)) as Hq1.
      destruct (WF_listed_occupied m q HEAD W Hq) as [t Ht].
      assert (q ≠ p) as Hne.
      { intros ->. rewrite (al_fresh _ _ _ _ A) in Hq1. congruence. }
      split; [done|]. rewrite (al_segments _ _ _ _ A), lookup_insert_ne by done.
      rewrite Hq1, Hs0. eauto. }
    destruct Halloc as [Halloc|(m1 & Hnone & _ & Halloc)].
    - destruct (alloc_inv _ _ _ _ W Halloc)
        as (m1 & _ & F & W1 & [(? & _)|(p' & [= <-] & _ & A)]); [done|].
      by apply (Hgen m m1 ALLOC_HEAD).
    - destruct (alloc_inv _ _ _ _ W Hnone)
        as (m1' & _ & F & W1 & [(_ & <- & _)|(? & ? & _)]); [|done].
      destruct (alloc_inv _ _ _ _ W1 Halloc)
        as (m2 & _ & F2 & W2 & [(? & _)|(p' & [= <-] & _ & A)]); [done|].
      apply (Hgen m1 m2 ALLOC_EMERGENCY_HEAD); [done..|].
      intros q Hq. split.
      + by rewrite (swept_lists m m1 _ W F), decide_False.
      + by apply (swept_segments m m1 q HEAD W F Hq). }
  destruct (installHead_run appendFits INVALID_SEGMENT_ID ma p nh prev Wa Hnh Hprev)
    as (m2 & m3 & m' & _ & _ & _ & Hrun).
  fold header digest in Hrun.
  assert (installHead appendFits INVALID_SEGMENT_ID prev p ma = Err FatalError) as Hfail.
  { rewrite Hrun. destruct (refused appendFits nh header); [done|].
    by destruct Href as [?| ->]. }
  unfold allocHead. erewrite bind_Ok by (by apply getHeadSegment_run). fold prev.
  destruct Halloc as [Halloc|(m1 & Hnone & -> & Halloc)].
  - by erewrite bind_Ok by exact Halloc.
  - erewrite bind_Ok by exact Hnone. cbv beta iota.
    rewrite bind_run. cbn [gets orb]. by erewrite bind_Ok by exact Halloc.
Qed.

End Heads.

(** X15. [increaseSurvivorReserve] always returns, never lowers the
    reserve and changes at most [numSurvivorSegments]: it returns false,
    changing nothing, for a request below the current reserve.  As long as
    the allocator has at least [numEmergencyHeads] free segments it sets
    the reserve to the request and returns true exactly when the request is
    at least the current reserve and at most the free segment count minus
    [numEmergencyHeads]. *)
Theorem increaseSurvivorReserve_spec (n : Z) (m : SegmentManager) :
  (∃ r : bool, increaseSurvivorReserve n m
        = Ok r (if r then set_numSurvivorSegments (λ _, n) m else m) ∧
        (r = true → numSurvivorSegments m ≤ n) ∧
        (n < numSurvivorSegments m → r = false)) ∧
  (Ranges m → numEmergencyHeads m ≤ freeSegmentCount (allocator m) →
   increaseSurvivorReserve n m =
     if bool_decide (numSurvivorSegments m ≤ n ∧
                     n ≤ freeSegmentCount (allocator m) - numEmergencyHeads m)
     then Ok true (set_numSurvivorSegments (λ _, n) m)
     else Ok false m).
Proof.
  split; [|by apply increaseSurvivorReserve_covered].
  unfold increaseSurvivorReserve. rewrite bind_run. cbn [gets].
  destruct (n <? numSurvivorSegments m) eqn:Hn.
  - exists false. by split_and!.
  - apply Z.ltb_ge in Hn. destruct (_ <? n).
    + exists false. split_and!; [done|done|lia].
    + exists true. split_and!; [done|done|lia].
Qed.

(** X16. In every state that calls that return lead to from the
    constructor (no call having thrown), [getHeadSegment] returns without
    failing its assertion and without changing the manager: NULL when HEAD
    is empty, otherwise the one segment in HEAD, which is live and in state
    HEAD. *)
Theorem getHeadSegment_observable (appendFits : LogSegment → LogEntry → bool)
    (INVALID_SEGMENT_ID : Z) (m : SegmentManager) :
  observable appendFits INVALID_SEGMENT_ID m →
  ∃ r, getHeadSegment m = Ok r m ∧
       match r with
       | None => segmentsByState m HEAD = []
       | Some p => segmentsByState m HEAD = [p] ∧ states m !! p = Some HEAD ∧
                   is_Some (segments m !! p)
       end.
Proof.
  intros Ho. destruct (observable_invariant appendFits INVALID_SEGMENT_ID m Ho) as [W Hlen].
  exists (head (segmentsByState m HEAD)). split; [by apply getHeadSegment_run|].
  destruct (segmentsByState m HEAD) as [|p [|q l]] eqn:Hh; cbn; [done| |cbn in Hlen; lia].
  assert (p ∈ segmentsByState m HEAD) as Hp by (rewrite Hh; by left).
  split_and!; [done|by apply (wf_lists m W)|by eapply WF_listed_occupied].
Qed.

(** X17. In every state the manager can be observed in, a live segment is
    stored in the slot its [slot] field names and is linked exactly once:
    on [allSegments] and on the list of the state [states] records for
    it, and on no other list; and only live segments are linked. *)
Theorem segment_on_one_list (appendFits : LogSegment → LogEntry → bool)
    (INVALID_SEGMENT_ID : Z) (m : SegmentManager) :
  observable appendFits INVALID_SEGMENT_ID m →
  (∀ p s, segments m !! p = Some s →
          slot s = p ∧ p ∈ allSegments m ∧
          ∃ x, states m !! p = Some x ∧ p ∈ segmentsByState m x ∧
               ∀ z, p ∈ segmentsByState m z → z = x) ∧
  (∀ p z, p ∈ segmentsByState m z → is_Some (segments m !! p)) ∧
  (∀ p, p ∈ allSegments m → is_Some (segments m !! p)) ∧
  NoDup (allSegments m) ∧ (∀ z, NoDup (segmentsByState m z)).
Proof.
  intros Ho. destruct (observable_invariant appendFits INVALID_SEGMENT_ID m Ho) as [W _].
  split_and!.
  - intros p s Hs. split; [by apply (wf_slot m W)|]. split; [apply (wf_all m W); eauto|].
    destruct (WF_state m p s W Hs) as [x Hx]. exists x.
    split_and!; [done|by apply (wf_lists m W)|].
    intros z Hz. apply (wf_lists m W) in Hz. congruence.
  - intros p z. by apply WF_listed_occupied.
  - intros p. apply (wf_all m W).
  - apply W.
  - apply W.
Qed.

Lemma allSegments_length m :
  WF m → length (allSegments m) = size (segments m).
Proof.
  intros W. rewrite <- size_dom.
  change (size (dom (segments m))) with (length (elements (dom (segments m)))).
  apply Permutation_length, NoDup_Permutation; [apply W|apply NoDup_elements|].
  intros p. rewrite elem_of_elements, elem_of_dom. apply (wf_all m W).
Qed.

(** X18. [getAllocatedSegmentCount] returns the number of live segments,
    as long as that number fits [uint32_t]; otherwise the narrowing
    conversion fails its assertion. *)
Theorem getAllocatedSegmentCount_spec (m : SegmentManager) :
  WF m →
  getAllocatedSegmentCount m
  = if bool_decide (Z.of_nat (size (segments m)) < 2 ^ 32)
    then Ok (Z.of_nat (size (segments m))) m
    else Err AssertionFailed.
Proof.
  intros W. unfold getAllocatedSegmentCount, downCast32.
  rewrite bind_run. cbn [gets]. rewrite (allSegments_length m W), bind_run.
  unfold wrap32. set (n := Z.of_nat (size (segments m))).
  assert (0 ≤ n) as Hn by (unfold n; lia).
  destruct (decide (n < 2 ^ 32)) as [Hlt|Hge].
  - rewrite (bool_decide_eq_true_2 (n < 2 ^ 32)) by done.
    rewrite bool_decide_eq_true_2 by (apply Z.mod_small; lia). cbn.
    by rewrite Z.mod_small by lia.
  - rewrite (bool_decide_eq_false_2 (n < 2 ^ 32)) by done.
    rewrite bool_decide_eq_false_2; [done|]. intros Heq.
    pose proof (Z.mod_pos_bound n (2 ^ 32) ltac:(lia)). lia.
Qed.

(** X19. [changeState] on a live segment takes it off the list of its
    state and puts it at the back of the list of the new state, also when
    the two states are the same; it moves to the back of [allSegments] as
    well.  The other segments keep their lists and their order, and no
    segment and no other member changes. *)
Theorem changeState_spec_lists (m : SegmentManager) (p : nat) (s : LogSegment)
    (y : State) :
  WF m → segments m !! p = Some s →
  ∃ m', changeState p y m = Ok tt m' ∧
        states m' = <[p := y]> (states m) ∧
        segmentsByState m' y = erase p (segmentsByState m y) ++ [p] ∧
        (∀ z, z ≠ y → segmentsByState m' z = erase p (segmentsByState m z)) ∧
        allSegments m' = erase p (allSegments m) ++ [p] ∧
        segments m' = segments m ∧ others m' = others m ∧ WF m'.
Proof.
  intros W Hs. destruct (changeState_spec m p s y W Hs) as (m' & Hrun & R).
  exists m'. split_and!; [done|apply R| | |apply R|apply R|apply R|by eapply Relinked_WF].
  - by rewrite (rl_lists _ _ _ _ R), decide_True.
  - intros z Hz. by rewrite (rl_lists _ _ _ _ R), decide_False, app_nil_r.
Qed.

Lemma reclaimed_elem m q :
  q ∈ reclaimed m ↔
  q ∈ segmentsByState m FREEABLE_PENDING_REFERENCES ∧
  ∃ s, segments m !! q = Some s ∧ cleanedEpoch s < earliestOutstandingEpoch (rpcPool m).
Proof.
  unfold reclaimed.
  rewrite (list_elem_of_filter (λ p, Is_true (cleanedBefore _ _ p))).
  unfold cleanedBefore. split.
  - intros [Hc Hq]. split; [done|]. destruct (segments m !! q) as [s|]; [|done].
    exists s. split; [done|]. by apply Z.ltb_lt, Is_true_true.
  - intros [Hq (s & -> & Hc)]. split; [|done]. by apply Is_true_true, Z.ltb_lt.
Qed.

Section Vanish.
Variable appendFits : LogSegment → LogEntry → bool.
Variable INVALID_SEGMENT_ID : Z.

(** What a successful [allocHead] leaves untouched: every segment but the
    new head, the reclaimed ones and an emergency head it replaces. *)
Lemma allocHead_keeps m b h m' p :
  WF m → allocHead appendFits INVALID_SEGMENT_ID b m = Ok (Some h) m' →
  p ≠ h → p ∉ reclaimed m →
  (∀ t, head (segmentsByState m HEAD) = Some p → segments m !! p = Some t →
        isEmergencyHead t = false) →
  segments m' !! p = segments m !! p.
Proof.
  intros W H Hne Hnr Hnem.
  destruct (allocHead_chain appendFits INVALID_SEGMENT_ID m b h m' W H)
    as (m1 & type & ma & m2 & m3 & F & _ & _ & A & _ & _ & Hprev & _ & _ & _
        & DM & Hs2 & Stg & Ret).
  assert (segments m3 !! p = segments m !! p) as H3.
  { rewrite (sg_segments _ _ _ _ _ Stg), lookup_insert_ne by done.
    rewrite Hs2. cbn. rewrite lookup_insert_ne by done.
    rewrite (al_segments _ _ _ _ A), lookup_insert_ne by done.
    by rewrite (FreedAll_segments _ _ _ p F), decide_False. }
  rewrite <- H3.
  destruct (head (segmentsByState m HEAD)) as [q|] eqn:Hq; [|by cbn in Ret; subst].
  destruct (decide (p = q)) as [->|Hpq]; [|by apply (Retired_segments q)].
  destruct Ret as (t & Ht & Hcase). rewrite H3 in Ht.
  rewrite (Hnem t eq_refl Ht) in Hcase. by rewrite (rl_segments _ _ _ _ Hcase).
Qed.

(** X20. A segment disappears from its slot in one step only in two ways:
    it was in FREEABLE_PENDING_REFERENCES with a [cleanedEpoch] below the
    earliest outstanding epoch, and the reclamation scan of [allocHead] or
    [allocSurvivor] freed it; or it was the emergency head that
    [allocHead] replaced.  Every other live segment stays in its slot with
    its id, whatever the step. *)
Theorem segment_freed_only (m m' : SegmentManager) (p : nat) (s : LogSegment) :
  WF m → step appendFits INVALID_SEGMENT_ID m m' →
  segments m !! p = Some s →
  (∀ t, segments m' !! p = Some t → id t ≠ id s) →
  (p ∈ segmentsByState m FREEABLE_PENDING_REFERENCES ∧
   cleanedEpoch s < earliestOutstandingEpoch (rpcPool m)) ∨
  (segmentsByState m HEAD = [p] ∧ isEmergencyHead s = true).
Proof.
  intros W St Hs Hgone.
  destruct (decide (p ∈ reclaimed m)) as [Hr|Hnr].
  { left. apply reclaimed_elem in Hr as (Hp & s' & Hs' & Hlt).
    rewrite Hs in Hs'. by injection Hs' as <-. }
  assert (segments m' !! p = segments m !! p → False) as Hkept.
  { intros Heq. rewrite Hs in Heq. by apply (Hgone s). }
  assert (∀ t, segments m' !! p = Some t → id t = id s → False) as Hkept'.
  { intros t Ht Hid. by apply (Hgone t). }
  destruct St as [b r m m' H|h r m m' H|clean m m' H|out out' m m' H
                 |m m' H|m m' H|mn out out' m m' H|n r m m' H|pool m|q s0 e m Hs0].
  - destruct r as [hd|].
    + destruct (allocHead_inv appendFits INVALID_SEGMENT_ID m b _ m' W H) as (Hlen & _).
      destruct (allocHead_chain appendFits INVALID_SEGMENT_ID m b hd m' W H)
        as (m1 & type & ma & _ & _ & F & _ & _ & A & _).
      assert (p ≠ hd) as Hne.
      { intros ->. pose proof (FreedAll_segments _ _ _ hd F) as H1.
        rewrite decide_False, (al_fresh _ _ _ _ A) in H1 by done. congruence. }
      destruct (decide (head (segmentsByState m HEAD) = Some p ∧ isEmergencyHead s = true))
        as [[Hh He]|Hno].
      * right. split; [|done].
        destruct (segmentsByState m HEAD) as [|q [|q' l]];
          [done|by injection Hh as ->|cbn in Hlen; lia].
      * exfalso. apply Hkept.
        apply (allocHead_keeps m b hd m' p W H Hne Hnr).
        intros t Hh Ht. rewrite Hs in Ht. injection Ht as <-.
        destruct (isEmergencyHead s); [|done]. by destruct Hno.
    + destruct (allocHead_inv appendFits INVALID_SEGMENT_ID m b None m' W H)
        as (_ & m1 & _ & F & _ & [(_ & -> & _)|(? & ? & ? & ? & _)]); [|done].
      exfalso. apply Hkept. by rewrite (FreedAll_segments _ _ _ p F), decide_False.
  - exfalso.
    destruct (allocSurvivor_chain appendFits h m r m' W H)
      as (m1 & _ & F & W1 & [(_ & -> & _)|(p' & ma & _ & _ & A & Wa & Hnh & _ & Stg)]).
    + apply Hkept. by rewrite (FreedAll_segments _ _ _ p F), decide_False.
    + pose proof (FreedAll_segments _ _ _ p F) as H1. rewrite decide_False in H1 by done.
      assert (p ≠ p') as Hne.
      { intros ->. rewrite (al_fresh _ _ _ _ A) in H1. congruence. }
      apply Hkept. rewrite (sg_segments _ _ _ _ _ Stg), lookup_insert_ne by done.
      by rewrite (al_segments _ _ _ _ A), lookup_insert_ne.
  - exfalso. destruct (cleaningComplete_inv clean m m' W H) as (_ & _ & m1 & D & C).
    pose proof (CleanedAll_segments _ _ _ _ p C) as Hp. cbn in Hp.
    rewrite (dr_segments _ _ _ _ D), Hs in Hp.
    destruct (decide (p ∈ clean)); [|by apply Hkept; rewrite Hs].
    by apply (Hkept' _ Hp).
  - exfalso. destruct (cleanableSegments_run out m W) as (m1 & D & Heq).
    rewrite Heq in H. injection H as _ <-. apply Hkept. by rewrite (dr_segments _ _ _ _ D).
  - exfalso. injection H as <-. by apply Hkept.
  - exfalso. injection H as <-. by apply Hkept.
  - exfalso. apply getActiveSegments_state in H as ->. by apply Hkept.
  - exfalso. unfold increaseSurvivorReserve in H. rewrite bind_run in H. cbn [gets] in H.
    destruct (_ <? _); [injection H as _ <-; by apply Hkept|].
    destruct (_ <? _); [injection H as _ <-; by apply Hkept|].
    injection H as _ <-. by apply Hkept.
  - exfalso. by apply Hkept.
  - exfalso. destruct (decide (p = q)) as [->|Hne].
    + rewrite Hs in Hs0. injection Hs0 as <-.
      apply (Hkept' (set_entries (λ es, es ++ [e]) s)); [|done].
      cbn. apply lookup_insert_eq.
    + apply Hkept. cbn. by rewrite lookup_insert_ne.
Qed.

End Vanish.

(** ** The destructor *)

Lemma filter_notin_add (D : list nat) i (l : list nat) :
  erase i (filter (λ q, q ∉ D) l) = filter (λ q, q ∉ i :: D) l.
Proof.
  unfold erase. rewrite list_filter_filter. apply list_filter_iff.
  intros q. rewrite not_elem_of_cons. tauto.
Qed.

Lemma filter_notin_skip (D : list nat) i (l : list nat) :
  i ∉ l → filter (λ q, q ∉ D) l = filter (λ q, q ∉ i :: D) l.
Proof.
  intros Hi. apply filter_iff_in. intros q Hq. rewrite not_elem_of_cons.
  split; [|tauto]. intros Hn. split; [|done]. by intros ->.
Qed.

Lemma delete_loop m :
  WF m →
  ∀ (l D : list nat) mk,
    (∀ q, q ∈ l → q ∉ D) → NoDup l →
    (∀ q, segments mk !! q = if decide (q ∈ D) then None else segments m !! q) →
    states mk = states m →
    (∀ z, segmentsByState mk z = filter (λ q, q ∉ D) (segmentsByState m z)) →
    allSegments mk = filter (λ q, q ∉ D) (allSegments m) →
    ∃ (D' : list nat) mk',
      foreach l (λ i,
        occupied ← gets (λ m, segments m !! i);
        match occupied with
        | Some _ =>
            removeFromLists i;;
            modify (set_segments (delete i));;
            modify (set_allocator releaseSegment)
        | None => mret tt
        end) mk = Ok tt mk' ∧
      (∀ q, q ∈ D' ↔ q ∈ l ∨ q ∈ D) ∧
      (∀ q, segments mk' !! q = if decide (q ∈ D') then None else segments m !! q) ∧
      states mk' = states m ∧
      (∀ z, segmentsByState mk' z = filter (λ q, q ∉ D') (segmentsByState m z)) ∧
      allSegments mk' = filter (λ q, q ∉ D') (allSegments m) ∧
      allocator mk'
      = Nat.iter (length (filter (λ q, is_Some (segments m !! q)) l)) releaseSegment
          (allocator mk).
Proof.
  intros W. induction l as [|i l IH]; intros D mk Hdis Nd Hseg Hst Hl Ha.
  - exists D, mk. split_and!; try done. intros q. rewrite elem_of_nil. tauto.
  - apply list.NoDup_cons in Nd as [Hil Nd].
    assert (i ∉ D) as HiD by (apply Hdis; by left).
    assert (segments mk !! i = segments m !! i) as Hi by (by rewrite Hseg, decide_False).
    assert (∃ mk1,
              (occupied ← gets (λ m, segments m !! i);
               match occupied with
               | Some _ =>
                   removeFromLists i;;
                   modify (set_segments (delete i));;
                   modify (set_allocator releaseSegment)
               | None => mret tt
               end) mk = Ok tt mk1 ∧
              (∀ q, segments mk1 !! q
                    = if decide (q ∈ i :: D) then None else segments m !! q) ∧
              states mk1 = states m ∧
              (∀ z, segmentsByState mk1 z
                    = filter (λ q, q ∉ i :: D) (segmentsByState m z)) ∧
              allSegments mk1 = filter (λ q, q ∉ i :: D) (allSegments m) ∧
              allocator mk1 = match segments m !! i with
                              | Some _ => releaseSegment (allocator mk)
                              | None => allocator mk
                              end) as (mk1 & Hrun & Hseg1 & Hst1 & Hl1 & Ha1 & Hal1).
    { rewrite bind_run. cbn [gets]. rewrite Hi.
      destruct (segments m !! i) as [s|] eqn:Hs.
      - pose proof (wf_slot m W i s Hs) as Hslot.
        destruct (WF_state m i s W Hs) as [x Hx].
        erewrite bind_Ok by (apply (removeFromLists_Ok mk i s x); [by rewrite Hi| |]; congruence).
        rewrite bind_run. cbn [modify]. eexists. split; [reflexivity|].
        cbn [segments states segmentsByState allSegments allocator set_segments
             set_allocator set_allSegments set_segmentsByState].
        split_and!; [| | | |done].
        + intros q. destruct (decide (q = i)) as [->|Hne].
          * rewrite lookup_delete_eq, decide_True; [done|by left].
          * rewrite lookup_delete_ne, Hseg by done.
            destruct (decide (q ∈ D)) as [Hq|Hq].
            { rewrite decide_True; [done|by right]. }
            { rewrite decide_False; [done|]. rewrite not_elem_of_cons. tauto. }
        + done.
        + intros z. rewrite fn_insert_at. destruct (decide (x = z)) as [<-|Hne].
          * by rewrite Hl, filter_notin_add.
          * rewrite Hl. apply filter_notin_skip. eapply WF_not_listed; eauto.
        + by rewrite Ha, filter_notin_add.
      - eexists. split; [reflexivity|].
        assert (∀ z, i ∉ segmentsByState m z) as Hnl.
        { intros z Hz. destruct (WF_listed_occupied m i z W Hz) as [? ?]. congruence. }
        split_and!; [| | | |done].
        + intros q. rewrite Hseg. destruct (decide (q ∈ D)) as [Hq|Hq].
          * rewrite decide_True; [done|by right].
          * destruct (decide (q = i)) as [->|Hne].
            { by rewrite decide_True by (by left). }
            { rewrite decide_False; [done|]. rewrite not_elem_of_cons. tauto. }
        + done.
        + intros z. rewrite Hl. by apply filter_notin_skip.
        + rewrite Ha. apply filter_notin_skip. intros Hin. apply (wf_all m W) in Hin as [? ?].
          congruence. }
    destruct (IH (i :: D) mk1) as (D' & mk' & Hrun' & HD' & Hseg' & Hst' & Hl' & Ha' & Hal');
      try done.
    { intros q Hq. rewrite not_elem_of_cons. split; [by intros ->|].
      apply Hdis. by right. }
    exists D', mk'. split_and!; try done.
    + cbn [foreach]. by erewrite bind_Ok by exact Hrun.
    + intros q. rewrite HD', !elem_of_cons. tauto.
    + rewrite Hal', Hal1, filter_cons.
      destruct (segments m !! i) as [s|] eqn:Hs.
      * rewrite decide_True by eauto. cbn [length]. by rewrite Nat.iter_succ_r.
      * rewrite decide_False; [done|]. by intros [? ?].
Qed.

(** X21. The destructor, run on a manager whose tables are consistent,
    returns without touching an empty [Tub]: it unlinks and destroys every
    live segment, so that no list holds a segment afterwards, and hands
    the memory of each back to the allocator, once. *)
Theorem SegmentManager_delete_spec (m : SegmentManager) :
  WF m → Tables m →
  ∃ m', SegmentManager_delete m = Ok tt m' ∧
        segments m' = ∅ ∧ states m' = ∅ ∧ allSegments m' = [] ∧
        (∀ z, segmentsByState m' z = []) ∧
        allocator m' = Nat.iter (size (segments m)) releaseSegment (allocator m).
Proof.
  intros W T. unfold SegmentManager_delete. rewrite bind_run. cbn [gets].
  set (n := Z.to_nat (maxSegments m)).
  destruct (delete_loop m W (seq 0 n) [] m)
    as (D & mk & Hrun & HD & Hseg & Hst & Hl & Ha & Hal).
  { intros q _. apply not_elem_of_nil. }
  { apply NoDup_seq. }
  { intros q. by rewrite decide_False by apply not_elem_of_nil. }
  { done. }
  { intros z. by rewrite filter_notin_nil. }
  { by rewrite filter_notin_nil. }
  assert (∀ q, is_Some (segments m !! q) → q ∈ D) as Hall.
  { intros q Hq. apply HD. left. apply elem_of_seq.
    assert (q < n)%nat by (apply (tb_slots m T); eauto). lia. }
  erewrite bind_Ok by exact Hrun. rewrite bind_run. cbn [modify].
  eexists. split; [reflexivity|]. cbn. split_and!; [done|done| | |].
  - rewrite Ha. apply filter_notin_sub. intros q Hq. by apply Hall, (wf_all m W).
  - intros z. rewrite Hl. apply filter_notin_sub. intros q Hq.
    by eapply Hall, WF_listed_occupied.
  - rewrite Hal. f_equal. rewrite <- size_dom.
    change (size (dom (segments m))) with (length (elements (dom (segments m)))).
    apply Permutation_length, NoDup_Permutation.
    + apply list.NoDup_filter, NoDup_seq.
    + apply NoDup_elements.
    + intros q. rewrite elem_of_elements, elem_of_dom.
      rewrite (list_elem_of_filter (λ q, is_Some (segments m !! q))), elem_of_seq.
      split; [tauto|]. intros Hq. split; [done|].
      assert (q < n)%nat by (apply (tb_slots m T); eauto). lia.
Qed.

(** What [expectedDigest] lists while a log iterator exists, against the
    report of [getActiveSegments(0)]. *)
Lemma expectedDigest_active m :
  WF m → Tables m → (length (segmentsByState m HEAD) ≤ 1)%nat →
  logIteratorCount m ≠ 0 →
  ∃ found,
    getActiveSegments 0 [] m = Ok found m ∧
    ∀ i, i ∈ expectedDigest m ↔
         i = nextSegmentId m ∨
         ∃ p s, p ∈ found ∧ segments m !! p = Some s ∧ id s = i ∧
                ¬ (p ∈ segmentsByState m HEAD ∧ isEmergencyHead s = true).
Proof.
  intros W T Hlen Hc.
  rewrite (getActiveSegments_run 0 [] m W Hlen).
  apply Z.eqb_neq in Hc. rewrite Hc. eexists. split; [reflexivity|].
  assert (∀ p s, segments m !! p = Some s → Is_true (atLeast 0 (segments m) p)) as Hat.
  { intros p s Hs. unfold atLeast. rewrite Hs. apply Is_true_true, Z.leb_le.
    by destruct (tb_below m T p s Hs). }
  assert (∀ x y p, p ∈ segmentsByState m x → x ≠ y → p ∉ segmentsByState m y) as Hdis.
  { intros x y p Hx Hne Hy. apply Hne. by eapply WF_disjoint. }
  intros i. unfold expectedDigest. rewrite Hc, app_nil_r.
  rewrite !elem_of_app, !idsOf_elem, list_elem_of_singleton. cbn [app].
  setoid_rewrite (list_elem_of_filter (λ p, Is_true (atLeast 0 (segments m) p))).
  setoid_rewrite elem_of_app. setoid_rewrite elem_of_app. setoid_rewrite elem_of_app.
  split.
  - intros [(q & s & Hq & Hs & Hid)|[(q & s & Hq & Hs & Hid)
            |[(q & s & Hq & Hs & Hid)|[Hi|(q & s & Hq & Hs & Hid)]]]].
    + right. exists q, s. split_and!; [eauto|tauto|done|done|].
      intros [Hh _]. by apply (Hdis CLEANABLE HEAD q).
    + right. exists q, s. split_and!; [eauto|tauto|done|done|].
      intros [Hh _]. by apply (Hdis NEWLY_CLEANABLE HEAD q).
    + right. unfold prevInDigest in Hq.
      destruct (head (segmentsByState m HEAD)) as [q'|] eqn:Hh; [|by apply elem_of_nil in Hq].
      destruct (segments m !! q') as [t|] eqn:Ht; [|by apply elem_of_nil in Hq].
      destruct (isEmergencyHead t) eqn:He; [by apply elem_of_nil in Hq|].
      apply list_elem_of_singleton in Hq as ->. rewrite Ht in Hs. injection Hs as <-.
      exists q', t. split_and!; [eauto| |done|done|].
      * do 3 right. by apply list_elem_of_singleton.
      * intros [_ ?]. congruence.
    + by left.
    + right. exists q, s. split_and!; [eauto|tauto|done|done|].
      intros [Hh _]. by apply (Hdis FREEABLE_PENDING_DIGEST_AND_REFERENCES HEAD q).
  - intros [->|(p & s & [_ Hp] & Hs & Hid & Hnem)]; [tauto|].
    destruct Hp as [Hp|[Hp|[Hp|Hp]]].
    + right. left. eauto.
    + left. eauto.
    + do 4 right. eauto.
    + right. right. left. exists p, s. split_and!; [|done..].
      destruct (head (segmentsByState m HEAD)) as [q'|] eqn:Hh; [|by apply elem_of_nil in Hp].
      apply list_elem_of_singleton in Hp as ->. unfold prevInDigest. rewrite Hs.
      destruct (isEmergencyHead s) eqn:He.
      * exfalso. apply Hnem. split; [by apply head_Some_elem_of|done].
      * by apply list_elem_of_singleton.
Qed.

Section Digests.
Variable appendFits : LogSegment → LogEntry → bool.
Variable INVALID_SEGMENT_ID : Z.

(** X22. While a log iterator exists, on a well-formed manager with
    consistent tables, the digest that an [allocHead] that returns a head
    has appended to it, after the header, lists the id of the new head and,
    besides it, exactly the ids of the segments that [getActiveSegments(0)]
    reports just before the call, the previous head left out when it is an
    emergency head: the iterator and the digest agree on what is part of
    the log. *)
Theorem digest_agrees_with_iterator (m : SegmentManager) (mustNotFail : bool)
    (p : nat) (m' : SegmentManager) :
  WF m → Tables m → logIteratorCount m ≠ 0 →
  allocHead appendFits INVALID_SEGMENT_ID mustNotFail m = Ok (Some p) m' →
  ∃ found s header digest,
    getActiveSegments 0 [] m = Ok found m ∧
    segments m' !! p = Some s ∧
    entries s = [header; LOG_ENTRY_TYPE_LOGDIGEST digest] ∧
    ∀ i, i ∈ digest ↔
         i = id s ∨
         ∃ q t, q ∈ found ∧ segments m !! q = Some t ∧ id t = i ∧
                ¬ (q ∈ segmentsByState m HEAD ∧ isEmergencyHead t = true).
Proof.
  intros W T Hc H.
  destruct (allocHead_inv appendFits INVALID_SEGMENT_ID m mustNotFail _ m' W H)
    as [Hlen _].
  destruct (allocHead_post appendFits INVALID_SEGMENT_ID m mustNotFail p m' W H)
    as (_ & _ & _ & m1 & type & header & _ & _ & _ & _ & _ & _ & Hp).
  destruct (expectedDigest_active m W T Hlen Hc) as (found & Hrun & Hiff).
  exists found. eexists. exists header, (expectedDigest m).
  split; [exact Hrun|]. split; [exact Hp|]. split; [reflexivity|exact Hiff].
Qed.

End Digests.

Section HeadLists.
Variable appendFits : LogSegment → LogEntry → bool.
Variable INVALID_SEGMENT_ID : Z.

(** X23. The per-state lists after a successful [allocHead], in list
    order.  The new head is alone in HEAD, and CLEANING_INTO and CLEANABLE
    are untouched.  With no log iterator, the segments of
    CLEANABLE_PENDING_DIGEST and then the previous head, unless it is an
    emergency head, join the back of NEWLY_CLEANABLE, and the segments of
    FREEABLE_PENDING_DIGEST_AND_REFERENCES join the back of what the
    reclamation scan left of FREEABLE_PENDING_REFERENCES.  With a log
    iterator only the previous head moves. *)
Theorem allocHead_lists (m : SegmentManager) (mustNotFail : bool) (p : nat)
    (m' : SegmentManager) :
  WF m → allocHead appendFits INVALID_SEGMENT_ID mustNotFail m = Ok (Some p) m' →
  let prev := option_list (prevInDigest (segments m) (head (segmentsByState m HEAD))) in
  let swept := filter (λ q, q ∉ reclaimed m)
                 (segmentsByState m FREEABLE_PENDING_REFERENCES) in
  segmentsByState m' HEAD = [p] ∧
  segmentsByState m' CLEANING_INTO = segmentsByState m CLEANING_INTO ∧
  segmentsByState m' CLEANABLE = segmentsByState m CLEANABLE ∧
  (logIteratorCount m = 0 →
   segmentsByState m' CLEANABLE_PENDING_DIGEST = [] ∧
   segmentsByState m' NEWLY_CLEANABLE
   = segmentsByState m NEWLY_CLEANABLE ++ segmentsByState m CLEANABLE_PENDING_DIGEST
     ++ prev ∧
   segmentsByState m' FREEABLE_PENDING_DIGEST_AND_REFERENCES = [] ∧
   segmentsByState m' FREEABLE_PENDING_REFERENCES
   = swept ++ segmentsByState m FREEABLE_PENDING_DIGEST_AND_REFERENCES) ∧
  (logIteratorCount m ≠ 0 →
   segmentsByState m' CLEANABLE_PENDING_DIGEST
   = segmentsByState m CLEANABLE_PENDING_DIGEST ∧
   segmentsByState m' NEWLY_CLEANABLE = segmentsByState m NEWLY_CLEANABLE ++ prev ∧
   segmentsByState m' FREEABLE_PENDING_DIGEST_AND_REFERENCES
   = segmentsByState m FREEABLE_PENDING_DIGEST_AND_REFERENCES ∧
   segmentsByState m' FREEABLE_PENDING_REFERENCES = swept).
Proof.
  intros W H prev swept.
  destruct (allocHead_post appendFits INVALID_SEGMENT_ID m mustNotFail p m' W H)
    as (_ & Hl & _).
  split_and!; try (by rewrite Hl).
  - intros Hc. rewrite !Hl. unfold listsAfterAllocHead. rewrite Hc. by cbn.
  - intros Hc. apply Z.eqb_neq in Hc. rewrite !Hl. unfold listsAfterAllocHead.
    rewrite Hc. cbn. by rewrite !app_nil_r.
Qed.

(** X24. The head [allocHead] returns holds two entries: a header
    stamped with the log id, the head's id, the segment size and
    [Segment::INVALID_SEGMENT_ID], and after it the digest; it has its
    replicated segment, and its id is the value [nextSegmentId] had. *)
Theorem allocHead_header (m : SegmentManager) (mustNotFail : bool) (p : nat)
    (m' : SegmentManager) :
  WF m → allocHead appendFits INVALID_SEGMENT_ID mustNotFail m = Ok (Some p) m' →
  ∃ s, segments m' !! p = Some s ∧
       id s = nextSegmentId m ∧ slot s = p ∧
       entries s = [LOG_ENTRY_TYPE_SEGHEADER (logId m) (nextSegmentId m)
                      (segmentSize (allocator m)) INVALID_SEGMENT_ID;
                    LOG_ENTRY_TYPE_LOGDIGEST (expectedDigest m)] ∧
       replicatedSegment s = Some (nextSegmentId m) ∧
       cleanedEpoch s = 0.
Proof.
  intros W H.
  destruct (allocHead_chain appendFits INVALID_SEGMENT_ID m mustNotFail p m' W H)
    as (m1 & type & ma & m2 & m3 & F & _ & _ & A & _ & _ & Hprev & _ & _ & _
        & _ & _ & Stg & Ret).
  destruct (FreedAll_fixed _ _ _ F) as [Hfix1 _].
  destruct (fixed_members _ _ Hfix1) as (_ & _ & _ & _ & Hlog1).
  destruct (fixed_members _ _ (al_fixed _ _ _ _ A)) as (_ & _ & _ & _ & Hloga).
  destruct (sizes_FreedAll _ _ _ F) as [Hsize _].
  assert (segments m' !! p = segments m3 !! p) as Hsame.
  { destruct (head (segmentsByState m HEAD)) as [q|] eqn:Hq; [|by cbn in Ret; subst].
    destruct (Hprev q eq_refl) as (Hne & _). by apply (Retired_segments q m3 m' p). }
  eexists. split.
  { rewrite Hsame, (sg_segments _ _ _ _ _ Stg). apply lookup_insert_eq. }
  cbn. unfold headerOf. cbn. rewrite Hloga, Hlog1, (al_allocator _ _ _ _ A). cbn.
  by rewrite Hsize.
Qed.

End HeadLists.

(** ** The further properties on the cleaning pass *)

Lemma tables_invariant_witness :
  SegmentManager_new 1 (mkAllocator 8 8388608 65536) (mkServerRpcPool 0 0) 1
    = inr (fresh 8 0) ∧
  rtc (issuing roomy allOnes) (fresh 8 0) digested ∧
  WF digested ∧ Tables digested ∧ UniqueIds digested.
Proof.
  pose proof (fresh_is_constructed 8 0 ltac:(lia)) as Hnew.
  split; [exact Hnew|]. split; [exact run_digested|].
  exact (tables_invariant roomy allOnes _ _ _ _ _ _ Hnew run_digested).
Defined.

Lemma doesIdExist_spec_witness :
  Tables digested ∧ doesIdExist 3 digested = Ok true digested.
Proof.
  pose proof (proj2 (run_inv _ run_digested)) as T. split; [exact T|].
  destruct (doesIdExist_spec digested 3 T) as (b & Hrun & Hb).
  assert (b = true) as Htrue.
  { apply Hb. exists 4%nat. vm_compute. eexists. split; reflexivity. }
  rewrite Htrue in Hrun. exact Hrun.
Defined.

Lemma operator_subscript_spec_witness :
  WF digested ∧ Tables digested ∧ 0 ≤ 4 ∧
  ∃ s, operator_subscript 4 digested = Ok s digested ∧ Z.of_nat (slot s) = 4.
Proof.
  destruct (run_inv _ run_digested) as [W T].
  assert (0 ≤ 4) as H0 by lia.
  split; [exact W|]. split; [exact T|]. split; [exact H0|].
  destruct (operator_subscript_spec digested 4 W T H0) as (Hsome & _).
  assert (∃ s, segments digested !! Z.to_nat 4 = Some s) as [s Hs] by (vm_compute; eauto).
  exists s. exact (Hsome s Hs).
Defined.

Lemma allocHead_registers_witness :
  WF cleaned ∧ Tables cleaned ∧ nextSegmentId cleaned < 2 ^ 64 - 1 ∧
  allocHead roomy allOnes false cleaned = Ok (Some 4%nat) digested ∧
  nextSegmentId cleaned = 3 ∧ nextSegmentId digested = 3 + 1 ∧
  doesIdExist 3 cleaned = Ok false cleaned ∧
  doesIdExist 3 digested = Ok true digested.
Proof.
  destruct (run_inv _ run_cleaned) as [W T].
  assert (nextSegmentId cleaned < 2 ^ 64 - 1) as Hroom by (vm_compute; reflexivity).
  assert (allocHead roomy allOnes false cleaned = Ok (Some 4%nat) digested) as H
    by (vm_compute; reflexivity).
  assert (nextSegmentId cleaned = 3) as Hn by (vm_compute; reflexivity).
  destruct (allocHead_registers roomy allOnes cleaned false 4%nat digested W T Hroom H)
    as (H1 & H2 & H3 & _).
  rewrite Hn in H1, H2, H3.
  split; [exact W|]. split; [exact T|]. split; [exact Hroom|]. split; [exact H|].
  split; [exact Hn|]. split; [exact H1|]. split; [exact H2|exact H3].
Defined.

Lemma allocSurvivor_spec_witness :
  WF cleanerInformed ∧ Ranges cleanerInformed ∧
  allocSurvivor roomy 1 cleanerInformed = Ok (Some 5%nat) withSurvivor ∧
  replicaManager withSurvivor = replicaManager cleanerInformed ++ [AllocateNonHead 2] ∧
  list.last (segmentsByState withSurvivor CLEANING_INTO) = Some 5%nat.
Proof.
  destruct (run_inv _ run_cleanerInformed) as [W T].
  assert (Ranges cleanerInformed) as R by (apply rangesb_sound; vm_compute; reflexivity).
  assert (allocSurvivor roomy 1 cleanerInformed = Ok (Some 5%nat) withSurvivor) as H
    by (vm_compute; reflexivity).
  assert (nextSegmentId cleanerInformed = 2) as Hn by (vm_compute; reflexivity).
  split; [exact W|]. split; [exact R|]. split; [exact H|].
  destruct (allocSurvivor_spec roomy cleanerInformed 1 _ withSurvivor W R H)
    as (m1 & _ & _ & _ & _ & Hrep & _ & Hlast & _).
  rewrite Hn in Hrep. split; [exact Hrep|exact Hlast].
Defined.


Lemma cleanableSegments_spec_witness :
  WF withEmergencyHead ∧
  segmentsByState withEmergencyHead NEWLY_CLEANABLE = [7%nat] ∧
  ∃ m', cleanableSegments [] withEmergencyHead = Ok [7%nat] m' ∧
        segmentsByState m' CLEANABLE = [7%nat] ∧
        cleanableSegments [7%nat] m' = Ok [7%nat] m'.
Proof.
  destruct (run_inv _ run_withEmergencyHead) as [W T].
  assert (segmentsByState withEmergencyHead NEWLY_CLEANABLE = [7%nat]) as Hn
    by (vm_compute; reflexivity).
  assert (segmentsByState withEmergencyHead CLEANABLE = []) as Hc
    by (vm_compute; reflexivity).
  split; [exact W|]. split; [exact Hn|].
  destruct (cleanableSegments_spec withEmergencyHead [] W)
    as (m' & Hrun & _ & Hcl & _ & _ & _ & Hagain).
  rewrite Hn in Hrun. rewrite Hn, Hc in Hcl.
  exists m'. split; [exact Hrun|]. split; [exact Hcl|]. exact (Hagain [7%nat]).
Defined.

Lemma getActiveSegments_spec_witness :
  WF gated ∧ (length (segmentsByState gated HEAD) ≤ 1)%nat ∧
  logIteratorCount gated ≠ 0 ∧
  getActiveSegments 0 [] gated = Ok [7%nat; 6%nat] gated.
Proof.
  destruct (run_inv _ run_gated) as [W T].
  assert (length (segmentsByState gated HEAD) ≤ 1)%nat as Hlen by (vm_compute; lia).
  assert (logIteratorCount gated ≠ 0) as Hc by (vm_compute; discriminate).
  split; [exact W|]. split; [exact Hlen|]. split; [exact Hc|].
  destruct (getActiveSegments_spec gated 0 [] W) as (_ & _ & Hsome).
  destruct (Hsome Hc Hlen) as (found & Hrun & Hfound & _).
  assert (found = [7%nat; 6%nat]) as Heq by (rewrite Hfound; vm_compute; reflexivity).
  rewrite Heq in Hrun. exact Hrun.
Defined.

Lemma logIterator_round_trip_witness :
  - 2 ^ 31 ≤ logIteratorCount digested < 2 ^ 31 - 1 ∧
  (logIteratorCreated;; logIteratorDestroyed) digested = Ok tt digested.
Proof.
  assert (logIteratorCount digested = 0) as Hc by (vm_compute; reflexivity).
  assert (- 2 ^ 31 ≤ logIteratorCount digested < 2 ^ 31 - 1) as Hr by (rewrite Hc; lia).
  split; [exact Hr|]. exact (logIterator_round_trip digested Hr).
Defined.

Lemma logIteratorDestroyed_unbalanced_witness :
  WF digested ∧ (length (segmentsByState digested HEAD) ≤ 1)%nat ∧
  logIteratorCount digested = 0 ∧
  ∃ m', logIteratorDestroyed digested = Ok tt m' ∧ logIteratorCount m' = -1 ∧
        ∃ r, getActiveSegments 0 [] m' = Ok r m'.
Proof.
  destruct (run_inv _ run_digested) as [W T].
  assert (length (segmentsByState digested HEAD) ≤ 1)%nat as Hlen by (vm_compute; lia).
  assert (logIteratorCount digested = 0) as Hc by (vm_compute; reflexivity).
  split; [exact W|]. split; [exact Hlen|]. split; [exact Hc|].
  destruct (logIteratorDestroyed_unbalanced roomy digested W Hlen Hc)
    as (m' & Hrun & Hneg & Hactive & _).
  exists m'. split; [exact Hrun|]. split; [exact Hneg|]. exact (Hactive 0 []).
Defined.

Lemma allocHead_replication_witness :
  WF cleaned ∧
  allocHead roomy allOnes false cleaned = Ok (Some 4%nat) digested ∧
  replicaManager digested
  = replicaManager cleaned ++ [AllocateHead 3 (Some 1); Close 1; Sync 1 2].
Proof.
  destruct (run_inv _ run_cleaned) as [W T].
  assert (allocHead roomy allOnes false cleaned = Ok (Some 4%nat) digested) as H
    by (vm_compute; reflexivity).
  split; [exact W|]. split; [exact H|].
  pose proof (allocHead_replication roomy allOnes cleaned false 4%nat digested W H) as Hrep.
  assert (head (segmentsByState cleaned HEAD) = Some 6%nat) as Hh by (vm_compute; reflexivity).
  rewrite Hh in Hrep. destruct Hrep as (s & r & Hs & Hr & Hrep).
  assert (replicatedSegment <$> segments cleaned !! 6%nat = Some (Some 1)) as Hr'
    by (vm_compute; reflexivity).
  assert (length <$> (entries <$> segments cleaned !! 6%nat) = Some 2%nat) as Hl'
    by (vm_compute; reflexivity).
  assert (nextSegmentId cleaned = 3) as Hn by (vm_compute; reflexivity).
  rewrite Hs in Hr', Hl'. cbn in Hr', Hl'. rewrite Hr in Hr'.
  injection Hr' as Hr'. injection Hl' as Hl'. rewrite Hr', Hl', Hn in Hrep. exact Hrep.
Defined.

Lemma emergency_head_refuses_appends_witness :
  WF withHead ∧
  allocHead roomy allOnes true withHead = Ok (Some 6%nat) withEmergencyHead ∧
  ∃ s, segments withEmergencyHead !! 6%nat = Some s ∧ isEmergencyHead s = true ∧
       append roomy 6%nat (LOG_ENTRY_TYPE_LOGDIGEST []) withEmergencyHead
       = Ok false withEmergencyHead.
Proof.
  destruct (run_inv _ run_withHead) as [W T].
  assert (allocHead roomy allOnes true withHead = Ok (Some 6%nat) withEmergencyHead) as H
    by (vm_compute; reflexivity).
  split; [exact W|]. split; [exact H|].
  destruct (emergency_head_refuses_appends roomy allOnes withHead true 6%nat
              withEmergencyHead W H) as (s & Hs & _ & Happ).
  assert (isEmergencyHead <$> segments withEmergencyHead !! 6%nat = Some true) as He
    by (vm_compute; reflexivity).
  rewrite Hs in He. injection He as He.
  exists s. split; [exact Hs|]. split; [exact He|].
  pose proof (Happ (LOG_ENTRY_TYPE_LOGDIGEST [])) as Hrun. rewrite He in Hrun. exact Hrun.
Defined.

Lemma allocHead_append_refused_witness :
  WF reserved ∧ (length (segmentsByState reserved HEAD) ≤ 1)%nat ∧
  alloc ALLOC_HEAD reserved = Ok (Some 7%nat) (after (alloc ALLOC_HEAD) reserved) ∧
  allocHead (λ _ _, false) allOnes true reserved = Err FatalError.
Proof.
  destruct (run_inv _ run_reserved) as [W T].
  assert (length (segmentsByState reserved HEAD) ≤ 1)%nat as Hlen by (vm_compute; lia).
  assert (alloc ALLOC_HEAD reserved = Ok (Some 7%nat) (after (alloc ALLOC_HEAD) reserved))
    as Halloc by (vm_compute; reflexivity).
  assert (∃ nh, segments (after (alloc ALLOC_HEAD) reserved) !! 7%nat = Some nh) as [nh Hnh]
    by (vm_compute; eauto).
  split; [exact W|]. split; [exact Hlen|]. split; [exact Halloc|].
  apply (allocHead_append_refused (λ _ _, false) allOnes reserved true 7%nat
           (after (alloc ALLOC_HEAD) reserved) nh W Hlen (or_introl Halloc) Hnh).
  left. unfold refused. apply orb_true_r.
Defined.

Lemma increaseSurvivorReserve_spec_witness :
  Ranges (fresh 8 0) ∧
  numEmergencyHeads (fresh 8 0) ≤ freeSegmentCount (allocator (fresh 8 0)) ∧
  increaseSurvivorReserve 5 (fresh 8 0) = Ok true reserved ∧
  increaseSurvivorReserve 7 (fresh 8 0) = Ok false (fresh 8 0).
Proof.
  assert (numEmergencyHeads (fresh 8 0) ≤ freeSegmentCount (allocator (fresh 8 0))) as Hc
    by (cbn; lia).
  split; [exact fresh_Ranges|]. split; [exact Hc|]. split.
  - rewrite (proj2 (increaseSurvivorReserve_spec 5 (fresh 8 0)) fresh_Ranges Hc).
    vm_compute. reflexivity.
  - rewrite (proj2 (increaseSurvivorReserve_spec 7 (fresh 8 0)) fresh_Ranges Hc).
    vm_compute. reflexivity.
Defined.

Lemma getHeadSegment_observable_witness :
  observable roomy allOnes digested ∧
  getHeadSegment digested = Ok (Some 4%nat) digested.
Proof.
  split; [exact observable_digested|].
  destruct (getHeadSegment_observable roomy allOnes digested observable_digested)
    as (r & Hrun & Hr).
  assert (segmentsByState digested HEAD = [4%nat]) as Hh by (vm_compute; reflexivity).
  destruct r as [p|].
  - destruct Hr as (Hp & _). rewrite Hh in Hp. injection Hp as Hp.
    rewrite <- Hp in Hrun. exact Hrun.
  - rewrite Hh in Hr. discriminate Hr.
Defined.

Lemma segment_on_one_list_witness :
  observable roomy allOnes digested ∧
  NoDup (allSegments digested) ∧
  ∀ p s, segments digested !! p = Some s → slot s = p ∧ p ∈ allSegments digested.
Proof.
  split; [exact observable_digested|].
  destruct (segment_on_one_list roomy allOnes digested observable_digested)
    as (Hlive & _ & _ & Hnd & _).
  split; [exact Hnd|]. intros p s Hs. destruct (Hlive p s Hs) as (H1 & H2 & _).
  split; [exact H1|exact H2].
Defined.

Lemma getAllocatedSegmentCount_spec_witness :
  WF digested ∧ getAllocatedSegmentCount digested = Ok 3 digested.
Proof.
  destruct (run_inv _ run_digested) as [W T]. split; [exact W|].
  rewrite (getAllocatedSegmentCount_spec digested W).
  assert (size (segments digested) = 3%nat) as Hsize by (vm_compute; reflexivity).
  rewrite Hsize. reflexivity.
Defined.

Lemma changeState_spec_lists_witness :
  WF withHead ∧
  ∃ s m', segments withHead !! 7%nat = Some s ∧
          changeState 7%nat CLEANABLE withHead = Ok tt m' ∧
          segmentsByState m' CLEANABLE = [7%nat] ∧
          segmentsByState m' HEAD = [].
Proof.
  destruct (run_inv _ run_withHead) as [W T]. split; [exact W|].
  assert (∃ s, segments withHead !! 7%nat = Some s) as [s Hs] by (vm_compute; eauto).
  destruct (changeState_spec_lists withHead 7%nat s CLEANABLE W Hs)
    as (m' & Hrun & _ & Hy & Hz & _).
  assert (segmentsByState withHead CLEANABLE = []) as Hc by (vm_compute; reflexivity).
  assert (segmentsByState withHead HEAD = [7%nat]) as Hh by (vm_compute; reflexivity).
  exists s, m'. split; [exact Hs|]. split; [exact Hrun|]. split.
  - rewrite Hy, Hc. reflexivity.
  - rewrite (Hz HEAD) by discriminate. rewrite Hh. reflexivity.
Defined.

Lemma segment_freed_only_witness :
  WF cleaned ∧ step roomy allOnes cleaned digested ∧
  ∃ s, segments cleaned !! 6%nat = Some s ∧
       (∀ t, segments digested !! 6%nat = Some t → id t ≠ id s) ∧
       segmentsByState cleaned HEAD = [6%nat] ∧ isEmergencyHead s = true.
Proof.
  destruct (run_inv _ run_cleaned) as [W T].
  assert (step roomy allOnes cleaned digested) as St.
  { apply (step_allocHead roomy allOnes false (Some 4%nat)). vm_compute. reflexivity. }
  assert (∃ s, segments cleaned !! 6%nat = Some s) as [s Hs] by (vm_compute; eauto).
  assert (segments digested !! 6%nat = None) as Hnone by (vm_compute; reflexivity).
  assert (∀ t, segments digested !! 6%nat = Some t → id t ≠ id s) as Hgone.
  { intros t Ht. rewrite Hnone in Ht. discriminate Ht. }
  assert (segmentsByState cleaned FREEABLE_PENDING_REFERENCES = []) as Hfpr
    by (vm_compute; reflexivity).
  split; [exact W|]. split; [exact St|]. exists s. split; [exact Hs|]. split; [exact Hgone|].
  destruct (segment_freed_only roomy allOnes cleaned digested 6%nat s W St Hs Hgone)
    as [[Hin _]|Hhead].
  - rewrite Hfpr in Hin. destruct (proj1 (elem_of_nil 6%nat) Hin).
  - exact Hhead.
Defined.

Lemma SegmentManager_delete_spec_witness :
  WF digested ∧ Tables digested ∧
  ∃ m', SegmentManager_delete digested = Ok tt m' ∧ allSegments m' = [] ∧
        freeSegmentCount (allocator m') = 8.
Proof.
  destruct (run_inv _ run_digested) as [W T]. split; [exact W|]. split; [exact T|].
  destruct (SegmentManager_delete_spec digested W T)
    as (m' & Hrun & _ & _ & Hall & _ & Halloc).
  exists m'. split; [exact Hrun|]. split; [exact Hall|].
  rewrite Halloc. vm_compute. reflexivity.
Defined.

Lemma digest_agrees_with_iterator_witness :
  WF gated ∧ Tables gated ∧ logIteratorCount gated ≠ 0 ∧
  allocHead roomy allOnes false gated
  = Ok (Some 4%nat) (after (allocHead roomy allOnes false) gated) ∧
  ∃ found s header digest,
    getActiveSegments 0 [] gated = Ok found gated ∧
    segments (after (allocHead roomy allOnes false) gated) !! 4%nat = Some s ∧
    entries s = [header; LOG_ENTRY_TYPE_LOGDIGEST digest] ∧
    ∀ i, i ∈ digest →
         i = id s ∨ ∃ q t, q ∈ found ∧ segments gated !! q = Some t ∧ id t = i.
Proof.
  destruct (run_inv _ run_gated) as [W T].
  assert (logIteratorCount gated ≠ 0) as Hc by (vm_compute; discriminate).
  assert (allocHead roomy allOnes false gated
          = Ok (Some 4%nat) (after (allocHead roomy allOnes false) gated)) as Hrun
    by (vm_compute; reflexivity).
  split; [exact W|]. split; [exact T|]. split; [exact Hc|]. split; [exact Hrun|].
  destruct (digest_agrees_with_iterator roomy allOnes gated false 4%nat
              (after (allocHead roomy allOnes false) gated) W T Hc Hrun)
    as (found & s & header & digest & Hact & Hs & He & Hiff).
  exists found, s, header, digest.
  split; [exact Hact|]. split; [exact Hs|]. split; [exact He|]. intros i Hi.
  destruct (proj1 (Hiff i) Hi) as [Hnew|(q & t & Hq & Ht & Hid & _)].
  - left. exact Hnew.
  - right. exists q, t. split; [exact Hq|]. split; [exact Ht|exact Hid].
Defined.

Lemma SegmentManager_new_spec_witness :
  (inject_Z 8 * 1 == inject_Z 8)%Q ∧ 0 ≤ 8 < 2 ^ 32 ∧
  SegmentManager_new 1 (mkAllocator 8 8388608 65536) (mkServerRpcPool 0 0) 1
    = inr (fresh 8 0) ∧
  maxSegments (fresh 8 0) = 8 ∧ freeSlots (fresh 8 0) = seq 0 8.
Proof.
  assert (inject_Z 8 * 1 == inject_Z 8)%Q as Hexact by reflexivity.
  assert (0 ≤ 8 < 2 ^ 32) as Hfit by lia.
  pose proof (fresh_is_constructed 8 0 ltac:(lia)) as Hnew.
  split; [exact Hexact|]. split; [exact Hfit|]. split; [exact Hnew|].
  pose proof (SegmentManager_new_spec 1 (mkAllocator 8 8388608 65536)
                (mkServerRpcPool 0 0) 1 8 Hexact Hfit) as Hspec.
  rewrite Hnew in Hspec. destruct Hspec as (_ & _ & Hmax & _ & Hfs & _).
  split; [reflexivity|]. exact Hfs.
Defined.

Lemma allocHead_lists_witness :
  WF cleaned ∧
  allocHead roomy allOnes false cleaned = Ok (Some 4%nat) digested ∧
  segmentsByState digested HEAD = [4%nat] ∧
  segmentsByState digested NEWLY_CLEANABLE = [5%nat] ∧
  segmentsByState digested FREEABLE_PENDING_REFERENCES = [7%nat].
Proof.
  destruct (run_inv _ run_cleaned) as [W T].
  assert (allocHead roomy allOnes false cleaned = Ok (Some 4%nat) digested) as H
    by (vm_compute; reflexivity).
  assert (logIteratorCount cleaned = 0) as Hc by (vm_compute; reflexivity).
  split; [exact W|]. split; [exact H|].
  destruct (allocHead_lists roomy allOnes cleaned false 4%nat digested W H)
    as (Hhead & _ & _ & Hquiet & _).
  destruct (Hquiet Hc) as (_ & Hnew & _ & Hfpr).
  split; [exact Hhead|]. split.
  - rewrite Hnew. vm_compute. reflexivity.
  - rewrite Hfpr. vm_compute. reflexivity.
Defined.

Lemma allocHead_header_witness :
  WF cleaned ∧
  allocHead roomy allOnes false cleaned = Ok (Some 4%nat) digested ∧
  ∃ s, segments digested !! 4%nat = Some s ∧
       entries s = [LOG_ENTRY_TYPE_SEGHEADER 1 3 8388608 allOnes;
                    LOG_ENTRY_TYPE_LOGDIGEST [2; 3]].
Proof.
  destruct (run_inv _ run_cleaned) as [W T].
  assert (allocHead roomy allOnes false cleaned = Ok (Some 4%nat) digested) as H
    by (vm_compute; reflexivity).
  split; [exact W|]. split; [exact H|].
  destruct (allocHead_header roomy allOnes cleaned false 4%nat digested W H)
    as (s & Hs & _ & _ & He & _).
  assert (logId cleaned = 1) as H1 by (vm_compute; reflexivity).
  assert (nextSegmentId cleaned = 3) as H2 by (vm_compute; reflexivity).
  assert (segmentSize (allocator cleaned) = 8388608) as H3 by (vm_compute; reflexivity).
  assert (expectedDigest cleaned = [2; 3]) as H4 by (vm_compute; reflexivity).
  rewrite H1, H2, H3, H4 in He. exists s. split; [exact Hs|exact He].
Defined.

(** ** A head allocation that throws *)

Section Throws.
Variable appendFits : LogSegment → LogEntry → bool.
Variable INVALID_SEGMENT_ID : Z.

(** [alloc] of a head links it at the back of HEAD. *)
Lemma alloc_head_lists type m p ma :
  WF m → type ≠ ALLOC_SURVIVOR → alloc type m = Ok (Some p) ma →
  WF ma ∧ segmentsByState ma HEAD = segmentsByState m HEAD ++ [p].
Proof.
  intros W Ht H.
  destruct (alloc_inv type m _ ma W H) as (m1 & _ & F & W1 & [(? & _)|(p' & Hr & _ & A)]);
    [done|].
  injection Hr as <-.
  split; [by eapply Allocated_WF|].
  rewrite (al_lists _ _ _ _ A), (swept_lists m m1 HEAD W F).
  rewrite decide_False by done. unfold birthState.
  by rewrite (decide_False (P := type = ALLOC_SURVIVOR)), decide_True by done.
Qed.


End Throws.

